(** * SHA-512/256 of GNU libmicrohttpd: a shallow embedding of
      [src/microhttpd/sha512_256.c] and the properties its specification
      states about it.

    A [uint64_t] is a [Z] in [0, 2^64) with the wrap-around written out,
    a [uint8_t] is a [Byte.byte], a C array is a [list] read and updated
    by index.  The calculation context is a record; the three entry points
    pass it explicitly and also return, in call order, the blocks they
    hand to [sha512_256_transform].  The last section has further
    properties of the code, among them one of the start of
    [src/testcurl/test_put_broken_len.c]. *)

From Stdlib Require Import ZArith List Lia Strings.Byte String Ascii.
From stdpp Require Import base list.
Import ListNotations.
Local Open Scope Z_scope.

(** ** 64-bit words *)

(** [x + y] on [uint64_t]. *)
Definition add64 (x y : Z) : Z := (x + y) mod 2 ^ 64.

(** [x << n] on [uint64_t]: the bits shifted out at the top are lost. *)
Definition shl64 (x n : Z) : Z := Z.shiftl x n mod 2 ^ 64.

(** [x >> n] on [uint64_t]. *)
Definition shr64 (x n : Z) : Z := Z.shiftr x n.

Definition byte_to_Z (b : byte) : Z := Z.of_N (Byte.to_N b).

(** The cast [(uint8_t) z]: the low eight bits. *)
Definition byte_of_Z (z : Z) : byte :=
  match Byte.of_N (Z.to_N (z mod 256)) with
  | Some b => b
  | None => x00
  end.

(** ** What [mhd_bithelpers.h] and [sha512_256.h] provide *)

(** Modelled from the spec: the constants of [sha512_256.h], which is not
    among the sources: a block is 128 bytes (16 words of 8 bytes), the hash
    state has 8 words and the digest is 32 bytes (4 words). *)
Definition SHA512_256_BYTES_IN_WORD : Z := 8.
Definition SHA512_256_BLOCK_SIZE : Z := 128.
Definition SHA512_256_BLOCK_SIZE_WORDS : Z := 16.
Definition SHA512_256_HASH_SIZE_WORDS : Z := 8.
Definition SHA512_256_DIGEST_SIZE : Z := 32.
Definition SHA512_256_DIGEST_SIZE_WORDS : Z := 4.

(** Modelled from the spec: the macro [_MHD_ROTR64] of [mhd_bithelpers.h],
    the right-rotation of a 64-bit word the standard defines,
    [(x >> bits) | (x << (64 - bits))]. *)
Definition _MHD_ROTR64 (value64 bits : Z) : Z :=
  Z.lor (shr64 value64 bits) (shl64 value64 (64 - bits)).

(** Modelled from the spec: the macro [_MHD_GET_64BIT_BE] of
    [mhd_bithelpers.h], the explicit big-endian load of the 64-bit word
    that starts at [addr], whatever the host byte order and alignment. *)
Definition _MHD_GET_64BIT_BE (addr : list byte) : Z :=
  let b (i : nat) := byte_to_Z (nth i addr x00) in
  Z.lor (Z.shiftl (b 0%nat) 56)
 (Z.lor (Z.shiftl (b 1%nat) 48)
 (Z.lor (Z.shiftl (b 2%nat) 40)
 (Z.lor (Z.shiftl (b 3%nat) 32)
 (Z.lor (Z.shiftl (b 4%nat) 24)
 (Z.lor (Z.shiftl (b 5%nat) 16)
 (Z.lor (Z.shiftl (b 6%nat) 8) (b 7%nat))))))).

(** Modelled from the spec: the macro [_MHD_PUT_64BIT_BE] of
    [mhd_bithelpers.h]; the eight bytes it stores, most significant
    first. *)
Definition _MHD_PUT_64BIT_BE (value64 : Z) : list byte :=
  [ byte_of_Z (shr64 value64 56); byte_of_Z (shr64 value64 48);
    byte_of_Z (shr64 value64 40); byte_of_Z (shr64 value64 32);
    byte_of_Z (shr64 value64 24); byte_of_Z (shr64 value64 16);
    byte_of_Z (shr64 value64 8);  byte_of_Z value64 ].

(** [memcpy (dst + off, src, n)] and [memset (dst + off, v, n)] on a byte
    array [dst]; the rest of [dst] stays as it is. *)
Definition memcpy (dst : list byte) (off : nat) (src : list byte) (n : nat)
  : list byte :=
  take off dst ++ take n src ++ drop (off + n) dst.

Definition memset (dst : list byte) (off : nat) (v : byte) (n : nat)
  : list byte :=
  take off dst ++ replicate n v ++ drop (off + n) dst.

(** ** The compression function, [sha512_256_transform] *)

Definition Ch (x y z : Z) : Z := Z.lxor z (Z.land x (Z.lxor y z)).
Definition Maj (x y z : Z) : Z :=
  Z.lxor (Z.land x y) (Z.land z (Z.lxor x y)).

Definition SIG0 (x : Z) : Z :=
  Z.lxor (Z.lxor (_MHD_ROTR64 x 28) (_MHD_ROTR64 x 34)) (_MHD_ROTR64 x 39).
Definition SIG1 (x : Z) : Z :=
  Z.lxor (Z.lxor (_MHD_ROTR64 x 14) (_MHD_ROTR64 x 18)) (_MHD_ROTR64 x 41).
Definition sig0 (x : Z) : Z :=
  Z.lxor (Z.lxor (_MHD_ROTR64 x 1) (_MHD_ROTR64 x 8)) (shr64 x 7).
Definition sig1 (x : Z) : Z :=
  Z.lxor (Z.lxor (_MHD_ROTR64 x 19) (_MHD_ROTR64 x 61)) (shr64 x 6).

Definition GET_W_FROM_DATA (buf : list byte) (t : Z) : Z :=
  _MHD_GET_64BIT_BE (drop (Z.to_nat (8 * t)) buf).

(** The cyclic buffer [W] is a list of 16 words, read at [W[i & 15]]. *)
Definition Wat (w : list Z) (i : Z) : Z := w !!! Z.to_nat (Z.land i 15).

Definition Wset (w : list Z) (i : Z) (v : Z) : list Z :=
  <[Z.to_nat (Z.land i 15) := v]> w.

Definition Wgen (w : list Z) (t : Z) : Z :=
  add64 (add64 (add64 (Wat w (t - 16)) (sig1 (Wat w (t - 2))))
               (Wat w (t - 7)))
        (sig0 (Wat w (t - 15))).

(** The round constants, FIPS PUB 180-4 clause 4.2.3. *)
Definition K : list Z :=
  [ 0x428a2f98d728ae22; 0x7137449123ef65cd; 0xb5c0fbcfec4d3b2f;
    0xe9b5dba58189dbbc; 0x3956c25bf348b538; 0x59f111f1b605d019;
    0x923f82a4af194f9b; 0xab1c5ed5da6d8118; 0xd807aa98a3030242;
    0x12835b0145706fbe; 0x243185be4ee4b28c; 0x550c7dc3d5ffb4e2;
    0x72be5d74f27b896f; 0x80deb1fe3b1696b1; 0x9bdc06a725c71235;
    0xc19bf174cf692694; 0xe49b69c19ef14ad2; 0xefbe4786384f25e3;
    0x0fc19dc68b8cd5b5; 0x240ca1cc77ac9c65; 0x2de92c6f592b0275;
    0x4a7484aa6ea6e483; 0x5cb0a9dcbd41fbd4; 0x76f988da831153b5;
    0x983e5152ee66dfab; 0xa831c66d2db43210; 0xb00327c898fb213f;
    0xbf597fc7beef0ee4; 0xc6e00bf33da88fc2; 0xd5a79147930aa725;
    0x06ca6351e003826f; 0x142929670a0e6e70; 0x27b70a8546d22ffc;
    0x2e1b21385c26c926; 0x4d2c6dfc5ac42aed; 0x53380d139d95b3df;
    0x650a73548baf63de; 0x766a0abb3c77b2a8; 0x81c2c92e47edaee6;
    0x92722c851482353b; 0xa2bfe8a14cf10364; 0xa81a664bbc423001;
    0xc24b8b70d0f89791; 0xc76c51a30654be30; 0xd192e819d6ef5218;
    0xd69906245565a910; 0xf40e35855771202a; 0x106aa07032bbd1b8;
    0x19a4c116b8d2d0c8; 0x1e376c085141ab53; 0x2748774cdf8eeb99;
    0x34b0bcb5e19b48a8; 0x391c0cb3c5c95a63; 0x4ed8aa4ae3418acb;
    0x5b9cca4f7763e373; 0x682e6ff3d6b2b8a3; 0x748f82ee5defb2fc;
    0x78a5636f43172f60; 0x84c87814a1f0ab72; 0x8cc702081a6439ec;
    0x90befffa23631e28; 0xa4506cebde82bde9; 0xbef9a3f7b2c67915;
    0xc67178f2e372532b; 0xca273eceea26619c; 0xd186b8c721c0c207;
    0xeada7dd6cde0eb1e; 0xf57d4f7fee6ed178; 0x06f067aa72176fba;
    0x0a637dc5a2c898a6; 0x113f9804bef90dae; 0x1b710b35131c471b;
    0x28db77f523047d84; 0x32caab7b40c72493; 0x3c9ebe0a15c9bebc;
    0x431d67c49c100d4c; 0x4cc5d4becb3e42b6; 0x597f299cfc657e2a;
    0x5fcb6fab3ad6faec; 0x6c44198c4a475817 ].

(** *** Working variables

    The step macros take the working variables themselves as arguments
    and assign to them, so the model names the variables: [Var.t] has the
    eight variables [a .. h] of [sha512_256_transform] and the temporary
    [tmp_h_] of [SHA2STEP64RV]; [work] holds their values together with
    the cyclic buffer [W]. *)
Module Var.
Inductive t : Set := a | b | c | d | e | f | g | h | tmp_h_.
End Var.

Record work : Type := mkWork
  { w_a : Z; w_b : Z; w_c : Z; w_d : Z;
    w_e : Z; w_f : Z; w_g : Z; w_h : Z;
    w_tmp_h_ : Z;
    w_W : list Z }.

Definition rd (s : work) (x : Var.t) : Z :=
  match x with
  | Var.a => w_a s | Var.b => w_b s | Var.c => w_c s | Var.d => w_d s
  | Var.e => w_e s | Var.f => w_f s | Var.g => w_g s | Var.h => w_h s
  | Var.tmp_h_ => w_tmp_h_ s
  end.

Definition wr (s : work) (x : Var.t) (v : Z) : work :=
  let '(mkWork a b c d e f g h t W) := s in
  match x with
  | Var.a => mkWork v b c d e f g h t W
  | Var.b => mkWork a v c d e f g h t W
  | Var.c => mkWork a b v d e f g h t W
  | Var.d => mkWork a b c v e f g h t W
  | Var.e => mkWork a b c d v f g h t W
  | Var.f => mkWork a b c d e v g h t W
  | Var.g => mkWork a b c d e f v h t W
  | Var.h => mkWork a b c d e f g v t W
  | Var.tmp_h_ => mkWork a b c d e f g h v W
  end.

Definition set_W (s : work) (W : list Z) : work :=
  let '(mkWork a b c d e f g h t _) := s in mkWork a b c d e f g h t W.

(** The last argument of a step is an assignment to a slot of [W], whose
    value is the word assigned: [W[t] = GET_W_FROM_DATA (data, t)] in the
    first 16 steps, [W[t & 15] = Wgen (W, t)] in the last 64. *)
Definition W_from_data (data : list byte) (t : Z) (s : work) : Z * work :=
  let wt := GET_W_FROM_DATA data t in
  (wt, set_W s (<[Z.to_nat t := wt]> (w_W s))).

Definition W_from_Wgen (t : Z) (s : work) : Z * work :=
  let wt := Wgen (w_W s) t in
  (wt, set_W s (Wset (w_W s) t wt)).

(** The macro [SHA2STEP64]: [wt] is evaluated once, then [vH] and [vD] are
    updated in place. *)
Definition SHA2STEP64 (vA vB vC vD vE vF vG vH : Var.t) (kt : Z)
  (wt : work → Z * work) (s : work) : work :=
  let '(wt, s) := wt s in
  let s := wr s vH
    (add64 (rd s vH)
       (add64
          (add64 (add64 (SIG1 (rd s vE)) (Ch (rd s vE) (rd s vF) (rd s vG)))
             kt)
          wt)) in
  let s := wr s vD (add64 (rd s vD) (rd s vH)) in
  wr s vH
    (add64 (rd s vH)
       (add64 (SIG0 (rd s vA)) (Maj (rd s vA) (rd s vB) (rd s vC)))).

(** The macro [SHA2STEP64RV]: one step on a copy of [vH], then every
    working variable is reassigned. *)
Definition SHA2STEP64RV (vA vB vC vD vE vF vG vH : Var.t) (kt : Z)
  (wt : work → Z * work) (s : work) : work :=
  let s := wr s Var.tmp_h_ (rd s vH) in
  let s := SHA2STEP64 vA vB vC vD vE vF vG Var.tmp_h_ kt wt s in
  let s := wr s vH (rd s vG) in
  let s := wr s vG (rd s vF) in
  let s := wr s vF (rd s vE) in
  let s := wr s vE (rd s vD) in
  let s := wr s vD (rd s vC) in
  let s := wr s vC (rd s vB) in
  let s := wr s vB (rd s vA) in
  wr s vA (rd s Var.tmp_h_).

(** Statements executed one after the other. *)
Definition run (stmts : list (work → work)) (s : work) : work :=
  foldl (λ s stmt, stmt s) s stmts.

Section Transform.
Import Var.

(** The working variables are loaded from [H]; the local array [W] and
    the temporary start with unspecified contents (every slot of [W] is
    written before it is read), the model starts them at zero. *)
Definition work_init (H : list Z) : work :=
  mkWork (H !!! 0%nat) (H !!! 1%nat) (H !!! 2%nat) (H !!! 3%nat)
         (H !!! 4%nat) (H !!! 5%nat) (H !!! 6%nat) (H !!! 7%nat)
         0 (replicate 16 0).

(** [H[0] += a; ... H[7] += h;] *)
Definition work_add (H : list Z) (s : work) : list Z :=
  [ add64 (H !!! 0%nat) (rd s a); add64 (H !!! 1%nat) (rd s b);
    add64 (H !!! 2%nat) (rd s c); add64 (H !!! 3%nat) (rd s d);
    add64 (H !!! 4%nat) (rd s e); add64 (H !!! 5%nat) (rd s f);
    add64 (H !!! 6%nat) (rd s g); add64 (H !!! 7%nat) (rd s h) ].

(** The 80 steps of the default build, written out, the roles of the
    working variables rotated from one step to the next.  The words of
    the block are always obtained as big-endian loads: the copy of an
    unaligned block into [W], and the branch of a big-endian host that
    then reads [W] directly, yield the same sixteen words. *)
Definition unrolled_steps (data : list byte) : list (work → work) :=
  [
    SHA2STEP64 a b c d e f g h 0x428a2f98d728ae22 (W_from_data data 0);
    SHA2STEP64 h a b c d e f g 0x7137449123ef65cd (W_from_data data 1);
    SHA2STEP64 g h a b c d e f 0xb5c0fbcfec4d3b2f (W_from_data data 2);
    SHA2STEP64 f g h a b c d e 0xe9b5dba58189dbbc (W_from_data data 3);
    SHA2STEP64 e f g h a b c d 0x3956c25bf348b538 (W_from_data data 4);
    SHA2STEP64 d e f g h a b c 0x59f111f1b605d019 (W_from_data data 5);
    SHA2STEP64 c d e f g h a b 0x923f82a4af194f9b (W_from_data data 6);
    SHA2STEP64 b c d e f g h a 0xab1c5ed5da6d8118 (W_from_data data 7);
    SHA2STEP64 a b c d e f g h 0xd807aa98a3030242 (W_from_data data 8);
    SHA2STEP64 h a b c d e f g 0x12835b0145706fbe (W_from_data data 9);
    SHA2STEP64 g h a b c d e f 0x243185be4ee4b28c (W_from_data data 10);
    SHA2STEP64 f g h a b c d e 0x550c7dc3d5ffb4e2 (W_from_data data 11);
    SHA2STEP64 e f g h a b c d 0x72be5d74f27b896f (W_from_data data 12);
    SHA2STEP64 d e f g h a b c 0x80deb1fe3b1696b1 (W_from_data data 13);
    SHA2STEP64 c d e f g h a b 0x9bdc06a725c71235 (W_from_data data 14);
    SHA2STEP64 b c d e f g h a 0xc19bf174cf692694 (W_from_data data 15);
    SHA2STEP64 a b c d e f g h 0xe49b69c19ef14ad2 (W_from_Wgen 16);
    SHA2STEP64 h a b c d e f g 0xefbe4786384f25e3 (W_from_Wgen 17);
    SHA2STEP64 g h a b c d e f 0x0fc19dc68b8cd5b5 (W_from_Wgen 18);
    SHA2STEP64 f g h a b c d e 0x240ca1cc77ac9c65 (W_from_Wgen 19);
    SHA2STEP64 e f g h a b c d 0x2de92c6f592b0275 (W_from_Wgen 20);
    SHA2STEP64 d e f g h a b c 0x4a7484aa6ea6e483 (W_from_Wgen 21);
    SHA2STEP64 c d e f g h a b 0x5cb0a9dcbd41fbd4 (W_from_Wgen 22);
    SHA2STEP64 b c d e f g h a 0x76f988da831153b5 (W_from_Wgen 23);
    SHA2STEP64 a b c d e f g h 0x983e5152ee66dfab (W_from_Wgen 24);
    SHA2STEP64 h a b c d e f g 0xa831c66d2db43210 (W_from_Wgen 25);
    SHA2STEP64 g h a b c d e f 0xb00327c898fb213f (W_from_Wgen 26);
    SHA2STEP64 f g h a b c d e 0xbf597fc7beef0ee4 (W_from_Wgen 27);
    SHA2STEP64 e f g h a b c d 0xc6e00bf33da88fc2 (W_from_Wgen 28);
    SHA2STEP64 d e f g h a b c 0xd5a79147930aa725 (W_from_Wgen 29);
    SHA2STEP64 c d e f g h a b 0x06ca6351e003826f (W_from_Wgen 30);
    SHA2STEP64 b c d e f g h a 0x142929670a0e6e70 (W_from_Wgen 31);
    SHA2STEP64 a b c d e f g h 0x27b70a8546d22ffc (W_from_Wgen 32);
    SHA2STEP64 h a b c d e f g 0x2e1b21385c26c926 (W_from_Wgen 33);
    SHA2STEP64 g h a b c d e f 0x4d2c6dfc5ac42aed (W_from_Wgen 34);
    SHA2STEP64 f g h a b c d e 0x53380d139d95b3df (W_from_Wgen 35);
    SHA2STEP64 e f g h a b c d 0x650a73548baf63de (W_from_Wgen 36);
    SHA2STEP64 d e f g h a b c 0x766a0abb3c77b2a8 (W_from_Wgen 37);
    SHA2STEP64 c d e f g h a b 0x81c2c92e47edaee6 (W_from_Wgen 38);
    SHA2STEP64 b c d e f g h a 0x92722c851482353b (W_from_Wgen 39);
    SHA2STEP64 a b c d e f g h 0xa2bfe8a14cf10364 (W_from_Wgen 40);
    SHA2STEP64 h a b c d e f g 0xa81a664bbc423001 (W_from_Wgen 41);
    SHA2STEP64 g h a b c d e f 0xc24b8b70d0f89791 (W_from_Wgen 42);
    SHA2STEP64 f g h a b c d e 0xc76c51a30654be30 (W_from_Wgen 43);
    SHA2STEP64 e f g h a b c d 0xd192e819d6ef5218 (W_from_Wgen 44);
    SHA2STEP64 d e f g h a b c 0xd69906245565a910 (W_from_Wgen 45);
    SHA2STEP64 c d e f g h a b 0xf40e35855771202a (W_from_Wgen 46);
    SHA2STEP64 b c d e f g h a 0x106aa07032bbd1b8 (W_from_Wgen 47);
    SHA2STEP64 a b c d e f g h 0x19a4c116b8d2d0c8 (W_from_Wgen 48);
    SHA2STEP64 h a b c d e f g 0x1e376c085141ab53 (W_from_Wgen 49);
    SHA2STEP64 g h a b c d e f 0x2748774cdf8eeb99 (W_from_Wgen 50);
    SHA2STEP64 f g h a b c d e 0x34b0bcb5e19b48a8 (W_from_Wgen 51);
    SHA2STEP64 e f g h a b c d 0x391c0cb3c5c95a63 (W_from_Wgen 52);
    SHA2STEP64 d e f g h a b c 0x4ed8aa4ae3418acb (W_from_Wgen 53);
    SHA2STEP64 c d e f g h a b 0x5b9cca4f7763e373 (W_from_Wgen 54);
    SHA2STEP64 b c d e f g h a 0x682e6ff3d6b2b8a3 (W_from_Wgen 55);
    SHA2STEP64 a b c d e f g h 0x748f82ee5defb2fc (W_from_Wgen 56);
    SHA2STEP64 h a b c d e f g 0x78a5636f43172f60 (W_from_Wgen 57);
    SHA2STEP64 g h a b c d e f 0x84c87814a1f0ab72 (W_from_Wgen 58);
    SHA2STEP64 f g h a b c d e 0x8cc702081a6439ec (W_from_Wgen 59);
    SHA2STEP64 e f g h a b c d 0x90befffa23631e28 (W_from_Wgen 60);
    SHA2STEP64 d e f g h a b c 0xa4506cebde82bde9 (W_from_Wgen 61);
    SHA2STEP64 c d e f g h a b 0xbef9a3f7b2c67915 (W_from_Wgen 62);
    SHA2STEP64 b c d e f g h a 0xc67178f2e372532b (W_from_Wgen 63);
    SHA2STEP64 a b c d e f g h 0xca273eceea26619c (W_from_Wgen 64);
    SHA2STEP64 h a b c d e f g 0xd186b8c721c0c207 (W_from_Wgen 65);
    SHA2STEP64 g h a b c d e f 0xeada7dd6cde0eb1e (W_from_Wgen 66);
    SHA2STEP64 f g h a b c d e 0xf57d4f7fee6ed178 (W_from_Wgen 67);
    SHA2STEP64 e f g h a b c d 0x06f067aa72176fba (W_from_Wgen 68);
    SHA2STEP64 d e f g h a b c 0x0a637dc5a2c898a6 (W_from_Wgen 69);
    SHA2STEP64 c d e f g h a b 0x113f9804bef90dae (W_from_Wgen 70);
    SHA2STEP64 b c d e f g h a 0x1b710b35131c471b (W_from_Wgen 71);
    SHA2STEP64 a b c d e f g h 0x28db77f523047d84 (W_from_Wgen 72);
    SHA2STEP64 h a b c d e f g 0x32caab7b40c72493 (W_from_Wgen 73);
    SHA2STEP64 g h a b c d e f 0x3c9ebe0a15c9bebc (W_from_Wgen 74);
    SHA2STEP64 f g h a b c d e 0x431d67c49c100d4c (W_from_Wgen 75);
    SHA2STEP64 e f g h a b c d 0x4cc5d4becb3e42b6 (W_from_Wgen 76);
    SHA2STEP64 d e f g h a b c 0x597f299cfc657e2a (W_from_Wgen 77);
    SHA2STEP64 c d e f g h a b 0x5fcb6fab3ad6faec (W_from_Wgen 78);
    SHA2STEP64 b c d e f g h a 0x6c44198c4a475817 (W_from_Wgen 79)
  ].

Definition sha512_256_transform_unrolled (H : list Z) (data : list byte)
  : list Z :=
  work_add H (run (unrolled_steps data) (work_init H)).

(** The two loops of the build with [MHD_FAVOR_SMALL_CODE]. *)
Definition sha512_256_transform_small (H : list Z) (data : list byte)
  : list Z :=
  let s := work_init H in
  let s :=
    foldl (λ s t, SHA2STEP64RV a b c d e f g h (K !!! Z.to_nat t)
                    (W_from_data data t) s) s (seqZ 0 16) in
  let s :=
    foldl (λ s t, SHA2STEP64RV a b c d e f g h (K !!! Z.to_nat t)
                    (W_from_Wgen t) s) s (seqZ 16 64) in
  work_add H s.
End Transform.

(** The build option [MHD_FAVOR_SMALL_CODE] chooses between the two. *)
Definition sha512_256_transform (MHD_FAVOR_SMALL_CODE : bool)
  (H : list Z) (data : list byte) : list Z :=
  if MHD_FAVOR_SMALL_CODE
  then sha512_256_transform_small H data
  else sha512_256_transform_unrolled H data.

(** ** The transform on a block that is not aligned

    Without [_MHD_GET_64BIT_BE_ALLOW_UNALIGNED], [sha512_256_transform]
    first copies a block whose address is not a multiple of
    [_MHD_UINT64_ALIGN] into its own array [W] and goes on with
    [data = W]: the first 16 steps then read the block from the very
    array they assign to.  What the [uint64_t] elements of [W] hold after
    the [memcpy] depends on the byte order of the host. *)

(** The eight bytes of a [uint64_t] in the memory of the host, and the
    [uint64_t] that eight bytes of memory hold: most significant byte
    first on a big-endian host, last on a little-endian one. *)
Definition host_bytes (big_endian : bool) (v : Z) : list byte :=
  if big_endian then _MHD_PUT_64BIT_BE v else rev (_MHD_PUT_64BIT_BE v).

Definition host_word (big_endian : bool) (bs : list byte) : Z :=
  _MHD_GET_64BIT_BE (if big_endian then bs else rev bs).

(** [memcpy (W, data, sizeof (W))]: the sixteen elements of [W]
    afterwards. *)
Definition memcpy_W (big_endian : bool) (data : list byte) : list Z :=
  (λ t, host_word big_endian (take 8 (drop (8 * t) data))) <$> seq 0 16.

(** [W[t] = GET_W_FROM_DATA (data, t)] when [data] is [W] itself: the
    big-endian load reads the bytes of the element it then assigns. *)
Definition W_from_W (big_endian : bool) (t : Z) (s : work) : Z * work :=
  let wt :=
    _MHD_GET_64BIT_BE (host_bytes big_endian (w_W s !!! Z.to_nat t)) in
  (wt, set_W s (<[Z.to_nat t := wt]> (w_W s))).

(** The plain read [W[t]] of the steps written for a big-endian host. *)
Definition W_read (t : Z) (s : work) : Z * work :=
  (w_W s !!! Z.to_nat t, s).

Section TransformAt.
Import Var.
(** The build options and the byte order of the host,
    [_MHD_BYTE_ORDER == _MHD_BIG_ENDIAN]. *)
Variable MHD_FAVOR_SMALL_CODE : bool.
Variable _MHD_GET_64BIT_BE_ALLOW_UNALIGNED : bool.
Variable big_endian : bool.

(** The first 16 steps of the default build.  The code writes them
    twice, with the same constants and the same rotation of the
    variables: with the last argument [W[t]] for a big-endian host whose
    block is already in [W], and with [W[t] = GET_W_FROM_DATA (data, t)]
    otherwise; [wt] is that last argument. *)
Definition unrolled_steps_16 (wt : Z → work → Z * work)
  : list (work → work) :=
  [
    SHA2STEP64 a b c d e f g h 0x428a2f98d728ae22 (wt 0);
    SHA2STEP64 h a b c d e f g 0x7137449123ef65cd (wt 1);
    SHA2STEP64 g h a b c d e f 0xb5c0fbcfec4d3b2f (wt 2);
    SHA2STEP64 f g h a b c d e 0xe9b5dba58189dbbc (wt 3);
    SHA2STEP64 e f g h a b c d 0x3956c25bf348b538 (wt 4);
    SHA2STEP64 d e f g h a b c 0x59f111f1b605d019 (wt 5);
    SHA2STEP64 c d e f g h a b 0x923f82a4af194f9b (wt 6);
    SHA2STEP64 b c d e f g h a 0xab1c5ed5da6d8118 (wt 7);
    SHA2STEP64 a b c d e f g h 0xd807aa98a3030242 (wt 8);
    SHA2STEP64 h a b c d e f g 0x12835b0145706fbe (wt 9);
    SHA2STEP64 g h a b c d e f 0x243185be4ee4b28c (wt 10);
    SHA2STEP64 f g h a b c d e 0x550c7dc3d5ffb4e2 (wt 11);
    SHA2STEP64 e f g h a b c d 0x72be5d74f27b896f (wt 12);
    SHA2STEP64 d e f g h a b c 0x80deb1fe3b1696b1 (wt 13);
    SHA2STEP64 c d e f g h a b 0x9bdc06a725c71235 (wt 14);
    SHA2STEP64 b c d e f g h a 0xc19bf174cf692694 (wt 15)
  ].

(** [sha512_256_transform (H, data)] for a block at an address that is
    aligned or not ([data_aligned]).  After the copy the small build
    loads every word from [W]; the default build reads [W[t]] on a
    big-endian host and loads from [W] on any other.  The last 64 steps
    are those of [unrolled_steps], which do not look at the block. *)
Definition sha512_256_transform_at (H : list Z) (data : list byte)
  (data_aligned : bool) : list Z :=
  if negb _MHD_GET_64BIT_BE_ALLOW_UNALIGNED && negb data_aligned then
    let s := set_W (work_init H) (memcpy_W big_endian data) in
    if MHD_FAVOR_SMALL_CODE then
      let s :=
        foldl (λ s t, SHA2STEP64RV a b c d e f g h (K !!! Z.to_nat t)
                        (W_from_W big_endian t) s) s (seqZ 0 16) in
      let s :=
        foldl (λ s t, SHA2STEP64RV a b c d e f g h (K !!! Z.to_nat t)
                        (W_from_Wgen t) s) s (seqZ 16 64) in
      work_add H s
    else
      let first :=
        if big_endian then unrolled_steps_16 W_read
        else unrolled_steps_16 (W_from_W big_endian) in
      work_add H (run (first ++ drop 16 (unrolled_steps data)) s)
  else sha512_256_transform MHD_FAVOR_SMALL_CODE H data.
End TransformAt.

(** ** The calculation context and its three entry points *)

(** Modelled from the spec: [struct Sha512_256Ctx] of [sha512_256.h], which
    is not among the sources: the eight words of the running hash value,
    the 128-byte buffer of input not yet processed, the low-order byte
    counter and the overflow counter (the high 64 bits of the number of
    bits).  The C code reaches the buffer both as words and, through a
    cast, as bytes; the model keeps its bytes. *)
Record Sha512_256Ctx : Type := mkCtx
  { H : list Z;
    buffer : list byte;
    count : Z;
    count_bits_hi : Z }.

Definition set_H (ctx : Sha512_256Ctx) (v : list Z) : Sha512_256Ctx :=
  mkCtx v (buffer ctx) (count ctx) (count_bits_hi ctx).
Definition set_buffer (ctx : Sha512_256Ctx) (v : list byte) : Sha512_256Ctx :=
  mkCtx (H ctx) v (count ctx) (count_bits_hi ctx).
Definition set_count (ctx : Sha512_256Ctx) (v : Z) : Sha512_256Ctx :=
  mkCtx (H ctx) (buffer ctx) v (count_bits_hi ctx).
Definition set_count_bits_hi (ctx : Sha512_256Ctx) (v : Z) : Sha512_256Ctx :=
  mkCtx (H ctx) (buffer ctx) (count ctx) v.

(** [MHD_SHA512_256_init]: the buffer is not touched. *)
Definition MHD_SHA512_256_init (ctx : Sha512_256Ctx) : Sha512_256Ctx :=
  let ctx := set_H ctx
    [ 0x22312194FC2BF72C; 0x9F555FA3C84C64C2; 0x2393B86B6F53B151;
      0x963877195940EABD; 0x96283EE2A88EFFE3; 0xBE5E1E2553863992;
      0x2B0199FC2C85B8AA; 0x0EB72DDC81C52CA2 ] in
  let ctx := set_count ctx 0 in
  set_count_bits_hi ctx 0.

(** Size of the length field appended by the padding, in bits and in
    bytes. *)
Definition SHA512_256_SIZE_OF_LEN_ADD_BITS : Z := 128.
Definition SHA512_256_SIZE_OF_LEN_ADD : Z :=
  SHA512_256_SIZE_OF_LEN_ADD_BITS / 8.

(** The entry points also return their trace: the blocks they hand to
    [sha512_256_transform], in call order, a [list (list byte)]. *)

Section Build.
(** The two build options the code depends on. *)
Variable MHD_FAVOR_SMALL_CODE : bool.
Variable _MHD_PUT_64BIT_BE_UNALIGNED : bool.

(** The call [sha512_256_transform (ctx->H, data)]: it reads the 128
    bytes at [data], updates [H], and is recorded in the trace. *)
Definition call_transform (st : Sha512_256Ctx * list (list byte))
  (data : list byte) : Sha512_256Ctx * list (list byte) :=
  let '(ctx, tr) := st in
  let block := take (Z.to_nat SHA512_256_BLOCK_SIZE) data in
  (set_H ctx (sha512_256_transform MHD_FAVOR_SMALL_CODE (H ctx) block),
   tr ++ [block]).

(** [while (SHA512_256_BLOCK_SIZE <= length)] of [MHD_SHA512_256_update];
    [data] is what remains at the pointer [data] and [length] its
    length.  The recursion is on [fuel]; [update_loop_fuel] shows that
    the fuel given by the caller is never what ends the loop. *)
Fixpoint update_loop (fuel : nat) (st : Sha512_256Ctx * list (list byte))
  (data : list byte) : Sha512_256Ctx * list (list byte) * list byte :=
  match fuel with
  | O => (st, data)
  | S fuel =>
      if SHA512_256_BLOCK_SIZE <=? Z.of_nat (length data) then
        let st := call_transform st data in
        let data := drop (Z.to_nat SHA512_256_BLOCK_SIZE) data in
        update_loop fuel st data
      else (st, data)
  end.

(** [MHD_SHA512_256_update (ctx, data, length)], with [length] the
    number of bytes at [data], a [size_t]; the addition of [length] to
    the 64-bit [count] wraps. *)
Definition MHD_SHA512_256_update (ctx : Sha512_256Ctx) (data : list byte)
  : Sha512_256Ctx * list (list byte) :=
  let length_ := Z.of_nat (length data) in
  if negb MHD_FAVOR_SMALL_CODE && (0 =? length_) then (ctx, [])
  else
  let bytes_have := Z.land (count ctx) (SHA512_256_BLOCK_SIZE - 1) in
  let ctx := set_count ctx (add64 (count ctx) length_) in
  let count_hi := shr64 (count ctx) 61 in
  let ctx :=
    if negb (0 =? count_hi) then
      let ctx :=
        set_count_bits_hi ctx (add64 (count_bits_hi ctx) count_hi) in
      set_count ctx (Z.land (count ctx) 0x1FFFFFFFFFFFFFFF)
    else ctx in
  let '(st, data, bytes_have) :=
    if negb (0 =? bytes_have) then
      let bytes_left := SHA512_256_BLOCK_SIZE - bytes_have in
      if bytes_left <=? Z.of_nat (length data) then
        let ctx :=
          set_buffer ctx
            (memcpy (buffer ctx) (Z.to_nat bytes_have) data
               (Z.to_nat bytes_left)) in
        let data := drop (Z.to_nat bytes_left) data in
        (call_transform (ctx, []) (buffer ctx), data, 0)
      else ((ctx, []), data, bytes_have)
    else ((ctx, []), data, bytes_have) in
  let '(st, data) := update_loop (length data) st data in
  if negb (0 =? Z.of_nat (length data)) then
    let '(ctx, tr) := st in
    (set_buffer ctx
       (memcpy (buffer ctx) (Z.to_nat bytes_have) data (length data)), tr)
  else st.

(** The first part of [MHD_SHA512_256_finish], up to and including the
    last call of the transform: padding, length, final block. *)
Definition finish_pad (ctx : Sha512_256Ctx)
  : Sha512_256Ctx * list (list byte) :=
  let num_bits := shl64 (count ctx) 3 in
  let bytes_have := Z.land (count ctx) (SHA512_256_BLOCK_SIZE - 1) in
  let ctx :=
    set_buffer ctx (<[Z.to_nat bytes_have := x80]> (buffer ctx)) in
  let bytes_have := bytes_have + 1 in
  let '(st, bytes_have) :=
    if SHA512_256_BLOCK_SIZE - bytes_have <? SHA512_256_SIZE_OF_LEN_ADD
    then
      let ctx :=
        if bytes_have <? SHA512_256_BLOCK_SIZE then
          set_buffer ctx
            (memset (buffer ctx) (Z.to_nat bytes_have) x00
               (Z.to_nat (SHA512_256_BLOCK_SIZE - bytes_have)))
        else ctx in
      (call_transform (ctx, []) (buffer ctx), 0)
    else ((ctx, []), bytes_have) in
  let '(ctx, tr) := st in
  let ctx :=
    set_buffer ctx
      (memset (buffer ctx) (Z.to_nat bytes_have) x00
         (Z.to_nat (SHA512_256_BLOCK_SIZE - SHA512_256_SIZE_OF_LEN_ADD
                    - bytes_have))) in
  let ctx :=
    set_buffer ctx
      (memcpy (buffer ctx)
         (Z.to_nat ((SHA512_256_BLOCK_SIZE_WORDS - 2)
                    * SHA512_256_BYTES_IN_WORD))
         (_MHD_PUT_64BIT_BE (count_bits_hi ctx)) 8) in
  let ctx :=
    set_buffer ctx
      (memcpy (buffer ctx)
         (Z.to_nat ((SHA512_256_BLOCK_SIZE_WORDS - 1)
                    * SHA512_256_BYTES_IN_WORD))
         (_MHD_PUT_64BIT_BE num_bits) 8) in
  call_transform (ctx, tr) (buffer ctx).

(** The second part: the leftmost four words of the hash go to the
    caller's array [digest], through an aligned temporary when the
    build or the address [digest] asks for it ([digest_aligned] tells
    whether the address is a multiple of [_MHD_UINT64_ALIGN]). *)
Definition finish_digest (ctx : Sha512_256Ctx) (digest : list byte)
  (digest_aligned : bool) : list byte :=
  let through_temporary :=
    negb _MHD_PUT_64BIT_BE_UNALIGNED
    && (MHD_FAVOR_SMALL_CODE || negb digest_aligned) in
  if through_temporary then
    let alig_dgst :=
      _MHD_PUT_64BIT_BE (H ctx !!! 0%nat) ++
      _MHD_PUT_64BIT_BE (H ctx !!! 1%nat) ++
      _MHD_PUT_64BIT_BE (H ctx !!! 2%nat) ++
      _MHD_PUT_64BIT_BE (H ctx !!! 3%nat) in
    memcpy digest 0 alig_dgst (Z.to_nat SHA512_256_DIGEST_SIZE)
  else
    let digest :=
      memcpy digest (Z.to_nat (0 * SHA512_256_BYTES_IN_WORD))
        (_MHD_PUT_64BIT_BE (H ctx !!! 0%nat)) 8 in
    let digest :=
      memcpy digest (Z.to_nat (1 * SHA512_256_BYTES_IN_WORD))
        (_MHD_PUT_64BIT_BE (H ctx !!! 1%nat)) 8 in
    let digest :=
      memcpy digest (Z.to_nat (2 * SHA512_256_BYTES_IN_WORD))
        (_MHD_PUT_64BIT_BE (H ctx !!! 2%nat)) 8 in
    memcpy digest (Z.to_nat (3 * SHA512_256_BYTES_IN_WORD))
      (_MHD_PUT_64BIT_BE (H ctx !!! 3%nat)) 8.

(** [memset (ctx, 0, sizeof (struct Sha512_256Ctx))]. *)
Definition erased : Sha512_256Ctx :=
  mkCtx (replicate (Z.to_nat SHA512_256_HASH_SIZE_WORDS) 0)
        (replicate (Z.to_nat SHA512_256_BLOCK_SIZE) x00) 0 0.

(** [MHD_SHA512_256_finish (ctx, digest)]: the digest written, the
    context left behind, and the trace. *)
Definition MHD_SHA512_256_finish (ctx : Sha512_256Ctx)
  (digest : list byte) (digest_aligned : bool)
  : list byte * Sha512_256Ctx * list (list byte) :=
  let '(ctx, tr) := finish_pad ctx in
  let digest := finish_digest ctx digest digest_aligned in
  (digest, erased, tr).

(** [init], then one [update] per chunk: the context reached and the
    whole trace. *)
Definition absorb (ctx0 : Sha512_256Ctx) (chunks : list (list byte))
  : Sha512_256Ctx * list (list byte) :=
  foldl (λ st data,
           let '(ctx, tr) := MHD_SHA512_256_update (fst st) data in
           (ctx, snd st ++ tr))
        (MHD_SHA512_256_init ctx0, []) chunks.

(** The contexts the entry points can be called on: initialised, then
    updated any number of times. *)
Inductive reachable : Sha512_256Ctx → Prop :=
| reachable_init ctx0 :
    length (buffer ctx0) = Z.to_nat SHA512_256_BLOCK_SIZE →
    reachable (MHD_SHA512_256_init ctx0)
| reachable_update ctx data :
    reachable ctx → reachable (fst (MHD_SHA512_256_update ctx data)).
End Build.

(** ** The compression function as the standard states it

    The second description of the transform, after FIPS PUB 180-4 clauses
    4.1.3, 6.4.2 and the specification: the whole schedule of 80 words,
    and 80 rounds that compute [T1] and [T2] and reassign the eight
    working variables. *)
Module FIPS.
Definition ROTR (n x : Z) : Z :=
  Z.lor (Z.shiftr x n) (Z.shiftl x (64 - n) mod 2 ^ 64).
Definition SHR (n x : Z) : Z := Z.shiftr x n.
Definition Ch (x y z : Z) : Z :=
  Z.lxor (Z.land x y) (Z.land (Z.lnot x) z).
Definition Maj (x y z : Z) : Z :=
  Z.lxor (Z.lxor (Z.land x y) (Z.land x z)) (Z.land y z).
Definition Sigma0 (x : Z) : Z :=
  Z.lxor (Z.lxor (ROTR 28 x) (ROTR 34 x)) (ROTR 39 x).
Definition Sigma1 (x : Z) : Z :=
  Z.lxor (Z.lxor (ROTR 14 x) (ROTR 18 x)) (ROTR 41 x).
Definition sigma0 (x : Z) : Z :=
  Z.lxor (Z.lxor (ROTR 1 x) (ROTR 8 x)) (SHR 7 x).
Definition sigma1 (x : Z) : Z :=
  Z.lxor (Z.lxor (ROTR 19 x) (ROTR 61 x)) (SHR 6 x).

(** The value of a byte string read as a big-endian number. *)
Definition be_value (bs : list byte) : Z :=
  foldl (λ acc b, acc * 256 + byte_to_Z b) 0 bs.

(** The 16 big-endian words of a block. *)
Definition words (block : list byte) : list Z :=
  (λ t, be_value (take 8 (drop (8 * t) block))) <$> seq 0 16.

(** [W[t] = W[t-16] + σ1(W[t-2]) + W[t-7] + σ0(W[t-15])] (mod 2^64),
    for the next [n] values of [t]. *)
Fixpoint extend (n : nat) (W : list Z) : list Z :=
  match n with
  | O => W
  | S n =>
      let t := length W in
      extend n
        (W ++ [ (W !!! (t - 16)%nat + sigma1 (W !!! (t - 2)%nat)
                 + W !!! (t - 7)%nat + sigma0 (W !!! (t - 15)%nat))
                mod 2 ^ 64 ])
  end.

(** The message schedule: all 80 words. *)
Definition schedule (block : list byte) : list Z :=
  extend 64 (words block).

Definition round (v : Z * Z * Z * Z * Z * Z * Z * Z) (Kt Wt : Z)
  : Z * Z * Z * Z * Z * Z * Z * Z :=
  let '(a, b, c, d, e, f, g, h) := v in
  let T1 := (h + Sigma1 e + Ch e f g + Kt + Wt) mod 2 ^ 64 in
  let T2 := (Sigma0 a + Maj a b c) mod 2 ^ 64 in
  ((T1 + T2) mod 2 ^ 64, a, b, c, (d + T1) mod 2 ^ 64, e, f, g).

Definition rounds (v : Z * Z * Z * Z * Z * Z * Z * Z) (W : list Z)
  (n : nat) : Z * Z * Z * Z * Z * Z * Z * Z :=
  foldl (λ v t, round v (K !!! t) (W !!! t)) v (seq 0 n).

Definition compress (H : list Z) (block : list byte) : list Z :=
  let W := schedule block in
  let v := (H !!! 0%nat, H !!! 1%nat, H !!! 2%nat, H !!! 3%nat,
            H !!! 4%nat, H !!! 5%nat, H !!! 6%nat, H !!! 7%nat) in
  let '(a, b, c, d, e, f, g, h) := rounds v W 80 in
  [ (H !!! 0%nat + a) mod 2 ^ 64; (H !!! 1%nat + b) mod 2 ^ 64;
    (H !!! 2%nat + c) mod 2 ^ 64; (H !!! 3%nat + d) mod 2 ^ 64;
    (H !!! 4%nat + e) mod 2 ^ 64; (H !!! 5%nat + f) mod 2 ^ 64;
    (H !!! 6%nat + g) mod 2 ^ 64; (H !!! 7%nat + h) mod 2 ^ 64 ].

(** The initial hash value of SHA-512/256, clause 5.3.6.2, that of plain
    SHA-512, clause 5.3.5.3, and the IV generation function of clause
    5.3.6, which derives the first from the second: the words of the
    SHA-512 value are xored with [a5a5a5a5a5a5a5a5], and the one padded
    block of the ASCII text [SHA-512/256] is compressed from there. *)
Definition IV_512_256 : list Z :=
  [ 0x22312194FC2BF72C; 0x9F555FA3C84C64C2; 0x2393B86B6F53B151;
    0x963877195940EABD; 0x96283EE2A88EFFE3; 0xBE5E1E2553863992;
    0x2B0199FC2C85B8AA; 0x0EB72DDC81C52CA2 ].

Definition IV_512 : list Z :=
  [ 0x6a09e667f3bcc908; 0xbb67ae8584caa73b; 0x3c6ef372fe94f82b;
    0xa54ff53a5f1d36f1; 0x510e527fade682d1; 0x9b05688c2b3e6c1f;
    0x1f83d9abfb41bd6b; 0x5be0cd19137e2179 ].

(** The padding of a message, clause 5.1.2: the byte 0x80, zeros up
    to 16 bytes before the end of a block, the length in bits as a
    128-bit big-endian number. *)
Definition be_bytes (n : nat) (v : Z) : list byte :=
  (λ i, byte_of_Z (Z.shiftr v (8 * Z.of_nat (n - 1 - i)))) <$> seq 0 n.

Definition pad (M : list byte) : list byte :=
  M ++ [x80]
    ++ replicate (Z.to_nat ((111 - Z.of_nat (length M)) mod 128)) x00
    ++ be_bytes 16 (8 * Z.of_nat (length M)).

Definition IV_generation : list Z :=
  compress (Z.lxor 0xa5a5a5a5a5a5a5a5 <$> IV_512)
    (pad [x53; x48; x41; x2d; x35; x31; x32; x2f; x32; x35; x36]).
End FIPS.

(** ** Where the constants come from

    FIPS PUB 180-4 clause 4.2.3 defines the 80 round constants as the
    first 64 bits of the fractional parts of the cube roots of the first
    80 primes, and clause 5.3.5 the initial hash value of SHA-512 in the
    same way from the square roots of the first 8 primes. *)

(** Primality by trial division, and the primes up to [n] in increasing
    order. *)
Definition is_prime (p : Z) : bool :=
  (1 <? p) && forallb (λ d, negb (p mod d =? 0)) (seqZ 2 (p - 2)).

Definition primes_to (n : Z) : list Z :=
  List.filter is_prime (seqZ 2 (n - 1)).

(** [x] is the first 64 bits of the fractional part of the [k]-th root
    of [p]: for the integer part [m] of the root,
    [m + x / 2^64 ≤ root < m + (x + 1) / 2^64]. *)
Definition root_fraction (k p x : Z) : Prop :=
  0 ≤ x < 2 ^ 64 ∧
  ∃ m, 0 ≤ m ∧
       (m * 2 ^ 64 + x) ^ k ≤ p * 2 ^ (64 * k) < (m * 2 ^ 64 + x + 1) ^ k.


(** ** Relating the two builds of the transform *)

(** The values of [a .. h] and [W]; the temporary is left out. *)
Definition view (s : work) : Z * Z * Z * Z * Z * Z * Z * Z * list Z :=
  (w_a s, w_b s, w_c s, w_d s, w_e s, w_f s, w_g s, w_h s, w_W s).

Definition rot1 (v : Z * Z * Z * Z * Z * Z * Z * Z * list Z) :=
  let '(a, b, c, d, e, f, g, h, W) := v in (h, a, b, c, d, e, f, g, W).

(** After [n] steps the variables of the small build are those of the
    unrolled build, renamed [n] times. *)
Definition rel (n : nat) (su ss : work) : Prop :=
  view ss = Nat.iter n rot1 (view su).

Fixpoint sim_steps (n : nat) (lu ls : list (work → work)) : Prop :=
  match lu, ls with
  | [], [] => True
  | fu :: lu, fs :: ls =>
      (∀ su ss, rel n su ss → rel (S n) (fu su) (fs ss)) ∧
      sim_steps (S n) lu ls
  | _, _ => False
  end.


Definition small_steps (data : list byte) : list (work → work) :=
  ((λ t, SHA2STEP64RV Var.a Var.b Var.c Var.d Var.e Var.f Var.g Var.h
           (K !!! Z.to_nat t) (W_from_data data t)) <$> seqZ 0 16) ++
  ((λ t, SHA2STEP64RV Var.a Var.b Var.c Var.d Var.e Var.f Var.g Var.h
           (K !!! Z.to_nat t) (W_from_Wgen t)) <$> seqZ 16 64).


(** The schedule words the code computes, in the order of the 80 steps:
    the values of the assignments [W[t] = GET_W_FROM_DATA (data, t)] and
    [W[t & 15] = Wgen (W, t)] on the 16-slot cyclic buffer. *)
Definition W_assign (data : list byte) (t : Z) : work → Z * work :=
  if t <? 16 then W_from_data data t else W_from_Wgen t.

Definition rolling_schedule (data : list byte) : list Z :=
  fst (foldl (λ acc t,
                let '(wt, s) := W_assign data t (snd acc) in
                (fst acc ++ [wt], s))
             ([], work_init []) (seqZ 0 80)).

(** Before step [t] the cyclic buffer holds the last 16 words of the
    schedule of the standard (all the words so far, when [t < 16]). *)
Definition W_inv (data : list byte) (t : nat) (W : list Z) : Prop :=
  length W = 16%nat ∧
  ∀ j, (t - 16 ≤ j < t)%nat →
       W !!! (j mod 16)%nat = FIPS.schedule data !!! j.

(** After [t] steps of the small build the working variables are those of
    [t] rounds of the standard. *)
Definition transform_inv (H : list Z) (data : list byte) (t : nat) (s : work)
  : Prop :=
  W_inv data t (w_W s) ∧
  (w_a s, w_b s, w_c s, w_d s, w_e s, w_f s, w_g s, w_h s) =
    FIPS.rounds (H !!! 0%nat, H !!! 1%nat, H !!! 2%nat, H !!! 3%nat,
                 H !!! 4%nat, H !!! 5%nat, H !!! 6%nat, H !!! 7%nat)
      (FIPS.schedule data) t.

(** The steps of the small build with [wt t] as the assignment of the
    first 16. *)
Definition small_steps_with (wt : Z → work → Z * work)
  : list (work → work) :=
  ((λ t, SHA2STEP64RV Var.a Var.b Var.c Var.d Var.e Var.f Var.g Var.h
           (K !!! Z.to_nat t) (wt t)) <$> seqZ 0 16) ++
  ((λ t, SHA2STEP64RV Var.a Var.b Var.c Var.d Var.e Var.f Var.g Var.h
           (K !!! Z.to_nat t) (W_from_Wgen t)) <$> seqZ 16 64).

(** While the first 16 steps run on a copied block, the elements of [W]
    not yet assigned still hold what the [memcpy] put there. *)
Definition W_copied (big_endian : bool) (data : list byte) (n : nat)
  (W : list Z) : Prop :=
  ∀ j, (n ≤ j < 16)%nat → W !!! j = memcpy_W big_endian data !!! j.

(** ** What a context stands for

    A message of [length M] bytes has [length M / 128] complete blocks,
    [blocks M], and a tail of fewer than 128 bytes, [rest M]. *)
Definition blocks (M : list byte) : list (list byte) :=
  (λ i, take 128 (drop (128 * i) M)) <$> seq 0 (length M / 128).

Definition rest (M : list byte) : list byte :=
  drop (128 * (length M / 128)) M.

(** SHA-512/256 of a message as the standard defines it: the padded
    message is compressed block after block from the initial hash value,
    and the digest is the first four words of the result. *)
Definition FIPS_sha512_256 (M : list byte) : list byte :=
  let final := foldl FIPS.compress FIPS.IV_512_256 (blocks (FIPS.pad M)) in
  mjoin (FIPS.be_bytes 8 <$> take 4 final).

(** The input bytes a context holds in its buffer. *)
Definition buffered (ctx : Sha512_256Ctx) : list byte :=
  take (Z.to_nat (count ctx mod 128)) (buffer ctx).

(** The total number of bytes a sequence of [update] calls supplies. *)
Definition total_length (chunks : list (list byte)) : Z :=
  foldr (λ data n, Z.of_nat (length data) + n) 0 chunks.

(** What the entry points read of a context: the hash value, the input
    bytes held in the buffer, and the two counters.  The bytes of the
    buffer behind the input bytes are left over from earlier blocks. *)
Definition state_of (ctx : Sha512_256Ctx) : list Z * list byte * Z * Z :=
  (H ctx, buffered ctx, count ctx, count_bits_hi ctx).

(** The 128-bit number in the last 16 bytes of a block. *)
Definition length_field (block : list byte) : Z :=
  FIPS.be_value (drop 112 block).

(** Modelled from the spec: the lowercase hexadecimal text in which the
    specification writes a digest; producing it is the business of the
    callers of the hash, not of [sha512_256.c]. *)
Definition hex_digit (n : Z) : ascii :=
  nth (Z.to_nat n)
    [ "0"; "1"; "2"; "3"; "4"; "5"; "6"; "7";
      "8"; "9"; "a"; "b"; "c"; "d"; "e"; "f" ]%char "0"%char.

Definition hex (bs : list byte) : string :=
  foldr (λ b s, String (hex_digit (byte_to_Z b / 16))
                  (String (hex_digit (byte_to_Z b mod 16)) s))
        EmptyString bs.

(** ** Definitions used by the proofs about the context *)

(** What every reachable context satisfies: a buffer of 128 bytes, a
    byte counter below [2^61] and an overflow counter of 64 bits. *)
Definition ctx_ok (ctx : Sha512_256Ctx) : Prop :=
  length (buffer ctx) = 128%nat ∧
  0 ≤ count ctx < 2 ^ 61 ∧
  0 ≤ count_bits_hi ctx < 2 ^ 64.


(** The counters after one [update]. *)
Definition count_after (c len : Z) : Z := (c + len) mod 2 ^ 61.
Definition count_bits_hi_after (hi c len : Z) : Z :=
  (hi + ((c + len) mod 2 ^ 64) / 2 ^ 61) mod 2 ^ 64.


(** The two halves of [MHD_SHA512_256_update]: the counters, then the
    data. *)
Definition update_counters (ctx : Sha512_256Ctx) (length_ : Z)
  : Sha512_256Ctx :=
  let ctx := set_count ctx (add64 (count ctx) length_) in
  let count_hi := shr64 (count ctx) 61 in
  if negb (0 =? count_hi) then
    let ctx :=
      set_count_bits_hi ctx (add64 (count_bits_hi ctx) count_hi) in
    set_count ctx (Z.land (count ctx) 0x1FFFFFFFFFFFFFFF)
  else ctx.

Definition update_data (small : bool) (ctx : Sha512_256Ctx)
  (bytes_have : Z) (data : list byte) : Sha512_256Ctx * list (list byte) :=
  let '(st, data, bytes_have) :=
    if negb (0 =? bytes_have) then
      let bytes_left := SHA512_256_BLOCK_SIZE - bytes_have in
      if bytes_left <=? Z.of_nat (length data) then
        let ctx :=
          set_buffer ctx
            (memcpy (buffer ctx) (Z.to_nat bytes_have) data
               (Z.to_nat bytes_left)) in
        let data := drop (Z.to_nat bytes_left) data in
        (call_transform small (ctx, []) (buffer ctx), data, 0)
      else ((ctx, []), data, bytes_have)
    else ((ctx, []), data, bytes_have) in
  let '(st, data) := update_loop small (length data) st data in
  if negb (0 =? Z.of_nat (length data)) then
    let '(ctx, tr) := st in
    (set_buffer ctx
       (memcpy (buffer ctx) (Z.to_nat bytes_have) data (length data)), tr)
  else st.


(** The last 16 bytes of the final block, then the whole final part of
    the message: what [finish] hands to the transform for a buffer that
    holds the input bytes [p]. *)
Definition length_bytes (hi cnt : Z) : list byte :=
  _MHD_PUT_64BIT_BE hi ++ _MHD_PUT_64BIT_BE (shl64 cnt 3).

Definition final_blocks (p : list byte) (hi cnt : Z) : list (list byte) :=
  if decide (112 ≤ length p)%nat then
    [ p ++ [x80] ++ replicate (127 - length p) x00;
      replicate 112 x00 ++ length_bytes hi cnt ]
  else
    [ p ++ [x80] ++ replicate (111 - length p) x00 ++ length_bytes hi cnt ].


(** The two halves of [finish_pad]: the byte 0x80 with the extra block it
    may need, then the zeros, the length and the last block. *)
Definition finish_mark (small : bool) (ctx : Sha512_256Ctx)
  : Sha512_256Ctx * list (list byte) * Z :=
  let bytes_have := Z.land (count ctx) (SHA512_256_BLOCK_SIZE - 1) in
  let ctx :=
    set_buffer ctx (<[Z.to_nat bytes_have := x80]> (buffer ctx)) in
  let bytes_have := bytes_have + 1 in
  if SHA512_256_BLOCK_SIZE - bytes_have <? SHA512_256_SIZE_OF_LEN_ADD
  then
    let ctx :=
      if bytes_have <? SHA512_256_BLOCK_SIZE then
        set_buffer ctx
          (memset (buffer ctx) (Z.to_nat bytes_have) x00
             (Z.to_nat (SHA512_256_BLOCK_SIZE - bytes_have)))
      else ctx in
    (call_transform small (ctx, []) (buffer ctx), 0)
  else ((ctx, []), bytes_have).

Definition finish_length (small : bool) (st : Sha512_256Ctx * list (list byte))
  (bytes_have num_bits : Z) : Sha512_256Ctx * list (list byte) :=
  let '(ctx, tr) := st in
  let ctx :=
    set_buffer ctx
      (memset (buffer ctx) (Z.to_nat bytes_have) x00
         (Z.to_nat (SHA512_256_BLOCK_SIZE - SHA512_256_SIZE_OF_LEN_ADD
                    - bytes_have))) in
  let ctx :=
    set_buffer ctx
      (memcpy (buffer ctx)
         (Z.to_nat ((SHA512_256_BLOCK_SIZE_WORDS - 2)
                    * SHA512_256_BYTES_IN_WORD))
         (_MHD_PUT_64BIT_BE (count_bits_hi ctx)) 8) in
  let ctx :=
    set_buffer ctx
      (memcpy (buffer ctx)
         (Z.to_nat ((SHA512_256_BLOCK_SIZE_WORDS - 1)
                    * SHA512_256_BYTES_IN_WORD))
         (_MHD_PUT_64BIT_BE num_bits) 8) in
  call_transform small (ctx, tr) (buffer ctx).


(** A context that has absorbed the message [M], with the trace of the
    calls that led to it. *)
Definition absorbed (small : bool) (M : list byte)
  (st : Sha512_256Ctx * list (list byte)) : Prop :=
  ctx_ok (fst st) ∧
  snd st = blocks M ∧
  buffered (fst st) = rest M ∧
  H (fst st) = foldl (sha512_256_transform small) FIPS.IV_512_256 (blocks M) ∧
  count (fst st) = Z.of_nat (length M) mod 2 ^ 61.

(** No call makes the 64-bit addition [ctx->count += length] wrap: [n]
    bytes were absorbed before the calls with [chunks]. *)
Fixpoint no_wrap (n : Z) (chunks : list (list byte)) : Prop :=
  match chunks with
  | [] => True
  | data :: chunks =>
      n mod 2 ^ 61 + Z.of_nat (length data) < 2 ^ 64 ∧
      no_wrap (n + Z.of_nat (length data)) chunks
  end.

(** ** The test of a broken [Content-Length],
       [src/testcurl/test_put_broken_len.c]

    What [performTest] does before its first request: it chooses the
    port, starts the daemon and, for port 0, asks the daemon for the
    port it is bound to.  The calls into libmicrohttpd are outside the
    sources; their answers are arguments of the model. *)

(** A function that may end the process returns [Exit code]. *)
Inductive outcome (A : Type) : Type :=
| Exit (code : Z)
| Return (a : A).
Arguments Exit {A} code.
Arguments Return {A} a.

(** [oneone = ! has_in_name (argv[0], "10")] of [main]. *)
Definition main_oneone (has_10_in_name : bool) : Z :=
  if has_10_in_name then 0 else 1.

(** The port given to [MHD_start_daemon]; [autodetect] is whether
    [MHD_is_feature_supported (MHD_FEATURE_AUTODETECT_BIND_PORT)] is not
    [MHD_NO].  In [port = 4220 + oneone ? 0 : 1] the condition of [?:] is
    the sum [4220 + oneone]. *)
Definition performTest_port (autodetect : bool) (oneone : Z) : Z :=
  if autodetect then 0
  else if negb (4220 + oneone =? 0) then 0 else 1.

(** The port the requests are sent to, once the daemon has started:
    [dinfo] is the answer of
    [MHD_get_daemon_info (d, MHD_DAEMON_INFO_BIND_PORT)], [None] for
    [NULL]; [mhdErrorExitDesc] ends the process with code 8. *)
Definition performTest_request_port (autodetect : bool) (oneone : Z)
  (dinfo : option Z) : outcome Z :=
  let port := performTest_port autodetect oneone in
  if 0 =? port then
    match dinfo with
    | None => Exit 8
    | Some dinfo_port => if 0 =? dinfo_port then Exit 8 else Return dinfo_port
    end
  else Return port.

(** ** Tactics *)

(** One step of the unrolled build against one step of the small build,
    both on explicit states. *)
Ltac sim_one :=
  let su := fresh "su" in
  let ss := fresh "ss" in
  let E := fresh "E" in
  intros su ss E; destruct su, ss;
  unfold rel, view in *;
  cbv [Nat.iter nat_rect rot1 w_a w_b w_c w_d w_e w_f w_g w_h w_W w_tmp_h_]
    in E;
  injection E as -> -> -> -> -> -> -> -> ->;
  reflexivity.

(** Equations between sums modulo [2^64]. *)
Ltac push_mod64 := unfold add64; Z.div_mod_to_equations; lia.

(** * Proofs *)

(** ** The two builds of the transform agree *)

Lemma sim_steps_run lu : ∀ ls n su ss,
  sim_steps n lu ls → rel n su ss →
  rel (n + length lu) (run lu su) (run ls ss).
Proof.
  induction lu as [|fu lu IH]; intros [|fs ls] n su ss Hs Hr; try done.
  - by rewrite Nat.add_0_r.
  - destruct Hs as [Hstep Hs]. cbn [length].
    replace (n + S (length lu))%nat with (S n + length lu)%nat by lia.
    apply (IH ls (S n) (fu su) (fs ss) Hs). by apply Hstep.
Qed.

Lemma foldl_run {A} (F : A → work → work) (l : list A) (s : work) :
  foldl (λ s t, F t s) s l = run (F <$> l) s.
Proof.
  revert s. induction l as [|x l IH]; intros s; [done|]. cbn. apply IH.
Qed.

Lemma run_app l1 l2 s : run (l1 ++ l2) s = run l2 (run l1 s).
Proof. unfold run. apply foldl_app. Qed.

Lemma transform_small_run H data :
  sha512_256_transform_small H data =
  work_add H (run (small_steps data) (work_init H)).
Proof.
  unfold sha512_256_transform_small, small_steps.
  cbv zeta. rewrite run_app, <- !foldl_run. reflexivity.
Qed.

Lemma sim_unrolled_small data :
  sim_steps 0 (unrolled_steps data) (small_steps data).
Proof.
  repeat (split; [ sim_one | ]). exact I.
Qed.

Lemma rel_80_view su ss : rel 80 su ss → view ss = view su.
Proof.
  unfold rel. destruct (view su) as [[[[[[[[a b] c] d] e] f] g] h] W].
  intros ->. reflexivity.
Qed.

Lemma work_add_view H s1 s2 :
  view s1 = view s2 → work_add H s1 = work_add H s2.
Proof.
  destruct s1, s2. unfold view. cbn. intros [= -> -> -> -> -> -> -> -> ->].
  reflexivity.
Qed.

Lemma transform_unrolled_small (H : list Z) (data : list byte) :
  sha512_256_transform_unrolled H data = sha512_256_transform_small H data.
Proof.
  eapply eq_trans; [|symmetry; apply transform_small_run].
  unfold sha512_256_transform_unrolled.
  symmetry. apply work_add_view, rel_80_view.
  apply (sim_steps_run (unrolled_steps data) (small_steps data) 0).
  - apply sim_unrolled_small.
  - reflexivity.
Qed.


(** ** The transform is the compression function of the standard *)

Lemma Ch_FIPS x y z : Ch x y z = FIPS.Ch x y z.
Proof.
  unfold Ch, FIPS.Ch. apply Z.bits_inj'. intros n Hn.
  rewrite !Z.lxor_spec, !Z.land_spec, Z.lxor_spec, Z.lnot_spec by done.
  by destruct (Z.testbit x n), (Z.testbit y n), (Z.testbit z n).
Qed.

Lemma Maj_FIPS x y z : Maj x y z = FIPS.Maj x y z.
Proof.
  unfold Maj, FIPS.Maj. apply Z.bits_inj'. intros n Hn.
  rewrite !Z.lxor_spec, !Z.land_spec, Z.lxor_spec.
  by destruct (Z.testbit x n), (Z.testbit y n), (Z.testbit z n).
Qed.

Lemma SIG0_FIPS x : SIG0 x = FIPS.Sigma0 x.
Proof. reflexivity. Qed.
Lemma SIG1_FIPS x : SIG1 x = FIPS.Sigma1 x.
Proof. reflexivity. Qed.
Lemma sig0_FIPS x : sig0 x = FIPS.sigma0 x.
Proof. reflexivity. Qed.
Lemma sig1_FIPS x : sig1 x = FIPS.sigma1 x.
Proof. reflexivity. Qed.

Lemma add64_assoc4 x1 x2 x3 x4 x5 :
  add64 x1 (add64 (add64 (add64 x2 x3) x4) x5) =
  (x1 + x2 + x3 + x4 + x5) mod 2 ^ 64.
Proof. push_mod64. Qed.

Lemma add64_assoc3 x1 x2 x3 x4 :
  add64 (add64 (add64 x1 x2) x3) x4 = (x1 + x2 + x3 + x4) mod 2 ^ 64.
Proof. push_mod64. Qed.

(** One step of the small build is one round of the standard, for an
    assignment [wt] that reads and changes [W] only. *)
Lemma view_SHA2STEP64RV kt wt (fv : list Z → Z) (fW : list Z → list Z) s :
  (∀ s, wt s = (fv (w_W s), set_W s (fW (w_W s)))) →
  view (SHA2STEP64RV Var.a Var.b Var.c Var.d Var.e Var.f Var.g Var.h kt wt s)
  = (let '(a, b, c, d, e, f, g, h) :=
       FIPS.round (w_a s, w_b s, w_c s, w_d s, w_e s, w_f s, w_g s, w_h s)
         kt (fv (w_W s))
     in (a, b, c, d, e, f, g, h, fW (w_W s))).
Proof.
  intros Hwt. unfold SHA2STEP64RV, SHA2STEP64.
  destruct s as [a b c d e f g h t W]. cbn [wr rd w_h].
  rewrite Hwt.
  cbn [set_W wr rd view w_a w_b w_c w_d w_e w_f w_g w_h w_W w_tmp_h_
       FIPS.round].
  rewrite add64_assoc4, Ch_FIPS, Maj_FIPS, SIG0_FIPS, SIG1_FIPS.
  reflexivity.
Qed.

(** *** Big-endian loads *)

Lemma byte_to_Z_range b : 0 ≤ byte_to_Z b < 256.
Proof.
  unfold byte_to_Z. pose proof (Byte.to_N_bounded b). lia.
Qed.

Lemma lor_shiftl_add x s y :
  0 ≤ s → 0 ≤ y < 2 ^ s → Z.lor (Z.shiftl x s) y = x * 2 ^ s + y.
Proof.
  intros Hs Hy. rewrite <- Z.shiftl_mul_pow2 by done.
  rewrite <- Z.add_lor_land.
  replace (Z.land (Z.shiftl x s) y) with 0; [lia|].
  symmetry. apply Z.bits_inj'. intros n Hn.
  rewrite Z.land_spec, Z.bits_0.
  destruct (Z.lt_ge_cases n s) as [Hlt|Hge].
  - by rewrite Z.shiftl_spec_low.
  - rewrite <- (Z.mod_small y (2 ^ s)) by done.
    rewrite Z.mod_pow2_bits_high by lia. apply andb_false_r.
Qed.

Lemma GET_64BIT_BE_value (l : list byte) :
  (8 ≤ length l)%nat → _MHD_GET_64BIT_BE l = FIPS.be_value (take 8 l).
Proof.
  intros Hl.
  do 8 (destruct l as [|? l]; [cbn in Hl; lia|]).
  unfold _MHD_GET_64BIT_BE, FIPS.be_value. cbn [nth take firstn foldl].
  repeat match goal with
         | |- context [byte_to_Z ?b] =>
             let x := fresh "x" in
             pose proof (byte_to_Z_range b);
             generalize dependent (byte_to_Z b); intros x ?
         end.
  rewrite (lor_shiftl_add _ 8) by lia.
  rewrite (lor_shiftl_add _ 16) by lia.
  rewrite (lor_shiftl_add _ 24) by lia.
  rewrite (lor_shiftl_add _ 32) by lia.
  rewrite (lor_shiftl_add _ 40) by lia.
  rewrite (lor_shiftl_add _ 48) by lia.
  rewrite (lor_shiftl_add _ 56) by lia.
  rewrite take_0. cbn [foldl]. lia.
Qed.

Lemma words_lookup block t :
  (t < 16)%nat →
  FIPS.words block !!! t = FIPS.be_value (take 8 (drop (8 * t) block)).
Proof.
  intros Ht. unfold FIPS.words.
  rewrite list_lookup_total_alt, list_lookup_fmap, lookup_seq_lt by lia.
  reflexivity.
Qed.

Lemma length_words block : length (FIPS.words block) = 16%nat.
Proof. reflexivity. Qed.

Lemma GET_W_FROM_DATA_words data t :
  length data = 128%nat → (t < 16)%nat →
  GET_W_FROM_DATA data (Z.of_nat t) = FIPS.words data !!! t.
Proof.
  intros Hl Ht. unfold GET_W_FROM_DATA.
  replace (Z.to_nat (8 * Z.of_nat t)) with (8 * t)%nat by lia.
  rewrite GET_64BIT_BE_value by (rewrite length_drop; lia).
  by rewrite words_lookup.
Qed.

(** *** The schedule *)

Lemma length_extend n : ∀ W, length (FIPS.extend n W) = (length W + n)%nat.
Proof.
  induction n as [|n IH]; intros W; cbn [FIPS.extend]; [lia|].
  rewrite IH, length_app. cbn. lia.
Qed.

Lemma extend_lookup_lt n : ∀ W j,
  (j < length W)%nat → FIPS.extend n W !!! j = W !!! j.
Proof.
  induction n as [|n IH]; intros W j Hj; cbn [FIPS.extend]; [done|].
  rewrite IH by (rewrite length_app; lia).
  by rewrite lookup_total_app_l.
Qed.

Lemma extend_lookup_ge n : ∀ W t,
  (16 ≤ length W)%nat → (length W ≤ t < length W + n)%nat →
  let E := FIPS.extend n W in
  E !!! t =
  (E !!! (t - 16)%nat + FIPS.sigma1 (E !!! (t - 2)%nat)
   + E !!! (t - 7)%nat + FIPS.sigma0 (E !!! (t - 15)%nat)) mod 2 ^ 64.
Proof.
  induction n as [|n IH]; intros W t HW Ht; [lia|].
  cbn [FIPS.extend]. cbv zeta.
  set (x := (_ mod _)) at 1.
  destruct (decide (t = length W)) as [->|Hne].
  - rewrite !(extend_lookup_lt n (W ++ [x])) by (rewrite length_app; cbn; lia).
    rewrite lookup_total_app_r by lia. rewrite Nat.sub_diag. cbn.
    rewrite !lookup_total_app_l by lia. reflexivity.
  - apply (IH (W ++ [x]) t); rewrite length_app; cbn; lia.
Qed.

Lemma schedule_lookup_lt block t :
  (t < 16)%nat → FIPS.schedule block !!! t = FIPS.words block !!! t.
Proof.
  intros Ht. unfold FIPS.schedule.
  apply (extend_lookup_lt 64 (FIPS.words block) t).
  rewrite length_words. lia.
Qed.

Lemma schedule_lookup_ge block t :
  (16 ≤ t < 80)%nat →
  let E := FIPS.schedule block in
  E !!! t =
  (E !!! (t - 16)%nat + FIPS.sigma1 (E !!! (t - 2)%nat)
   + E !!! (t - 7)%nat + FIPS.sigma0 (E !!! (t - 15)%nat)) mod 2 ^ 64.
Proof.
  intros Ht. unfold FIPS.schedule.
  apply (extend_lookup_ge 64 (FIPS.words block) t); rewrite length_words; lia.
Qed.

(** *** The rolling buffer and the rounds *)

Lemma Wat_nat W (i : nat) : Wat W (Z.of_nat i) = W !!! (i mod 16)%nat.
Proof.
  unfold Wat. change 15 with (Z.ones 4). rewrite Z.land_ones by done.
  f_equal. change (2 ^ 4) with (Z.of_nat 16).
  rewrite <- Nat2Z.inj_mod. apply Nat2Z.id.
Qed.

Lemma Wset_nat W (i : nat) v :
  Wset W (Z.of_nat i) v = <[(i mod 16)%nat := v]> W.
Proof.
  unfold Wset. change 15 with (Z.ones 4). rewrite Z.land_ones by done.
  f_equal. change (2 ^ 4) with (Z.of_nat 16).
  rewrite <- Nat2Z.inj_mod. apply Nat2Z.id.
Qed.

Lemma rounds_S v W n :
  FIPS.rounds v W (S n) = FIPS.round (FIPS.rounds v W n) (K !!! n) (W !!! n).
Proof. unfold FIPS.rounds. by rewrite seq_S, foldl_app. Qed.

Lemma W_inv_store data t W :
  W_inv data t W →
  W_inv data (S t) (<[(t mod 16)%nat := FIPS.schedule data !!! t]> W).
Proof.
  intros [Hlen HW]. split; [by rewrite length_insert|].
  intros j Hj.
  assert (t mod 16 < 16)%nat by (apply Nat.mod_upper_bound; lia).
  destruct (decide (j = t)) as [->|Hne].
  - apply list_lookup_total_insert_eq. lia.
  - rewrite list_lookup_total_insert_ne; [apply HW; lia|].
    intros Heq.
    pose proof (Nat.div_mod_eq j 16). pose proof (Nat.div_mod_eq t 16).
    lia.
Qed.

Lemma W_inv_0 data : W_inv data 0 (replicate 16 0).
Proof. split; [done|]. intros j Hj. lia. Qed.

(** The word stored by the first 16 steps. *)
Lemma W_data_value data (t : nat) :
  length data = 128%nat → (t < 16)%nat →
  GET_W_FROM_DATA data (Z.of_nat t) = FIPS.schedule data !!! t.
Proof.
  intros Hd Ht. rewrite GET_W_FROM_DATA_words by done.
  symmetry. by apply schedule_lookup_lt.
Qed.

(** The word generated from the cyclic buffer by the last 64 steps. *)
Lemma W_gen_value data (t : nat) W :
  (16 ≤ t < 80)%nat → W_inv data t W →
  Wgen W (Z.of_nat t) = FIPS.schedule data !!! t.
Proof.
  intros Ht [Hlen HW]. unfold Wgen. rewrite add64_assoc3.
  replace (Z.of_nat t - 16) with (Z.of_nat (t - 16)) by lia.
  replace (Z.of_nat t - 2) with (Z.of_nat (t - 2)) by lia.
  replace (Z.of_nat t - 7) with (Z.of_nat (t - 7)) by lia.
  replace (Z.of_nat t - 15) with (Z.of_nat (t - 15)) by lia.
  rewrite !Wat_nat, !HW by lia.
  rewrite sig0_FIPS, sig1_FIPS.
  symmetry. by apply schedule_lookup_ge.
Qed.

(** What an assignment of a step does to a state. *)
Lemma W_assign_value data (t : nat) s :
  length data = 128%nat → (t < 80)%nat → W_inv data t (w_W s) →
  W_assign data (Z.of_nat t) s =
  (FIPS.schedule data !!! t,
   set_W s (<[(t mod 16)%nat := FIPS.schedule data !!! t]> (w_W s))).
Proof.
  intros Hd Ht HW. unfold W_assign.
  destruct (Z.ltb_spec (Z.of_nat t) 16) as [Hlt|Hge].
  - unfold W_from_data. cbv zeta.
    rewrite W_data_value by (done || lia).
    by rewrite Nat2Z.id, Nat.mod_small by lia.
  - unfold W_from_Wgen. cbv zeta.
    rewrite (W_gen_value data t) by (done || lia).
    by rewrite Wset_nat.
Qed.

Lemma w_W_set_W s W : w_W (set_W s W) = W.
Proof. by destruct s. Qed.

Lemma transform_inv_step H data t s kt wt fv fW :
  (∀ s, wt s = (fv (w_W s), set_W s (fW (w_W s)))) →
  kt = K !!! t →
  transform_inv H data t s →
  fv (w_W s) = FIPS.schedule data !!! t →
  fW (w_W s) = <[(t mod 16)%nat := fv (w_W s)]> (w_W s) →
  transform_inv H data (S t)
    (SHA2STEP64RV Var.a Var.b Var.c Var.d Var.e Var.f Var.g Var.h kt wt s).
Proof.
  unfold transform_inv. intros Hwt -> (HW & Hv) Hfv HfW.
  pose proof (view_SHA2STEP64RV (K !!! t) wt fv fW s Hwt) as Hview.
  rewrite Hv, Hfv, <- rounds_S in Hview.
  destruct (FIPS.rounds _ _ (S t)) as [[[[[[[a b] c] d] e] f] g] h].
  unfold view in Hview. injection Hview as -> -> -> -> -> -> -> -> HW'.
  rewrite HW', HfW, Hfv. split; [by apply W_inv_store|done].
Qed.

Lemma transform_inv_data H data (n : nat) :
  length data = 128%nat → (n ≤ 16)%nat →
  transform_inv H data n
    (foldl (λ s t, SHA2STEP64RV Var.a Var.b Var.c Var.d Var.e Var.f Var.g
                     Var.h (K !!! Z.to_nat t) (W_from_data data t) s)
       (work_init H) (seqZ 0 (Z.of_nat n))).
Proof.
  intros Hd. induction n as [|n IH]; intros Hn.
  - split; [apply W_inv_0|reflexivity].
  - rewrite seqZ_S, foldl_app. cbn [foldl]. rewrite Z.add_0_l.
    eapply (transform_inv_step H data n _ _ _
              (λ _, GET_W_FROM_DATA data (Z.of_nat n))
              (λ W, <[Z.to_nat (Z.of_nat n) :=
                        GET_W_FROM_DATA data (Z.of_nat n)]> W)).
    + intros s. reflexivity.
    + by rewrite Nat2Z.id.
    + apply IH. lia.
    + cbv beta. apply W_data_value; (done || lia).
    + cbv beta. rewrite Nat2Z.id, Nat.mod_small by lia. reflexivity.
Qed.

Lemma transform_inv_gen H data s16 (n : nat) :
  transform_inv H data 16 s16 → (n ≤ 64)%nat →
  transform_inv H data (16 + n)
    (foldl (λ s t, SHA2STEP64RV Var.a Var.b Var.c Var.d Var.e Var.f Var.g
                     Var.h (K !!! Z.to_nat t) (W_from_Wgen t) s)
       s16 (seqZ 16 (Z.of_nat n))).
Proof.
  intros H16. induction n as [|n IH]; intros Hn.
  - cbn [seqZ]. by rewrite Nat.add_0_r.
  - rewrite seqZ_S, foldl_app. cbn [foldl].
    replace (16 + Z.of_nat n) with (Z.of_nat (16 + n)) by lia.
    replace (16 + S n)%nat with (S (16 + n)) by lia.
    specialize (IH ltac:(lia)). set (s := foldl _ _ _) in *.
    pose proof IH as (HW & Hv).
    eapply (transform_inv_step H data (16 + n) _ _ _
              (λ W, Wgen W (Z.of_nat (16 + n)))
              (λ W, Wset W (Z.of_nat (16 + n)) (Wgen W (Z.of_nat (16 + n))))).
    + intros s'. reflexivity.
    + by rewrite Nat2Z.id.
    + done.
    + cbv beta. apply W_gen_value; (done || lia).
    + cbv beta. apply Wset_nat.
Qed.

Lemma transform_small_FIPS (H : list Z) (data : list byte) :
  length data = 128%nat →
  sha512_256_transform_small H data = FIPS.compress H data.
Proof.
  intros Hd.
  pose proof (transform_inv_data H data 16 Hd ltac:(lia)) as H16.
  pose proof (transform_inv_gen H data _ 64 H16 ltac:(lia)) as H80.
  unfold sha512_256_transform_small, FIPS.compress. cbv zeta.
  change (Z.of_nat 16) with 16 in H80. change (Z.of_nat 64) with 64 in H80.
  change (16 + 64)%nat with 80%nat in H80.
  destruct H80 as (_ & Hv). rewrite <- Hv. reflexivity.
Qed.

(** The cyclic buffer yields the schedule of the standard, word for
    word. *)
Lemma rolling_schedule_prefix data (n : nat) :
  length data = 128%nat → (n ≤ 80)%nat →
  let acc := foldl (λ acc t,
                      let '(wt, s) := W_assign data t (snd acc) in
                      (fst acc ++ [wt], s))
                   ([], work_init []) (seqZ 0 (Z.of_nat n)) in
  fst acc = take n (FIPS.schedule data) ∧ W_inv data n (w_W (snd acc)).
Proof.
  intros Hd. induction n as [|n IH]; intros Hn; cbv zeta.
  - split; [done|apply W_inv_0].
  - rewrite seqZ_S, foldl_app. cbn [foldl]. rewrite Z.add_0_l.
    destruct (IH ltac:(lia)) as [Hws HW]. cbv zeta in *.
    set (acc := foldl _ _ _) in *.
    rewrite W_assign_value by (done || lia). cbn [fst snd].
    rewrite Hws, w_W_set_W. split; [|by apply W_inv_store].
    assert (length (FIPS.schedule data) = 80%nat) as Hl.
    { unfold FIPS.schedule. by rewrite length_extend, length_words. }
    rewrite (take_S_r _ _ (FIPS.schedule data !!! n)); [done|].
    apply list_lookup_lookup_total_lt. lia.
Qed.

Lemma rolling_schedule_FIPS data :
  length data = 128%nat → rolling_schedule data = FIPS.schedule data.
Proof.
  intros Hd. unfold rolling_schedule.
  pose proof (rolling_schedule_prefix data 80 Hd ltac:(lia)) as [Hw _].
  cbv zeta in Hw. change (Z.of_nat 80) with 80 in Hw. rewrite Hw.
  apply take_ge. unfold FIPS.schedule.
  by rewrite length_extend, length_words.
Qed.

(** Both builds are the compression function of the standard. *)
Lemma transform_FIPS small h block :
  length block = 128%nat →
  sha512_256_transform small h block = FIPS.compress h block.
Proof.
  intros Hb. unfold sha512_256_transform. destruct small.
  - by apply transform_small_FIPS.
  - eapply eq_trans; [apply transform_unrolled_small|].
    by apply transform_small_FIPS.
Qed.

Lemma foldl_transform_FIPS small tr : ∀ h,
  Forall (λ block, length block = 128%nat) tr →
  foldl (sha512_256_transform small) h tr = foldl FIPS.compress h tr.
Proof.
  induction tr as [|b tr IH]; intros h Hf; [done|].
  apply Forall_cons in Hf as [Hb Hf]. cbn [foldl].
  rewrite transform_FIPS by done. by apply IH.
Qed.

(** ** Byte arrays *)

Lemma memcpy_app (pre suf src : list byte) (off k : nat) :
  length pre = off →
  memcpy (pre ++ suf) off src k = pre ++ take k src ++ drop k suf.
Proof.
  intros Hoff. unfold memcpy.
  by rewrite take_app_length', drop_app_add'.
Qed.

Lemma memset_app (pre suf : list byte) (off k : nat) v :
  length pre = off →
  memset (pre ++ suf) off v k = pre ++ replicate k v ++ drop k suf.
Proof.
  intros Hoff. unfold memset.
  by rewrite take_app_length', drop_app_add'.
Qed.

(** ** Blocks and tail of a message *)

Lemma blocks_short M : (length M < 128)%nat → blocks M = [].
Proof. intros HM. unfold blocks. by rewrite Nat.div_small. Qed.

Lemma rest_short M : (length M < 128)%nat → rest M = M.
Proof. intros HM. unfold rest. by rewrite Nat.div_small. Qed.

Lemma div128_drop (M : list byte) :
  (128 ≤ length M)%nat →
  (length M / 128 = S (length (drop 128 M) / 128))%nat.
Proof.
  intros HM. rewrite length_drop.
  replace (length M) with ((length M - 128) + 1 * 128)%nat at 1 by lia.
  rewrite Nat.div_add by lia. lia.
Qed.

Lemma blocks_cons M :
  (128 ≤ length M)%nat → blocks M = take 128 M :: blocks (drop 128 M).
Proof.
  intros HM. unfold blocks. rewrite (div128_drop M HM).
  cbn [seq fmap list_fmap]. rewrite Nat.mul_0_r, drop_0. f_equal.
  rewrite <- fmap_S_seq, <- list_fmap_compose.
  apply list_fmap_ext. intros _ i _. cbn.
  rewrite drop_drop. do 2 f_equal. lia.
Qed.

Lemma rest_cons M : (128 ≤ length M)%nat → rest M = rest (drop 128 M).
Proof.
  intros HM. unfold rest. rewrite (div128_drop M HM), drop_drop.
  f_equal. lia.
Qed.

Lemma length_rest M : length (rest M) = (length M mod 128)%nat.
Proof.
  unfold rest. rewrite length_drop.
  pose proof (Nat.div_mod_eq (length M) 128). lia.
Qed.

Lemma rest_lt M : (length (rest M) < 128)%nat.
Proof. rewrite length_rest. apply Nat.mod_upper_bound. lia. Qed.

Lemma blocks_rest_app_aux (n : nat) : ∀ M D,
  (length M < n)%nat →
  blocks (M ++ D) = blocks M ++ blocks (rest M ++ D) ∧
  rest (M ++ D) = rest (rest M ++ D).
Proof.
  induction n as [|n IH]; intros M D Hn; [lia|].
  destruct (decide (length M < 128)%nat) as [Hs|Hl].
  - by rewrite (blocks_short M), (rest_short M).
  - assert (128 ≤ length M)%nat as HM by lia.
    assert (128 ≤ length (M ++ D))%nat as HMD
      by (rewrite length_app; lia).
    rewrite (blocks_cons (M ++ D)), (rest_cons (M ++ D)) by done.
    rewrite (blocks_cons M), (rest_cons M) by done.
    rewrite take_app_le, drop_app_le by lia.
    destruct (IH (drop 128 M) D) as [-> ->]; [rewrite length_drop; lia|].
    done.
Qed.

Lemma blocks_app M D : blocks (M ++ D) = blocks M ++ blocks (rest M ++ D).
Proof. apply (blocks_rest_app_aux (S (length M))). lia. Qed.

Lemma rest_app M D : rest (M ++ D) = rest (rest M ++ D).
Proof. apply (blocks_rest_app_aux (S (length M))). lia. Qed.

Lemma blocks_concat_rest_aux (n : nat) : ∀ M,
  (length M < n)%nat → concat (blocks M) ++ rest M = M.
Proof.
  induction n as [|n IH]; intros M Hn; [lia|].
  destruct (decide (length M < 128)%nat) as [Hs|Hl].
  - by rewrite blocks_short, rest_short.
  - rewrite blocks_cons, rest_cons by lia. cbn [concat].
    rewrite <- app_assoc, IH by (rewrite length_drop; lia).
    apply take_drop.
Qed.

Lemma blocks_concat_rest M : concat (blocks M) ++ rest M = M.
Proof. apply (blocks_concat_rest_aux (S (length M))). lia. Qed.

Lemma blocks_length M : Forall (λ b, length b = 128%nat) (blocks M).
Proof.
  unfold blocks. apply Forall_fmap, Forall_forall. intros i Hi. cbn.
  apply elem_of_seq in Hi. rewrite length_take, length_drop.
  pose proof (Nat.div_mod_eq (length M) 128).
  assert (128 * S i ≤ 128 * (length M / 128))%nat
    by (apply Nat.mul_le_mono_l; lia).
  lia.
Qed.

Lemma length_blocks M : length (blocks M) = (length M / 128)%nat.
Proof. unfold blocks. by rewrite length_fmap, length_seq. Qed.

(** ** [MHD_SHA512_256_update] *)

Lemma set_H_id ctx : set_H ctx (H ctx) = ctx.
Proof. by destruct ctx. Qed.

Lemma set_H_set_H ctx h1 h2 : set_H (set_H ctx h1) h2 = set_H ctx h2.
Proof. reflexivity. Qed.

(** The loop runs once per complete block of [data], whatever fuel at least
    that large it is given. *)
Lemma update_loop_fuel small (fuel : nat) : ∀ ctx tr data,
  (length data / 128 ≤ fuel)%nat →
  update_loop small fuel (ctx, tr) data =
  (set_H ctx (foldl (sha512_256_transform small) (H ctx) (blocks data)),
   tr ++ blocks data, rest data).
Proof.
  induction fuel as [|fuel IH]; intros ctx tr data Hf.
  - assert (length data < 128)%nat as Hs.
    { apply Nat.div_small_iff; lia. }
    cbn [update_loop]. rewrite blocks_short, rest_short by done.
    cbn [foldl]. by rewrite set_H_id, app_nil_r.
  - cbn [update_loop]. unfold SHA512_256_BLOCK_SIZE.
    change (Z.to_nat 128) with 128%nat.
    destruct (Z.leb_spec 128 (Z.of_nat (length data))) as [Hl|Hs].
    + unfold call_transform. unfold SHA512_256_BLOCK_SIZE.
      change (Z.to_nat 128) with 128%nat.
      rewrite IH.
      * rewrite (blocks_cons data), (rest_cons data) by lia.
        cbn [foldl H set_H]. rewrite set_H_set_H.
        by rewrite <- app_assoc.
      * pose proof (div128_drop data ltac:(lia)). lia.
    + rewrite blocks_short, rest_short by lia.
      cbn [foldl]. by rewrite set_H_id, app_nil_r.
Qed.

Lemma land127 x : Z.land x (SHA512_256_BLOCK_SIZE - 1) = x mod 128.
Proof.
  change (SHA512_256_BLOCK_SIZE - 1) with (Z.ones 7).
  by rewrite Z.land_ones.
Qed.

Lemma land_mask61 x : Z.land x 0x1FFFFFFFFFFFFFFF = x mod 2 ^ 61.
Proof.
  change 0x1FFFFFFFFFFFFFFF with (Z.ones 61). by rewrite Z.land_ones.
Qed.

Lemma shr64_61 x : shr64 x 61 = x / 2 ^ 61.
Proof. unfold shr64. by rewrite Z.shiftr_div_pow2. Qed.

Lemma mod61_mod128 x : (x mod 2 ^ 61) mod 128 = x mod 128.
Proof.
  change (2 ^ 61) with (128 * 2 ^ 54).
  rewrite Z.rem_mul_r by lia.
  rewrite Z.mul_comm, Z.mod_add by lia. by rewrite Z.mod_mod.
Qed.

Lemma mod64_mod61 x : (x mod 2 ^ 64) mod 2 ^ 61 = x mod 2 ^ 61.
Proof.
  change (2 ^ 64) with (2 ^ 61 * 8).
  rewrite Z.rem_mul_r by lia.
  rewrite Z.mul_comm, Z.mod_add by lia. by rewrite Z.mod_mod.
Qed.

Lemma buffered_length ctx :
  length (buffer ctx) = 128%nat →
  length (buffered ctx) = Z.to_nat (count ctx mod 128).
Proof.
  intros Hb. unfold buffered. rewrite length_take.
  pose proof (Z.mod_pos_bound (count ctx) 128). lia.
Qed.

Lemma update_halves small ctx data :
  MHD_SHA512_256_update small ctx data =
  if negb small && (0 =? Z.of_nat (length data)) then (ctx, [])
  else update_data small (update_counters ctx (Z.of_nat (length data)))
         (Z.land (count ctx) (SHA512_256_BLOCK_SIZE - 1)) data.
Proof. reflexivity. Qed.

Lemma update_counters_spec ctx len :
  0 ≤ count ctx < 2 ^ 61 → 0 ≤ count_bits_hi ctx < 2 ^ 64 → 0 ≤ len →
  update_counters ctx len =
  mkCtx (H ctx) (buffer ctx) (count_after (count ctx) len)
    (count_bits_hi_after (count_bits_hi ctx) (count ctx) len).
Proof.
  intros Hc Hhi Hlen. unfold update_counters. cbv zeta.
  destruct ctx as [h buf c hi].
  cbn [set_count set_count_bits_hi H buffer count count_bits_hi] in *.
  rewrite shr64_61, land_mask61.
  unfold count_after, count_bits_hi_after, add64.
  pose proof (Z.mod_pos_bound (c + len) (2 ^ 64) ltac:(lia)) as Hm.
  destruct (Z.eqb_spec 0 ((c + len) mod 2 ^ 64 / 2 ^ 61)) as [E|E];
    cbn [negb]; unfold set_count, set_count_bits_hi;
    cbn [H buffer count count_bits_hi]; f_equal.
  - rewrite <- (mod64_mod61 (c + len)).
    symmetry. apply Z.mod_small. split; [lia|].
    symmetry in E. apply Z.div_small_iff in E; lia.
  - rewrite <- E, Z.add_0_r. symmetry. apply Z.mod_small. lia.
  - by rewrite mod64_mod61.
Qed.

Lemma store_tail (buf r : list byte) :
  length buf = 128%nat → (length r < 128)%nat →
  let buf' := if negb (0 =? Z.of_nat (length r))
              then memcpy buf (Z.to_nat 0) r (length r) else buf in
  take (length r) buf' = r ∧ length buf' = 128%nat.
Proof.
  intros Hb Hr. cbv zeta.
  destruct (Z.eqb_spec 0 (Z.of_nat (length r))) as [E|E]; cbn [negb].
  - destruct r; [|cbn in E; lia]. by rewrite take_0.
  - unfold memcpy. change (Z.to_nat 0) with 0%nat. rewrite take_0.
    cbn [app plus]. rewrite firstn_all. split.
    + by rewrite take_app_length.
    + rewrite length_app, length_drop. lia.
Qed.

Lemma update_data_spec small ctx n data :
  length (buffer ctx) = 128%nat → 0 ≤ n < 128 →
  let p := take (Z.to_nat n) (buffer ctx) in
  let r := update_data small ctx n data in
  snd r = blocks (p ++ data) ∧
  take (length (rest (p ++ data))) (buffer (fst r)) = rest (p ++ data) ∧
  H (fst r) =
    foldl (sha512_256_transform small) (H ctx) (blocks (p ++ data)) ∧
  count (fst r) = count ctx ∧
  count_bits_hi (fst r) = count_bits_hi ctx ∧
  length (buffer (fst r)) = 128%nat.
Proof.
  intros Hb Hn. cbv zeta.
  destruct ctx as [h buf c hi]. cbn [buffer H count count_bits_hi] in *.
  set (p := take (Z.to_nat n) buf).
  assert (length p = Z.to_nat n) as Hp by (unfold p; rewrite length_take; lia).
  remember (update_data small (mkCtx h buf c hi) n data) as r eqn:Hr.
  unfold update_data, SHA512_256_BLOCK_SIZE in Hr.
  destruct (Z.eqb_spec 0 n) as [E|E]; cbn [negb] in Hr.
  - (* nothing buffered *)
    subst n. change (Z.to_nat 0) with 0%nat in *.
    destruct p; [|cbn in Hp; lia]. cbn [app].
    rewrite update_loop_fuel in Hr
      by (apply Nat.Div0.div_le_upper_bound; lia).
    cbn [H set_H buffer count count_bits_hi app] in Hr.
    pose proof (store_tail buf (rest data) Hb (rest_lt data)) as [Ht Hl].
    change (Z.to_nat 0) with 0%nat in *.
    destruct (negb (0 =? Z.of_nat (length (rest data)))); subst r;
      cbn [fst snd set_buffer buffer H count count_bits_hi]; done.
  - destruct (Z.leb_spec (128 - n) (Z.of_nat (length data))) as [Hfill|Hshort].
    + (* the buffered bytes and the first bytes of [data] make a block *)
      cbn [set_buffer buffer H count count_bits_hi] in Hr.
      unfold memcpy in Hr at 1 2. fold p in Hr.
      rewrite (drop_ge buf) in Hr by lia.
      rewrite app_nil_r in Hr.
      set (B := p ++ take (Z.to_nat (128 - n)) data) in *.
      assert (length B = 128%nat) as HB
        by (unfold B; rewrite length_app, length_take; lia).
      assert (p ++ data = B ++ drop (Z.to_nat (128 - n)) data) as Hpd.
      { unfold B. by rewrite <- app_assoc, take_drop. }
      unfold call_transform, SHA512_256_BLOCK_SIZE in Hr.
      change (Z.to_nat 128) with 128%nat in Hr.
      rewrite (take_ge B) in Hr by lia.
      cbn [set_H set_buffer buffer H count count_bits_hi app] in Hr.
      rewrite update_loop_fuel in Hr
        by (apply Nat.Div0.div_le_upper_bound; lia).
      cbn [H set_H buffer count count_bits_hi app] in Hr.
      rewrite Hpd, (blocks_cons (B ++ _)), (rest_cons (B ++ _))
        by (rewrite length_app; lia).
      rewrite take_app_length', drop_app_length' by done.
      set (data' := drop (Z.to_nat (128 - n)) data) in *.
      pose proof (store_tail B (rest data') HB (rest_lt data')) as [Ht Hl].
      destruct (negb (0 =? Z.of_nat (length (rest data')))); subst r;
        cbn [fst snd set_buffer buffer H count count_bits_hi foldl]; done.
    + (* still no complete block *)
      rewrite update_loop_fuel in Hr
        by (apply Nat.Div0.div_le_upper_bound; lia).
      cbn [H set_H buffer count count_bits_hi app foldl] in Hr.
      rewrite (blocks_short data), (rest_short data) in Hr by lia.
      rewrite (blocks_short (p ++ data)), (rest_short (p ++ data))
        by (rewrite length_app; lia).
      cbn [foldl] in *.
      destruct (Z.eqb_spec 0 (Z.of_nat (length data))) as [E0|E0];
        cbn [negb] in Hr; subst r.
      * destruct data; [|cbn in E0; lia].
        cbn [fst snd set_buffer buffer H count count_bits_hi].
        rewrite app_nil_r, Hp. done.
      * cbn [fst snd set_buffer buffer H count count_bits_hi].
        unfold memcpy. fold p.
        rewrite firstn_all, app_assoc.
        rewrite take_app_length. split_and!; try done.
        rewrite !length_app, !length_drop. lia.
Qed.

Lemma update_spec small ctx data :
  ctx_ok ctx →
  let ctx' := fst (MHD_SHA512_256_update small ctx data) in
  let tr := snd (MHD_SHA512_256_update small ctx data) in
  tr = blocks (buffered ctx ++ data) ∧
  buffered ctx' = rest (buffered ctx ++ data) ∧
  H ctx' = foldl (sha512_256_transform small) (H ctx) tr ∧
  count ctx' = count_after (count ctx) (Z.of_nat (length data)) ∧
  count_bits_hi ctx' =
    count_bits_hi_after (count_bits_hi ctx) (count ctx)
      (Z.of_nat (length data)) ∧
  length (buffer ctx') = 128%nat.
Proof.
  intros (Hbuf & Hc & Hhi). cbv zeta.
  pose proof (buffered_length ctx Hbuf) as Hp.
  pose proof (Z.mod_pos_bound (count ctx) 128 ltac:(lia)) as Hn.
  rewrite update_halves.
  destruct (negb small && (0 =? Z.of_nat (length data))) eqn:Hearly.
  { apply andb_true_iff in Hearly as [_ Hlen%Z.eqb_eq].
    destruct data; [|cbn in Hlen; lia].
    cbn [fst snd length]. rewrite app_nil_r.
    rewrite blocks_short, rest_short by lia.
    unfold count_after, count_bits_hi_after.
    rewrite Z.add_0_r, (Z.mod_small (count ctx) (2 ^ 61)) by lia.
    rewrite (Z.mod_small (count ctx) (2 ^ 64)) by lia.
    rewrite (Z.div_small (count ctx)) by lia.
    rewrite Z.add_0_r, Z.mod_small by lia. done. }
  clear Hearly. rewrite land127.
  rewrite update_counters_spec by lia.
  set (ctx1 := mkCtx _ _ _ _).
  pose proof (update_data_spec small ctx1 (count ctx mod 128) data Hbuf Hn)
    as (Htr & Hbuf' & HH & Hcnt & Hhi' & Hlen).
  cbv zeta in *. cbn [buffer H count count_bits_hi ctx1] in *.
  fold (buffered ctx) in *.
  split_and!; try done.
  - unfold buffered at 1. rewrite Hcnt.
    rewrite <- Hbuf'. f_equal.
    rewrite length_rest, length_app, Hp.
    unfold count_after. rewrite mod61_mod128.
    apply Nat2Z.inj.
    rewrite Z2Nat.id by (apply Z.mod_pos_bound; lia).
    rewrite Nat2Z.inj_mod, Nat2Z.inj_add, Z2Nat.id by lia.
    by rewrite Z.add_mod_idemp_l.
  - by rewrite Htr.
Qed.

(** ** [MHD_SHA512_256_finish] *)

Lemma memcpy_eq (dst pre suf src : list byte) (off k : nat) :
  dst = pre ++ suf → length pre = off →
  memcpy dst off src k = pre ++ take k src ++ drop k suf.
Proof. intros -> Hoff. by apply memcpy_app. Qed.

Lemma memset_eq (dst pre suf : list byte) (off k : nat) v :
  dst = pre ++ suf → length pre = off →
  memset dst off v k = pre ++ replicate k v ++ drop k suf.
Proof. intros -> Hoff. by apply memset_app. Qed.

Lemma length_PUT v : length (_MHD_PUT_64BIT_BE v) = 8%nat.
Proof. reflexivity. Qed.

Lemma finish_halves small ctx :
  finish_pad small ctx =
  let '(st, bytes_have) := finish_mark small ctx in
  finish_length small st bytes_have (shl64 (count ctx) 3).
Proof.
  unfold finish_pad, finish_mark. cbv zeta.
  by destruct (_ <? _).
Qed.

Lemma finish_mark_eq small ctx :
  length (buffer ctx) = 128%nat →
  let p := buffered ctx in
  finish_mark small ctx =
  if decide (112 ≤ length p)%nat then
    let B := p ++ [x80] ++ replicate (127 - length p) x00 in
    (mkCtx (sha512_256_transform small (H ctx) B) B (count ctx)
       (count_bits_hi ctx), [B], 0)
  else
    (set_buffer ctx (p ++ [x80] ++ drop (S (length p)) (buffer ctx)), [],
     Z.of_nat (length p) + 1).
Proof.
  intros Hb. cbv zeta.
  pose proof (buffered_length ctx Hb) as Hp.
  pose proof (Z.mod_pos_bound (count ctx) 128 ltac:(lia)) as Hn.
  destruct ctx as [h buf c hi]. unfold buffered in *.
  cbn [buffer H count count_bits_hi] in *.
  set (n := Z.to_nat (c mod 128)) in *.
  set (p := take n buf) in *.
  unfold finish_mark. rewrite land127.
  unfold SHA512_256_BLOCK_SIZE, SHA512_256_SIZE_OF_LEN_ADD,
    SHA512_256_SIZE_OF_LEN_ADD_BITS.
  cbn [set_buffer buffer H count count_bits_hi].
  fold n. rewrite (insert_take_drop buf n) by lia. fold p.
  change (128 / 8) with 16. rewrite Hp.
  set (s := drop (S n) buf).
  assert (length s = 127 - n)%nat as Hs by (unfold s; rewrite length_drop; lia).
  destruct (Z.ltb_spec (128 - (c mod 128 + 1)) 16) as [Hext|Hfit].
  - rewrite decide_True by lia.
    set (B := p ++ [x80] ++ replicate (127 - n) x00).
    assert (length B = 128%nat) as HB.
    { unfold B. rewrite !length_app, length_replicate. cbn. lia. }
    assert ((if c mod 128 + 1 <? 128
             then memset (p ++ x80 :: s) (Z.to_nat (c mod 128 + 1)) x00
                    (Z.to_nat (128 - (c mod 128 + 1)))
             else p ++ x80 :: s) = B) as HBeq.
    { unfold B.
      destruct (Z.ltb_spec (c mod 128 + 1) 128) as [Hlt|Hge].
      - rewrite (memset_eq _ (p ++ [x80]) s)
          by (by rewrite <- ?app_assoc || (rewrite length_app; cbn; lia)).
        rewrite drop_ge by lia. rewrite app_nil_r, <- app_assoc.
        do 3 f_equal. lia.
      - destruct s; [|cbn in Hs; lia].
        replace (127 - n)%nat with 0%nat by lia. done. }
    unfold call_transform, SHA512_256_BLOCK_SIZE.
    change (Z.to_nat 128) with 128%nat.
    destruct (c mod 128 + 1 <? 128);
      cbn [set_H set_buffer buffer H count count_bits_hi app] in *;
      rewrite HBeq, (take_ge B) by lia; reflexivity.
  - rewrite decide_False by lia. do 2 f_equal. lia.
Qed.

Lemma finish_length_eq small ctx tr pre suf bh nb :
  buffer ctx = pre ++ suf → length (buffer ctx) = 128%nat →
  length pre = Z.to_nat bh → 0 ≤ bh ≤ 112 →
  let F := pre ++ replicate (112 - length pre) x00 ++
           _MHD_PUT_64BIT_BE (count_bits_hi ctx) ++ _MHD_PUT_64BIT_BE nb in
  finish_length small (ctx, tr) bh nb =
  (mkCtx (sha512_256_transform small (H ctx) F) F (count ctx)
     (count_bits_hi ctx), tr ++ [F]).
Proof.
  intros Hsplit Hb Hpre Hbh. cbv zeta.
  destruct ctx as [h buf c hi]. cbn [buffer H count count_bits_hi] in *.
  subst buf. rewrite length_app in Hb.
  unfold finish_length.
  unfold SHA512_256_BLOCK_SIZE, SHA512_256_SIZE_OF_LEN_ADD,
    SHA512_256_SIZE_OF_LEN_ADD_BITS, SHA512_256_BLOCK_SIZE_WORDS,
    SHA512_256_BYTES_IN_WORD.
  change (128 / 8) with 16.
  change (Z.to_nat ((16 - 2) * 8)) with 112%nat.
  change (Z.to_nat ((16 - 1) * 8)) with 120%nat.
  cbn [set_H set_buffer buffer H count count_bits_hi].
  pose proof (length_PUT hi) as Hlh. pose proof (length_PUT nb) as Hln.
  set (Ph := _MHD_PUT_64BIT_BE hi) in *.
  set (Pn := _MHD_PUT_64BIT_BE nb) in *. clearbody Ph Pn.
  replace (Z.to_nat (128 - 16 - bh)) with (112 - length pre)%nat by lia.
  rewrite memset_app by lia.
  rewrite (memcpy_eq _ (pre ++ replicate (112 - length pre) x00)
             (drop (112 - length pre) suf)).
  2: by rewrite <- app_assoc.
  2: rewrite !length_app, length_replicate; lia.
  rewrite (take_ge Ph) by lia.
  rewrite (memcpy_eq _ ((pre ++ replicate (112 - length pre) x00) ++ Ph)
             (drop 8 (drop (112 - length pre) suf))).
  2: by rewrite <- !app_assoc.
  2: rewrite !length_app, length_replicate; lia.
  rewrite (take_ge Pn) by lia.
  rewrite (drop_ge (drop 8 _)) by (rewrite !length_drop; lia).
  rewrite app_nil_r, <- !app_assoc.
  set (F := pre ++ replicate _ _ ++ Ph ++ Pn).
  assert (length F = 128%nat) as HF.
  { unfold F. rewrite !length_app, length_replicate. lia. }
  unfold call_transform, SHA512_256_BLOCK_SIZE.
  change (Z.to_nat 128) with 128%nat.
  cbn [set_H set_buffer buffer H count count_bits_hi].
  rewrite (take_ge F) by lia. reflexivity.
Qed.

Lemma finish_pad_eq small ctx :
  length (buffer ctx) = 128%nat →
  let tr := final_blocks (buffered ctx) (count_bits_hi ctx) (count ctx) in
  finish_pad small ctx =
  (mkCtx (foldl (sha512_256_transform small) (H ctx) tr)
     (default [] (last tr)) (count ctx) (count_bits_hi ctx), tr).
Proof.
  intros Hb. cbv zeta.
  pose proof (buffered_length ctx Hb) as Hp.
  pose proof (Z.mod_pos_bound (count ctx) 128 ltac:(lia)) as Hn.
  rewrite finish_halves, finish_mark_eq by done. cbv zeta.
  unfold final_blocks, length_bytes.
  set (p := buffered ctx) in *.
  destruct (decide (112 ≤ length p)%nat) as [Hext|Hfit].
  - set (B := p ++ [x80] ++ replicate (127 - length p) x00).
    assert (length B = 128%nat) as HB.
    { unfold B. rewrite !length_app, length_replicate. cbn. lia. }
    rewrite (finish_length_eq small _ [B] [] B 0)
      by (done || (cbn [buffer]; lia)).
    cbn [H count count_bits_hi app length foldl last default].
    reflexivity.
  - rewrite (finish_length_eq small _ [] (p ++ [x80])
               (drop (S (length p)) (buffer ctx))
               (Z.of_nat (length p) + 1)).
    + cbn [set_buffer H count count_bits_hi app length foldl last default].
      rewrite !length_app. cbn [length].
      replace (112 - (length p + 1))%nat with (111 - length p)%nat by lia.
      rewrite <- !app_assoc. reflexivity.
    + cbn [set_buffer buffer]. by rewrite <- app_assoc.
    + cbn [set_buffer buffer]. rewrite !length_app, length_drop. cbn. lia.
    + rewrite length_app. cbn. lia.
    + lia.
Qed.

(** ** Bytes and words *)

Lemma byte_to_of_Z z : byte_to_Z (byte_of_Z z) = z mod 256.
Proof.
  unfold byte_to_Z, byte_of_Z.
  pose proof (Z.mod_pos_bound z 256 ltac:(lia)) as Hz.
  destruct (Byte.of_N (Z.to_N (z mod 256))) as [b|] eqn:E.
  - apply Byte.to_of_N in E. rewrite E. lia.
  - apply Byte.of_N_None_iff in E. lia.
Qed.

Lemma be_value_PUT v :
  0 ≤ v < 2 ^ 64 → FIPS.be_value (_MHD_PUT_64BIT_BE v) = v.
Proof.
  intros Hv. unfold _MHD_PUT_64BIT_BE, FIPS.be_value, shr64.
  cbn [foldl]. rewrite !byte_to_of_Z.
  rewrite !Z.shiftr_div_pow2 by lia.
  change (2 ^ 8) with 256.
  change (2 ^ 16) with (256 * 256).
  change (2 ^ 24) with (256 * (256 * 256)).
  change (2 ^ 32) with (256 * (256 * (256 * 256))).
  change (2 ^ 40) with (256 * (256 * (256 * (256 * 256)))).
  change (2 ^ 48) with (256 * (256 * (256 * (256 * (256 * 256))))).
  change (2 ^ 56) with (256 * (256 * (256 * (256 * (256 * (256 * 256)))))).
  rewrite <- !Z.div_div by lia.
  Z.div_mod_to_equations. lia.
Qed.

Lemma be_value_app l1 l2 :
  FIPS.be_value (l1 ++ l2) =
  FIPS.be_value l1 * 256 ^ Z.of_nat (length l2) + FIPS.be_value l2.
Proof.
  unfold FIPS.be_value. rewrite foldl_app.
  generalize (foldl (λ acc b, acc * 256 + byte_to_Z b) 0 l1) as a.
  induction l2 as [|b l2 IH] using rev_ind; intros a.
  - cbn. lia.
  - rewrite !foldl_app. cbn [foldl]. rewrite IH, length_app. cbn [length].
    rewrite Nat2Z.inj_add, Z.pow_add_r by lia. cbn. lia.
Qed.

(** ** Reachable contexts and what they have absorbed *)

Lemma init_ok ctx0 :
  length (buffer ctx0) = 128%nat → ctx_ok (MHD_SHA512_256_init ctx0).
Proof. intros Hb. unfold ctx_ok. cbn. lia. Qed.

Lemma update_ok small ctx data :
  ctx_ok ctx → ctx_ok (fst (MHD_SHA512_256_update small ctx data)).
Proof.
  intros Hok.
  destruct (update_spec small ctx data Hok) as (_ & _ & _ & Hc & Hhi & Hl).
  unfold ctx_ok. rewrite Hc, Hhi. unfold count_after, count_bits_hi_after.
  split_and!; try done; apply Z.mod_pos_bound; lia.
Qed.

Lemma reachable_ok small ctx : reachable small ctx → ctx_ok ctx.
Proof.
  induction 1 as [ctx0 Hb|ctx data _ IH].
  - by apply init_ok.
  - by apply update_ok.
Qed.

Lemma total_length_concat chunks :
  total_length chunks = Z.of_nat (length (concat chunks)).
Proof.
  induction chunks as [|d ds IH]; [done|].
  cbn [total_length foldr concat]. fold (total_length ds).
  rewrite length_app, IH. lia.
Qed.

Lemma absorbed_init small ctx0 :
  length (buffer ctx0) = 128%nat →
  absorbed small [] (MHD_SHA512_256_init ctx0, []).
Proof.
  intros Hb. unfold absorbed. cbn [fst snd].
  split_and!; try done; by apply init_ok.
Qed.

Lemma absorbed_update small M st data :
  absorbed small M st →
  absorbed small (M ++ data)
    (let '(ctx, tr) := MHD_SHA512_256_update small (fst st) data in
     (ctx, snd st ++ tr)).
Proof.
  intros (Hok & Htr & Hbuf & HH & Hc).
  destruct (update_spec small (fst st) data Hok)
    as (Htr' & Hbuf' & HH' & Hc' & _ & _).
  pose proof (update_ok small (fst st) data Hok) as Hok'.
  destruct (MHD_SHA512_256_update small (fst st) data) as [ctx' tr'].
  cbn [fst snd] in *. unfold absorbed. cbn [fst snd].
  rewrite Hbuf in *. split_and!.
  - done.
  - by rewrite Htr, Htr', (blocks_app M data).
  - by rewrite Hbuf', (rest_app M data).
  - by rewrite HH', HH, Htr', (blocks_app M data), foldl_app.
  - rewrite Hc', Hc. unfold count_after.
    rewrite Z.add_mod_idemp_l, length_app by lia. f_equal. lia.
Qed.

Lemma absorbed_foldl small chunks : ∀ M st,
  absorbed small M st →
  absorbed small (M ++ concat chunks)
    (foldl (λ st data,
              let '(ctx, tr) := MHD_SHA512_256_update small (fst st) data in
              (ctx, snd st ++ tr)) st chunks).
Proof.
  induction chunks as [|d ds IH]; intros M st Hst.
  - cbn. by rewrite app_nil_r.
  - cbn [foldl concat]. rewrite app_assoc. apply IH.
    by apply absorbed_update.
Qed.

Lemma absorb_absorbed small ctx0 chunks :
  length (buffer ctx0) = 128%nat →
  absorbed small (concat chunks) (absorb small ctx0 chunks).
Proof.
  intros Hb. unfold absorb.
  apply (absorbed_foldl small chunks [] _). by apply absorbed_init.
Qed.

Lemma absorb_reachable small ctx0 chunks :
  length (buffer ctx0) = 128%nat →
  reachable small (fst (absorb small ctx0 chunks)).
Proof.
  intros Hb. unfold absorb.
  assert (reachable small (fst (MHD_SHA512_256_init ctx0, @nil (list byte))))
    as Hr by (by apply reachable_init).
  revert Hr. generalize (MHD_SHA512_256_init ctx0, @nil (list byte)).
  induction chunks as [|d ds IH]; intros st Hst; [done|].
  cbn [foldl]. apply IH.
  pose proof (reachable_update small (fst st) d Hst) as Hu.
  by destruct (MHD_SHA512_256_update small (fst st) d).
Qed.

(** *** The overflow counter *)

Lemma hi_step n len :
  0 ≤ n → 0 ≤ len → n mod 2 ^ 61 + len < 2 ^ 64 →
  count_bits_hi_after ((n / 2 ^ 61) mod 2 ^ 64) (n mod 2 ^ 61) len =
  ((n + len) / 2 ^ 61) mod 2 ^ 64.
Proof.
  intros Hn Hlen Hw. unfold count_bits_hi_after.
  pose proof (Z.mod_pos_bound n (2 ^ 61) ltac:(lia)).
  rewrite (Z.mod_small (_ + len)) by lia.
  rewrite Z.add_mod_idemp_l by lia. f_equal.
  rewrite (Z.div_mod n (2 ^ 61)) at 3 by lia.
  rewrite <- Z.add_assoc, Z.mul_comm, Z.div_add_l by lia. done.
Qed.

Lemma absorbed_hi_foldl small chunks : ∀ M st,
  absorbed small M st →
  count_bits_hi (fst st) = (Z.of_nat (length M) / 2 ^ 61) mod 2 ^ 64 →
  no_wrap (Z.of_nat (length M)) chunks →
  count_bits_hi
    (fst (foldl (λ st data,
                   let '(ctx, tr) :=
                     MHD_SHA512_256_update small (fst st) data in
                   (ctx, snd st ++ tr)) st chunks)) =
  (Z.of_nat (length (M ++ concat chunks)) / 2 ^ 61) mod 2 ^ 64.
Proof.
  induction chunks as [|d ds IH]; intros M st Hst Hhi Hnw.
  - cbn. by rewrite app_nil_r.
  - cbn [foldl concat]. rewrite app_assoc. destruct Hnw as [Hw Hnw].
    apply IH.
    + by apply absorbed_update.
    + destruct Hst as (Hok & _ & _ & _ & Hc).
      destruct (update_spec small (fst st) d Hok) as (_ & _ & _ & _ & Hhi' & _).
      destruct (MHD_SHA512_256_update small (fst st) d) as [ctx' tr'].
      cbn [fst snd] in *. rewrite Hhi', Hhi, Hc, length_app, Nat2Z.inj_add.
      apply hi_step; lia.
    + by rewrite length_app, Nat2Z.inj_add.
Qed.

Lemma absorb_hi small ctx0 chunks :
  length (buffer ctx0) = 128%nat → no_wrap 0 chunks →
  count_bits_hi (fst (absorb small ctx0 chunks)) =
  (total_length chunks / 2 ^ 61) mod 2 ^ 64.
Proof.
  intros Hb Hnw. rewrite total_length_concat. unfold absorb.
  apply (absorbed_hi_foldl small chunks [] _); [by apply absorbed_init|done..].
Qed.

Lemma no_wrap_total chunks : ∀ n,
  0 ≤ n → n + total_length chunks < 2 ^ 64 → no_wrap n chunks.
Proof.
  induction chunks as [|d ds IH]; intros n Hn Ht; [done|].
  cbn [total_length foldr] in Ht. fold (total_length ds) in Ht.
  assert (0 ≤ total_length ds)
    by (rewrite total_length_concat; lia).
  pose proof (Z.mod_le n (2 ^ 61) ltac:(lia) ltac:(lia)).
  split; [lia|]. apply IH; lia.
Qed.

Lemma no_wrap_chunks chunks : ∀ n,
  Forall (λ data, Z.of_nat (length data) ≤ 2 ^ 64 - 2 ^ 61) chunks →
  no_wrap n chunks.
Proof.
  induction chunks as [|d ds IH]; intros n Hf; [done|].
  apply Forall_cons in Hf as [Hd Hds].
  pose proof (Z.mod_pos_bound n (2 ^ 61) ltac:(lia)).
  split; [lia|]. by apply IH.
Qed.

(** ** The digest *)

Lemma finish_digest_eq small unaligned ctx digest aligned :
  length digest = 32%nat →
  finish_digest small unaligned ctx digest aligned =
  _MHD_PUT_64BIT_BE (H ctx !!! 0%nat) ++ _MHD_PUT_64BIT_BE (H ctx !!! 1%nat) ++
  _MHD_PUT_64BIT_BE (H ctx !!! 2%nat) ++ _MHD_PUT_64BIT_BE (H ctx !!! 3%nat).
Proof.
  intros Hd. unfold finish_digest.
  unfold SHA512_256_DIGEST_SIZE, SHA512_256_BYTES_IN_WORD.
  change (Z.to_nat 32) with 32%nat.
  change (Z.to_nat (0 * 8)) with 0%nat. change (Z.to_nat (1 * 8)) with 8%nat.
  change (Z.to_nat (2 * 8)) with 16%nat. change (Z.to_nat (3 * 8)) with 24%nat.
  pose proof (length_PUT (H ctx !!! 0%nat)) as H0.
  pose proof (length_PUT (H ctx !!! 1%nat)) as H1.
  pose proof (length_PUT (H ctx !!! 2%nat)) as H2.
  pose proof (length_PUT (H ctx !!! 3%nat)) as H3.
  set (P0 := _MHD_PUT_64BIT_BE (H ctx !!! 0%nat)) in *.
  set (P1 := _MHD_PUT_64BIT_BE (H ctx !!! 1%nat)) in *.
  set (P2 := _MHD_PUT_64BIT_BE (H ctx !!! 2%nat)) in *.
  set (P3 := _MHD_PUT_64BIT_BE (H ctx !!! 3%nat)) in *.
  clearbody P0 P1 P2 P3.
  destruct (negb unaligned && (small || negb aligned)); cbv zeta.
  - unfold memcpy. rewrite take_0, (drop_ge digest) by (cbn; lia).
    cbn [app]. rewrite app_nil_r. apply take_ge.
    rewrite !length_app. lia.
  - unfold memcpy at 4. rewrite take_0. cbn [app plus].
    rewrite (take_ge P0) by lia.
    rewrite (memcpy_eq _ P0 (drop 8 digest) P1 8 8) by done.
    rewrite (take_ge P1) by lia.
    rewrite (memcpy_eq _ (P0 ++ P1) (drop 8 (drop 8 digest)) P2 16 8).
    2: by rewrite <- app_assoc.
    2: rewrite length_app; lia.
    rewrite (take_ge P2) by lia.
    rewrite (memcpy_eq _ ((P0 ++ P1) ++ P2)
               (drop 8 (drop 8 (drop 8 digest))) P3 24 8).
    2: by rewrite <- !app_assoc.
    2: rewrite !length_app; lia.
    rewrite (take_ge P3) by lia.
    rewrite (drop_ge (drop 8 _)) by (rewrite !length_drop; lia).
    by rewrite app_nil_r, <- !app_assoc.
Qed.

Lemma finish_eq small unaligned ctx digest aligned :
  MHD_SHA512_256_finish small unaligned ctx digest aligned =
  (finish_digest small unaligned (fst (finish_pad small ctx)) digest aligned,
   erased, snd (finish_pad small ctx)).
Proof. unfold MHD_SHA512_256_finish. by destruct (finish_pad small ctx). Qed.

(** Every word the transform returns is a 64-bit word. *)
Lemma transform_range small h block :
  Forall (λ x, 0 ≤ x < 2 ^ 64) (sha512_256_transform small h block).
Proof.
  unfold sha512_256_transform, sha512_256_transform_small,
    sha512_256_transform_unrolled, work_add, add64.
  destruct small; cbv zeta;
    repeat (apply Forall_cons; split; [apply Z.mod_pos_bound; lia|]);
    apply Forall_nil_2.
Qed.

Lemma final_blocks_range small h p hi c :
  Forall (λ x, 0 ≤ x < 2 ^ 64)
    (foldl (sha512_256_transform small) h (final_blocks p hi c)).
Proof.
  unfold final_blocks. destruct (decide _); cbn [foldl];
    apply transform_range.
Qed.

Lemma final_blocks_length p hi c :
  (length p < 128)%nat →
  Forall (λ b, length b = 128%nat) (final_blocks p hi c).
Proof.
  intros Hp. unfold final_blocks, length_bytes.
  destruct (decide _); repeat (apply Forall_cons; split);
    try apply Forall_nil_2;
    rewrite !length_app, ?length_replicate, ?length_PUT; cbn [length]; lia.
Qed.

Lemma shl64_3 c : 0 ≤ c < 2 ^ 61 → shl64 c 3 = c * 8.
Proof.
  intros Hc. unfold shl64. rewrite Z.shiftl_mul_pow2 by lia.
  change (2 ^ 3) with 8. apply Z.mod_small. lia.
Qed.

Lemma length_field_value hi lo :
  0 ≤ hi < 2 ^ 64 → 0 ≤ lo < 2 ^ 64 →
  FIPS.be_value (_MHD_PUT_64BIT_BE hi ++ _MHD_PUT_64BIT_BE lo) =
  hi * 2 ^ 64 + lo.
Proof.
  intros Hhi Hlo. rewrite be_value_app, !be_value_PUT, length_PUT by done.
  reflexivity.
Qed.

(** ** The whole computation is SHA-512/256 of the standard *)

Lemma byte_of_Z_mod z1 z2 :
  z1 mod 256 = z2 mod 256 → byte_of_Z z1 = byte_of_Z z2.
Proof. intros E. unfold byte_of_Z. by rewrite E. Qed.

Lemma byte_of_Z_shiftr_low v k :
  0 ≤ k → k + 8 ≤ 64 →
  byte_of_Z (Z.shiftr (v mod 2 ^ 64) k) = byte_of_Z (Z.shiftr v k).
Proof.
  intros Hk Hk8. apply byte_of_Z_mod.
  change 256 with (2 ^ 8). apply Z.bits_inj'. intros n Hn.
  rewrite !Z.testbit_mod_pow2 by lia.
  destruct (Z.ltb_spec n 8) as [Hlt|Hge]; [|done].
  rewrite !Z.shiftr_spec by lia.
  by rewrite Z.mod_pow2_bits_low by lia.
Qed.

Lemma be_bytes_8 v : FIPS.be_bytes 8 v = _MHD_PUT_64BIT_BE v.
Proof. reflexivity. Qed.

Lemma be_bytes_16 v :
  FIPS.be_bytes 16 v =
  _MHD_PUT_64BIT_BE (Z.shiftr v 64) ++ _MHD_PUT_64BIT_BE (v mod 2 ^ 64).
Proof.
  unfold _MHD_PUT_64BIT_BE, shr64. cbn [app].
  rewrite !Z.shiftr_shiftr by lia.
  rewrite !byte_of_Z_shiftr_low by lia.
  rewrite (byte_of_Z_mod (v mod 2 ^ 64) v).
  - reflexivity.
  - change (2 ^ 64) with (256 * 2 ^ 56).
    rewrite Z.rem_mul_r, Z.mul_comm, Z.mod_add by lia.
    by rewrite Z.mod_mod.
Qed.

Lemma length_bits_bytes (n : Z) :
  0 ≤ n → n / 2 ^ 61 < 2 ^ 64 →
  FIPS.be_bytes 16 (8 * n) = length_bytes (n / 2 ^ 61) (n mod 2 ^ 61).
Proof.
  intros Hn Hhi. rewrite be_bytes_16. unfold length_bytes.
  pose proof (Z.mod_pos_bound n (2 ^ 61) ltac:(lia)).
  rewrite shl64_3 by lia. f_equal; f_equal.
  - rewrite Z.shiftr_div_pow2 by lia.
    change (2 ^ 64) with (8 * 2 ^ 61).
    rewrite Z.div_mul_cancel_l by lia. done.
  - change (2 ^ 64) with (8 * 2 ^ 61).
    rewrite Z.mul_mod_distr_l by lia. lia.
Qed.

Lemma blocks_one B R :
  length B = 128%nat → blocks (B ++ R) = B :: blocks R.
Proof.
  intros HB. rewrite blocks_cons by (rewrite length_app; lia).
  by rewrite take_app_length', drop_app_length'.
Qed.

Lemma blocks_nil : blocks [] = [].
Proof. reflexivity. Qed.

Lemma pad_blocks M :
  Z.of_nat (length M) / 2 ^ 61 < 2 ^ 64 →
  blocks (FIPS.pad M) =
  blocks M ++
  final_blocks (rest M) (Z.of_nat (length M) / 2 ^ 61)
    (Z.of_nat (length M) mod 2 ^ 61).
Proof.
  intros Hhi. unfold FIPS.pad.
  rewrite length_bits_bytes by (done || lia).
  set (L := length_bytes _ _).
  assert (length L = 16%nat) as HL by reflexivity.
  rewrite blocks_app. f_equal.
  pose proof (length_rest M) as Hp. pose proof (rest_lt M) as Hlt.
  set (p := rest M) in *.
  assert (Z.to_nat ((111 - Z.of_nat (length M)) mod 128) =
          if decide (112 ≤ length p)%nat
          then (127 - length p + 112)%nat else (111 - length p)%nat) as ->.
  { pose proof (Nat.div_mod_eq (length M) 128) as Hdm.
    rewrite <- Hp in Hdm.
    destruct (decide (112 ≤ length p)%nat).
    - apply Nat2Z.inj. rewrite Z2Nat.id by (apply Z.mod_pos_bound; lia).
      symmetry.
      apply (Z.mod_unique_pos _ _ (- Z.of_nat (length M / 128) - 1)); lia.
    - apply Nat2Z.inj. rewrite Z2Nat.id by (apply Z.mod_pos_bound; lia).
      symmetry.
      apply (Z.mod_unique_pos _ _ (- Z.of_nat (length M / 128))); lia. }
  unfold final_blocks.
  destruct (decide (112 ≤ length p)%nat).
  - rewrite replicate_add.
    set (B := p ++ [x80] ++ replicate (127 - length p) x00).
    assert (length B = 128%nat) as HB.
    { unfold B. rewrite !length_app, length_replicate. cbn [length]. lia. }
    replace (p ++ [x80] ++ (replicate (127 - length p) x00 ++
                            replicate 112 x00) ++ L)
      with (B ++ (replicate 112 x00 ++ L) ++ [])
      by (unfold B; by rewrite app_nil_r, <- !app_assoc).
    rewrite blocks_one by done.
    rewrite blocks_one by (by rewrite length_app, length_replicate, HL).
    done.
  - set (B := p ++ [x80] ++ replicate (111 - length p) x00 ++ L).
    assert (length B = 128%nat) as HB.
    { unfold B. rewrite !length_app, length_replicate. cbn [length]. lia. }
    rewrite <- (app_nil_r B). by rewrite blocks_one.
Qed.

Lemma compress_length h block : length (FIPS.compress h block) = 8%nat.
Proof.
  unfold FIPS.compress. cbv zeta.
  by destruct (FIPS.rounds _ _ _) as [[[[[[[? ?] ?] ?] ?] ?] ?] ?].
Qed.

Lemma final_blocks_snoc p hi c :
  ∃ l x, final_blocks p hi c = l ++ [x].
Proof.
  unfold final_blocks. destruct (decide _).
  - by eexists [_], _.
  - by eexists [], _.
Qed.

Lemma first_four_words (final : list Z) :
  length final = 8%nat →
  _MHD_PUT_64BIT_BE (final !!! 0%nat) ++ _MHD_PUT_64BIT_BE (final !!! 1%nat) ++
  _MHD_PUT_64BIT_BE (final !!! 2%nat) ++ _MHD_PUT_64BIT_BE (final !!! 3%nat) =
  mjoin (FIPS.be_bytes 8 <$> take 4 final).
Proof.
  intros Hl. do 8 (destruct final as [|? final]; [done|]).
  cbn [take firstn fmap list_fmap mjoin list_join].
  rewrite app_nil_r. reflexivity.
Qed.

(** X1.  For every message that [init], [update] and [finish] can be
    given (as a whole, or in chunks that make no addition to the byte
    counter wrap), the digest written is SHA-512/256 of the message as
    the standard defines it. *)
Lemma digest_is_FIPS_sha512_256 (small unaligned : bool)
  (ctx0 : Sha512_256Ctx) (chunks : list (list byte))
  (digest : list byte) (aligned : bool) :
  length (buffer ctx0) = 128%nat →
  length digest = 32%nat →
  total_length chunks < 2 ^ 64 ∨
    Forall (λ data, Z.of_nat (length data) ≤ 2 ^ 64 - 2 ^ 61) chunks →
  total_length chunks < 2 ^ 125 →
  fst (fst (MHD_SHA512_256_finish small unaligned
              (fst (absorb small ctx0 chunks)) digest aligned)) =
  FIPS_sha512_256 (concat chunks).
Proof.
  intros Hb Hd Hnw Ht.
  destruct (absorb_absorbed small ctx0 chunks Hb)
    as ((Hb' & Hc & Hhi) & _ & Hbuf & HH & Hcnt).
  assert (no_wrap 0 chunks) as Hnw'.
  { destruct Hnw; [apply no_wrap_total; lia|by apply no_wrap_chunks]. }
  pose proof (absorb_hi small ctx0 chunks Hb Hnw') as Hhi'.
  rewrite total_length_concat in *.
  set (M := concat chunks) in *.
  assert (0 ≤ Z.of_nat (length M) / 2 ^ 61 < 2 ^ 64) as Hq.
  { split; [apply Z.div_pos; lia|].
    apply Z.div_lt_upper_bound; [lia|].
    change (2 ^ 61 * 2 ^ 64) with (2 ^ 125). lia. }
  rewrite Z.mod_small in Hhi' by done.
  rewrite finish_eq. cbn [fst].
  rewrite finish_digest_eq, finish_pad_eq by done. cbn [fst H].
  rewrite Hbuf, HH, Hhi', Hcnt, <- foldl_app, <- pad_blocks by lia.
  assert (Forall (λ block, length block = 128%nat) (blocks (FIPS.pad M)))
    as Hlen by apply blocks_length.
  rewrite foldl_transform_FIPS by done.
  unfold FIPS_sha512_256. cbv zeta.
  apply first_four_words.
  rewrite pad_blocks by lia.
  destruct (final_blocks_snoc (rest M) (Z.of_nat (length M) / 2 ^ 61)
              (Z.of_nat (length M) mod 2 ^ 61)) as (l & x & ->).
  rewrite app_assoc, foldl_app. cbn [foldl]. apply compress_length.
Qed.

Lemma digest_is_FIPS_sha512_256_witness :
  length (buffer erased) = 128%nat ∧
  length (replicate 32 x00) = 32%nat ∧
  (total_length [[x61]; [x62; x63]] < 2 ^ 64 ∨
   Forall (λ data, Z.of_nat (length data) ≤ 2 ^ 64 - 2 ^ 61)
     [[x61]; [x62; x63]]) ∧
  total_length [[x61]; [x62; x63]] < 2 ^ 125 ∧
  fst (fst (MHD_SHA512_256_finish false false
              (fst (absorb false erased [[x61]; [x62; x63]]))
              (replicate 32 x00) true)) =
  FIPS_sha512_256 [x61; x62; x63].
Proof.
  assert (total_length [[x61]; [x62; x63]] < 2 ^ 64) as Hf
    by (vm_compute; reflexivity).
  assert (total_length [[x61]; [x62; x63]] < 2 ^ 125) as Ht
    by (vm_compute; reflexivity).
  split; [reflexivity|]. split; [reflexivity|].
  split; [left; exact Hf|]. split; [exact Ht|].
  exact (digest_is_FIPS_sha512_256 false false erased [[x61]; [x62; x63]]
           (replicate 32 x00) true eq_refl eq_refl (or_introl Hf) Ht).
Defined.

(** X2.  Beyond these bounds the 64-bit addition [ctx->count += length]
    wraps: a call that brings [count + length] to [2^64] or more, which
    takes more than [2^64 - 2^61] bytes in one call, loses [2^64] bytes of
    the total. *)
Lemma update_counters_beyond_bound small ctx data :
  ctx_ok ctx →
  2 ^ 64 ≤ count ctx + Z.of_nat (length data) < 2 ^ 64 + 2 ^ 61 →
  let ctx' := fst (MHD_SHA512_256_update small ctx data) in
  count ctx' = count ctx + Z.of_nat (length data) - 2 ^ 64 ∧
  count_bits_hi ctx' = count_bits_hi ctx.
Proof.
  intros Hok Hw. cbv zeta.
  destruct (update_spec small ctx data Hok) as (_ & _ & _ & Hc & Hhi & _).
  destruct Hok as (_ & Hcnt & Hhi0).
  rewrite Hc, Hhi. unfold count_after, count_bits_hi_after.
  set (n := count ctx + Z.of_nat (length data)) in *.
  assert (n mod 2 ^ 64 = n - 2 ^ 64) as ->.
  { symmetry. apply (Z.mod_unique_pos _ _ 1); lia. }
  rewrite (Z.div_small (n - 2 ^ 64)) by lia.
  rewrite Z.add_0_r, (Z.mod_small (count_bits_hi ctx)) by done.
  split; [|done].
  symmetry. apply (Z.mod_unique_pos _ _ 8); lia.
Qed.

Lemma update_counters_beyond_bound_witness :
  ctx_ok (mkCtx [] (replicate 128 x00) (2 ^ 61 - 1) 0) ∧
  2 ^ 64 ≤ count (mkCtx [] (replicate 128 x00) (2 ^ 61 - 1) 0)
           + Z.of_nat (length (replicate (Z.to_nat (2 ^ 64 - 2 ^ 61 + 1))
                                 x00))
    < 2 ^ 64 + 2 ^ 61 ∧
  count_bits_hi
    (fst (MHD_SHA512_256_update false
            (mkCtx [] (replicate 128 x00) (2 ^ 61 - 1) 0)
            (replicate (Z.to_nat (2 ^ 64 - 2 ^ 61 + 1)) x00))) = 0.
Proof.
  assert (ctx_ok (mkCtx [] (replicate 128 x00) (2 ^ 61 - 1) 0)) as Hok.
  { split; [reflexivity|]. cbn [count count_bits_hi]. lia. }
  assert (2 ^ 64 ≤ count (mkCtx [] (replicate 128 x00) (2 ^ 61 - 1) 0)
                   + Z.of_nat (length (replicate
                                         (Z.to_nat (2 ^ 64 - 2 ^ 61 + 1))
                                         x00))
          < 2 ^ 64 + 2 ^ 61) as Hw.
  { rewrite length_replicate, Z2Nat.id by lia. cbn [count]. lia. }
  split; [exact Hok|]. split; [exact Hw|].
  exact (proj2 (update_counters_beyond_bound false _ _ Hok Hw)).
Defined.

(** ** An [update] without data *)

Lemma update_nil small ctx :
  ctx_ok ctx → MHD_SHA512_256_update small ctx [] = (ctx, []).
Proof.
  intros (Hb & Hc & Hhi). rewrite update_halves. cbn [length].
  destruct small; cbn [negb andb]; [|done].
  change (0 =? Z.of_nat 0) with true. cbn [negb andb].
  rewrite update_counters_spec, land127 by lia.
  unfold count_after, count_bits_hi_after.
  rewrite Z.add_0_r, (Z.mod_small (count ctx) (2 ^ 61)) by lia.
  rewrite (Z.mod_small (count ctx) (2 ^ 64)) by lia.
  rewrite (Z.div_small (count ctx)) by lia.
  rewrite Z.add_0_r, Z.mod_small by lia.
  pose proof (Z.mod_pos_bound (count ctx) 128 ltac:(lia)) as Hn.
  unfold update_data, SHA512_256_BLOCK_SIZE. cbn [length].
  destruct (Z.eqb_spec 0 (count ctx mod 128)); cbn [negb].
  - cbn. by destruct ctx.
  - destruct (Z.leb_spec (128 - count ctx mod 128) (Z.of_nat 0)); [lia|].
    cbn. by destruct ctx.
Qed.

(** ** The transform on a block that is not aligned *)

Lemma byte_of_to_Z b : byte_of_Z (byte_to_Z b) = b.
Proof.
  unfold byte_of_Z, byte_to_Z.
  pose proof (Byte.to_N_bounded b) as Hb.
  rewrite Z.mod_small by lia.
  by rewrite N2Z.id, Byte.of_to_N.
Qed.

(** Storing the word that eight bytes hold gives the eight bytes back. *)
Lemma PUT_GET_64BIT_BE (l : list byte) :
  length l = 8%nat → _MHD_PUT_64BIT_BE (_MHD_GET_64BIT_BE l) = l.
Proof.
  intros Hl. rewrite GET_64BIT_BE_value by lia.
  do 8 (destruct l as [|? l]; [done|]). destruct l; [|done].
  unfold _MHD_PUT_64BIT_BE, FIPS.be_value, shr64.
  cbn [take foldl]. rewrite !Z.shiftr_div_pow2 by lia.
  repeat match goal with
         | |- context [byte_to_Z ?b] =>
             let x := fresh "x" in
             let E := fresh "E" in
             pose proof (byte_to_Z_range b);
             pose proof (byte_of_to_Z b) as E;
             generalize dependent (byte_to_Z b); intros x ? E
         end.
  repeat f_equal;
    match goal with
    | E : byte_of_Z ?x = ?b |- _ = ?b =>
        rewrite <- E; apply byte_of_Z_mod;
        rewrite (Z.mod_small x 256) by lia
    end;
    Z.div_mod_to_equations; lia.
Qed.

Lemma length_host_bytes be v : length (host_bytes be v) = 8%nat.
Proof. by destruct be. Qed.

(** The big-endian load from a word of [W] that the [memcpy] filled
    yields the big-endian word of the block, on either host. *)
Lemma GET_host_bytes_word be (bs : list byte) :
  length bs = 8%nat →
  _MHD_GET_64BIT_BE (host_bytes be (host_word be bs)) = _MHD_GET_64BIT_BE bs.
Proof.
  intros Hl. unfold host_bytes, host_word. destruct be.
  - by rewrite PUT_GET_64BIT_BE.
  - rewrite PUT_GET_64BIT_BE by (by rewrite length_rev).
    by rewrite rev_involutive.
Qed.

Lemma length_memcpy_W be data : length (memcpy_W be data) = 16%nat.
Proof. reflexivity. Qed.

Lemma memcpy_W_lookup be data t :
  (t < 16)%nat →
  memcpy_W be data !!! t = host_word be (take 8 (drop (8 * t) data)).
Proof.
  intros Ht. unfold memcpy_W.
  rewrite list_lookup_total_alt, list_lookup_fmap, lookup_seq_lt by lia.
  reflexivity.
Qed.

Lemma GET_take_schedule data t :
  length data = 128%nat → (t < 16)%nat →
  _MHD_GET_64BIT_BE (take 8 (drop (8 * t) data)) = FIPS.schedule data !!! t.
Proof.
  intros Hd Ht.
  rewrite GET_64BIT_BE_value by (rewrite length_take, length_drop; lia).
  rewrite take_take, Nat.min_id, schedule_lookup_lt, words_lookup by done.
  reflexivity.
Qed.

Lemma set_W_id s : set_W s (w_W s) = s.
Proof. by destruct s. Qed.

Lemma w_W_SHA2STEP64RV kt wt fv fW s :
  (∀ s, wt s = (fv (w_W s), set_W s (fW (w_W s)))) →
  w_W (SHA2STEP64RV Var.a Var.b Var.c Var.d Var.e Var.f Var.g Var.h kt wt s)
  = fW (w_W s).
Proof.
  intros Hwt.
  pose proof (view_SHA2STEP64RV kt wt fv fW s Hwt) as Hview.
  destruct (FIPS.round _ _ _) as [[[[[[[a b] c] d] e] f] g] h].
  unfold view in Hview. by injection Hview.
Qed.

(** The first 16 steps of the small build, for an assignment [wt] that
    reads and changes [W] only and keeps an invariant [P] of [W]. *)
Lemma transform_inv_first H data wt fv fW (P : nat → list Z → Prop) s0 :
  (∀ t s, wt t s = (fv t (w_W s), set_W s (fW t (w_W s)))) →
  (∀ (n : nat) W, (n < 16)%nat → P n W → length W = 16%nat →
     fv (Z.of_nat n) W = FIPS.schedule data !!! n ∧
     fW (Z.of_nat n) W = <[n := fv (Z.of_nat n) W]> W ∧
     P (S n) (fW (Z.of_nat n) W)) →
  transform_inv H data 0 s0 → P 0%nat (w_W s0) →
  ∀ n : nat, (n ≤ 16)%nat →
    let s := foldl (λ s t, SHA2STEP64RV Var.a Var.b Var.c Var.d Var.e Var.f
                             Var.g Var.h (K !!! Z.to_nat t) (wt t) s)
               s0 (seqZ 0 (Z.of_nat n)) in
    transform_inv H data n s ∧ P n (w_W s).
Proof.
  intros Hwt Hstep H0 P0. induction n as [|n IH]; intros Hn; cbv zeta.
  - split; [exact H0|exact P0].
  - rewrite seqZ_S, foldl_app. cbn [foldl]. rewrite Z.add_0_l.
    destruct (IH ltac:(lia)) as [Hinv HP]. cbv zeta in Hinv, HP.
    set (s := foldl _ _ _) in *.
    pose proof Hinv as ((Hlen & _) & _).
    destruct (Hstep n (w_W s) ltac:(lia) HP Hlen) as (Hfv & HfW & HP').
    split.
    + apply (transform_inv_step H data n s (K !!! Z.to_nat (Z.of_nat n))
               (wt (Z.of_nat n)) (fv (Z.of_nat n)) (fW (Z.of_nat n))).
      * apply Hwt.
      * by rewrite Nat2Z.id.
      * exact Hinv.
      * exact Hfv.
      * rewrite Nat.mod_small by lia. exact HfW.
    + rewrite (w_W_SHA2STEP64RV _ _ (fv (Z.of_nat n)) (fW (Z.of_nat n)));
        [exact HP'|apply Hwt].
Qed.

(** All 80 steps, as the compression function of the standard. *)
Lemma small_steps_with_FIPS H data wt fv fW (P : nat → list Z → Prop) W0 :
  length W0 = 16%nat →
  (∀ t s, wt t s = (fv t (w_W s), set_W s (fW t (w_W s)))) →
  (∀ (n : nat) W, (n < 16)%nat → P n W → length W = 16%nat →
     fv (Z.of_nat n) W = FIPS.schedule data !!! n ∧
     fW (Z.of_nat n) W = <[n := fv (Z.of_nat n) W]> W ∧
     P (S n) (fW (Z.of_nat n) W)) →
  P 0%nat W0 →
  work_add H (run (small_steps_with wt) (set_W (work_init H) W0)) =
  FIPS.compress H data.
Proof.
  intros HW0 Hwt Hstep P0.
  assert (transform_inv H data 0 (set_W (work_init H) W0)) as H0.
  { split; [|reflexivity]. split; [exact HW0|]. intros j Hj. lia. }
  destruct (transform_inv_first H data wt fv fW P _ Hwt Hstep H0 P0 16
              ltac:(lia)) as [H16 _].
  cbv zeta in H16.
  pose proof (transform_inv_gen H data _ 64 H16 ltac:(lia)) as H80.
  change (Z.of_nat 16) with 16 in H80. change (Z.of_nat 64) with 64 in H80.
  change (16 + 64)%nat with 80%nat in H80.
  unfold small_steps_with. rewrite run_app, <- !foldl_run.
  unfold FIPS.compress. cbv zeta.
  destruct H80 as (_ & Hv). rewrite <- Hv. reflexivity.
Qed.

Lemma sim_W_read data :
  sim_steps 0 (unrolled_steps_16 W_read ++ drop 16 (unrolled_steps data))
    (small_steps_with W_read).
Proof. repeat (split; [ sim_one | ]). exact I. Qed.

Lemma sim_W_from_W be data :
  sim_steps 0
    (unrolled_steps_16 (W_from_W be) ++ drop 16 (unrolled_steps data))
    (small_steps_with (W_from_W be)).
Proof. repeat (split; [ sim_one | ]). exact I. Qed.

Lemma run_unrolled_small lu ls H s :
  sim_steps 0 lu ls → length lu = 80%nat →
  work_add H (run lu s) = work_add H (run ls s).
Proof.
  intros Hsim Hl. symmetry. apply work_add_view, rel_80_view.
  rewrite <- Hl. by apply (sim_steps_run lu ls 0).
Qed.

(** The copied block, loaded from [W]. *)
Lemma small_steps_W_from_W_FIPS be H data :
  length data = 128%nat →
  work_add H (run (small_steps_with (W_from_W be))
                (set_W (work_init H) (memcpy_W be data))) =
  FIPS.compress H data.
Proof.
  intros Hd.
  apply (small_steps_with_FIPS H data (W_from_W be)
           (λ t W, _MHD_GET_64BIT_BE (host_bytes be (W !!! Z.to_nat t)))
           (λ t W, <[Z.to_nat t :=
                      _MHD_GET_64BIT_BE (host_bytes be (W !!! Z.to_nat t))]> W)
           (W_copied be data));
    [reflexivity|intros t s; reflexivity| |intros j _; reflexivity].
  intros n W Hn HP HW. cbv beta. rewrite Nat2Z.id.
  split_and!; [|reflexivity|].
  - rewrite (HP n) by lia. rewrite memcpy_W_lookup by done.
    rewrite GET_host_bytes_word by (rewrite length_take, length_drop; lia).
    by apply GET_take_schedule.
  - intros j Hj. rewrite list_lookup_total_insert_ne by lia. apply HP. lia.
Qed.

(** The copied block on a big-endian host, read as it is. *)
Lemma small_steps_W_read_FIPS H data :
  length data = 128%nat →
  work_add H (run (small_steps_with W_read)
                (set_W (work_init H) (memcpy_W true data))) =
  FIPS.compress H data.
Proof.
  intros Hd.
  apply (small_steps_with_FIPS H data W_read
           (λ t W, W !!! Z.to_nat t) (λ _ W, W)
           (λ _ W, W = memcpy_W true data)); [reflexivity| | |reflexivity].
  - intros t s. unfold W_read. by rewrite set_W_id.
  - intros n W Hn -> HW. cbv beta. rewrite Nat2Z.id.
    split_and!; [| |reflexivity].
    + rewrite memcpy_W_lookup by done. by apply GET_take_schedule.
    + symmetry. apply list_insert_id.
      apply list_lookup_lookup_total_lt. rewrite length_memcpy_W. lia.
Qed.

Lemma transform_at_FIPS small allow be H data aligned :
  length data = 128%nat →
  sha512_256_transform_at small allow be H data aligned =
  FIPS.compress H data.
Proof.
  intros Hd. unfold sha512_256_transform_at.
  destruct (negb allow && negb aligned); [|by apply transform_FIPS].
  cbv zeta. destruct small.
  - rewrite <- (small_steps_W_from_W_FIPS be H data Hd).
    unfold small_steps_with. by rewrite run_app, <- !foldl_run.
  - destruct be.
    + rewrite (run_unrolled_small _ _ H _ (sim_W_read data) eq_refl).
      by apply small_steps_W_read_FIPS.
    + rewrite (run_unrolled_small _ _ H _ (sim_W_from_W false data) eq_refl).
      by apply small_steps_W_from_W_FIPS.
Qed.

(** ** The two builds of the entry points *)

Lemma transform_build h data :
  sha512_256_transform true h data = sha512_256_transform false h data.
Proof. symmetry. apply transform_unrolled_small. Qed.

Lemma call_transform_build st data :
  call_transform true st data = call_transform false st data.
Proof.
  destruct st as [ctx tr]. unfold call_transform.
  by rewrite transform_build.
Qed.

Lemma update_loop_build (fuel : nat) : ∀ st data,
  update_loop true fuel st data = update_loop false fuel st data.
Proof.
  induction fuel as [|fuel IH]; intros st data; cbn [update_loop];
    [reflexivity|].
  destruct (_ <=? _); [|reflexivity].
  rewrite call_transform_build. apply IH.
Qed.

Lemma update_data_build ctx n data :
  update_data true ctx n data = update_data false ctx n data.
Proof.
  unfold update_data.
  destruct (negb (0 =? n)); [destruct (_ <=? _)|];
    cbv beta iota zeta;
    rewrite ?call_transform_build, update_loop_build; reflexivity.
Qed.

Lemma foldl_transform_build tr : ∀ h,
  foldl (sha512_256_transform true) h tr =
  foldl (sha512_256_transform false) h tr.
Proof.
  induction tr as [|b tr IH]; intros h; cbn [foldl]; [reflexivity|].
  rewrite transform_build. apply IH.
Qed.

(** ** What the entry points read of a context *)

Lemma state_of_inv ctx1 ctx2 :
  state_of ctx1 = state_of ctx2 →
  H ctx1 = H ctx2 ∧ buffered ctx1 = buffered ctx2 ∧
  count ctx1 = count ctx2 ∧ count_bits_hi ctx1 = count_bits_hi ctx2.
Proof. unfold state_of. by intros [= -> -> -> ->]. Qed.

Lemma count_after_twice c a b :
  count_after (count_after c a) b = count_after c (a + b).
Proof.
  unfold count_after. rewrite Z.add_mod_idemp_l by lia. f_equal. lia.
Qed.

Lemma count_bits_hi_after_twice hi c a b :
  0 ≤ c → 0 ≤ a → 0 ≤ b → c + a + b < 2 ^ 64 →
  count_bits_hi_after (count_bits_hi_after hi c a) (count_after c a) b =
  count_bits_hi_after hi c (a + b).
Proof.
  intros Hc Ha Hb Hs. unfold count_bits_hi_after, count_after.
  rewrite (Z.mod_small (c + a) (2 ^ 64)) by lia.
  rewrite (Z.mod_small (c + (a + b)) (2 ^ 64)) by lia.
  pose proof (Z.mod_pos_bound (c + a) (2 ^ 61) ltac:(lia)).
  pose proof (Z.mod_le (c + a) (2 ^ 61) ltac:(lia) ltac:(lia)).
  rewrite (Z.mod_small ((c + a) mod 2 ^ 61 + b) (2 ^ 64)) by lia.
  rewrite Z.add_mod_idemp_l by lia. f_equal.
  Z.div_mod_to_equations. lia.
Qed.

(** ** The padded message *)

Lemma length_be_bytes n v : length (FIPS.be_bytes n v) = n.
Proof. unfold FIPS.be_bytes. by rewrite length_fmap, length_seq. Qed.

Lemma length_pad M :
  Z.of_nat (length (FIPS.pad M)) =
  128 * ((Z.of_nat (length M) + 144) / 128).
Proof.
  unfold FIPS.pad.
  rewrite !length_app, length_replicate, length_be_bytes. cbn [length].
  pose proof (Z.mod_pos_bound (111 - Z.of_nat (length M)) 128 ltac:(lia)).
  rewrite !Nat2Z.inj_add, Z2Nat.id by lia.
  Z.div_mod_to_equations. lia.
Qed.

Lemma rest_pad M : rest (FIPS.pad M) = [].
Proof.
  apply length_zero_iff_nil. rewrite length_rest.
  apply Nat2Z.inj. rewrite Nat2Z.inj_mod, length_pad.
  rewrite Z.mul_comm, Z.mod_mul by lia. reflexivity.
Qed.

(** The whole trace of [init], the [update] calls and [finish]. *)
Lemma whole_trace small unaligned ctx0 chunks digest aligned :
  length (buffer ctx0) = 128%nat →
  total_length chunks < 2 ^ 64 ∨
    Forall (λ data, Z.of_nat (length data) ≤ 2 ^ 64 - 2 ^ 61) chunks →
  total_length chunks < 2 ^ 125 →
  snd (absorb small ctx0 chunks) ++
  snd (MHD_SHA512_256_finish small unaligned
         (fst (absorb small ctx0 chunks)) digest aligned) =
  blocks (FIPS.pad (concat chunks)).
Proof.
  intros Hb Hnw Ht.
  destruct (absorb_absorbed small ctx0 chunks Hb)
    as ((Hb' & Hc & Hhi) & Htr & Hbuf & HH & Hcnt).
  assert (no_wrap 0 chunks) as Hnw'.
  { destruct Hnw; [apply no_wrap_total; lia|by apply no_wrap_chunks]. }
  pose proof (absorb_hi small ctx0 chunks Hb Hnw') as Hhi'.
  rewrite total_length_concat in *.
  set (M := concat chunks) in *.
  assert (0 ≤ Z.of_nat (length M) / 2 ^ 61 < 2 ^ 64) as Hq.
  { split; [apply Z.div_pos; lia|].
    apply Z.div_lt_upper_bound; [lia|].
    change (2 ^ 61 * 2 ^ 64) with (2 ^ 125). lia. }
  rewrite Z.mod_small in Hhi' by done.
  rewrite finish_eq. cbn [snd].
  rewrite finish_pad_eq by done. cbn [snd].
  rewrite Htr, Hbuf, Hhi', Hcnt. symmetry. apply pad_blocks. lia.
Qed.

(** ** What [update] writes into the buffer *)

(** Nothing buffered: the complete blocks of [data] go to the transform
    from where they are, and only the tail is copied. *)
Lemma update_data_aligned small ctx data :
  update_data small ctx 0 data =
  (mkCtx (foldl (sha512_256_transform small) (H ctx) (blocks data))
     (rest data ++ drop (length (rest data)) (buffer ctx))
     (count ctx) (count_bits_hi ctx),
   blocks data).
Proof.
  unfold update_data. change (negb (0 =? 0)) with false. cbv beta iota.
  rewrite update_loop_fuel by (apply Nat.Div0.div_le_upper_bound; lia).
  cbn [app]. destruct ctx as [h buf c hi].
  cbn [H set_H buffer count count_bits_hi].
  destruct (Z.eqb_spec 0 (Z.of_nat (length (rest data)))) as [E|E];
    cbn [negb].
  - destruct (rest data); [|cbn in E; lia]. by rewrite drop_0.
  - unfold set_buffer, memcpy. cbn [H buffer count count_bits_hi].
    change (Z.to_nat 0) with 0%nat. rewrite take_0, firstn_all. done.
Qed.

(** Too few bytes to complete a block: they are copied behind the bytes
    already held. *)
Lemma update_data_short small ctx n data :
  0 ≤ n → n + Z.of_nat (length data) < 128 →
  length (buffer ctx) = 128%nat →
  update_data small ctx n data =
  (mkCtx (H ctx)
     (take (Z.to_nat n) (buffer ctx) ++ data ++
      drop (Z.to_nat n + length data) (buffer ctx))
     (count ctx) (count_bits_hi ctx),
   []).
Proof.
  intros Hn Hlen Hb.
  destruct (decide (n = 0)) as [->|Hne].
  { rewrite update_data_aligned.
    rewrite blocks_short, rest_short by lia.
    change (Z.to_nat 0) with 0%nat. by rewrite take_0. }
  unfold update_data, SHA512_256_BLOCK_SIZE.
  destruct (Z.eqb_spec 0 n) as [E|E]; [lia|]. cbn [negb].
  destruct (Z.leb_spec (128 - n) (Z.of_nat (length data))) as [Hl|Hl]; [lia|].
  rewrite update_loop_fuel by (apply Nat.Div0.div_le_upper_bound; lia).
  rewrite blocks_short, rest_short by lia.
  cbn [app foldl]. rewrite set_H_id.
  destruct ctx as [h buf c hi].
  cbn [H set_H buffer count count_bits_hi] in *.
  destruct (Z.eqb_spec 0 (Z.of_nat (length data))) as [E0|E0]; cbn [negb].
  - destruct data; [|cbn in E0; lia].
    cbn [app length]. by rewrite Nat.add_0_r, take_drop.
  - unfold set_buffer, memcpy. cbn [H buffer count count_bits_hi].
    by rewrite firstn_all.
Qed.

(** ** The digest in the array of the caller *)

Lemma memcpy_app_l (A B src : list byte) (off k : nat) :
  (off + k ≤ length A)%nat →
  memcpy (A ++ B) off src k = memcpy A off src k ++ B.
Proof.
  intros Hl. unfold memcpy.
  rewrite take_app_le, drop_app_le by lia.
  by rewrite <- !app_assoc.
Qed.

Lemma length_memcpy (A src : list byte) (off k : nat) :
  (off + k ≤ length A)%nat → (k ≤ length src)%nat →
  length (memcpy A off src k) = length A.
Proof.
  intros Hl Hk. unfold memcpy.
  rewrite !length_app, !length_take, length_drop. lia.
Qed.

Lemma finish_digest_app small unaligned ctx (A B : list byte) aligned :
  length A = 32%nat →
  finish_digest small unaligned ctx (A ++ B) aligned =
  finish_digest small unaligned ctx A aligned ++ B.
Proof.
  intros HA. unfold finish_digest.
  unfold SHA512_256_DIGEST_SIZE, SHA512_256_BYTES_IN_WORD.
  change (Z.to_nat 32) with 32%nat.
  change (Z.to_nat (0 * 8)) with 0%nat. change (Z.to_nat (1 * 8)) with 8%nat.
  change (Z.to_nat (2 * 8)) with 16%nat. change (Z.to_nat (3 * 8)) with 24%nat.
  pose proof (length_PUT (H ctx !!! 0%nat)) as H0.
  pose proof (length_PUT (H ctx !!! 1%nat)) as H1.
  pose proof (length_PUT (H ctx !!! 2%nat)) as H2.
  pose proof (length_PUT (H ctx !!! 3%nat)) as H3.
  set (P0 := _MHD_PUT_64BIT_BE (H ctx !!! 0%nat)) in *.
  set (P1 := _MHD_PUT_64BIT_BE (H ctx !!! 1%nat)) in *.
  set (P2 := _MHD_PUT_64BIT_BE (H ctx !!! 2%nat)) in *.
  set (P3 := _MHD_PUT_64BIT_BE (H ctx !!! 3%nat)) in *.
  clearbody P0 P1 P2 P3.
  destruct (negb unaligned && (small || negb aligned)); cbv zeta.
  - apply memcpy_app_l. lia.
  - rewrite (memcpy_app_l A B P0 0 8) by lia.
    pose proof (length_memcpy A P0 0 8 ltac:(lia) ltac:(lia)) as L0.
    set (A0 := memcpy A 0 P0 8) in *.
    rewrite (memcpy_app_l A0 B P1 8 8) by lia.
    pose proof (length_memcpy A0 P1 8 8 ltac:(lia) ltac:(lia)) as L1.
    set (A1 := memcpy A0 8 P1 8) in *.
    rewrite (memcpy_app_l A1 B P2 16 8) by lia.
    pose proof (length_memcpy A1 P2 16 8 ltac:(lia) ltac:(lia)) as L2.
    set (A2 := memcpy A1 16 P2 8) in *.
    apply (memcpy_app_l A2 B P3 24 8). lia.
Qed.

(** ** The optimised macros *)

Lemma Wat_minus_16 w t : Wat w (t - 16) = Wat w t.
Proof.
  unfold Wat. do 2 f_equal. change 15 with (Z.ones 4).
  rewrite !Z.land_ones by lia. change (2 ^ 4) with 16.
  replace (t - 16) with (t + (-1) * 16) by lia.
  by rewrite Z.mod_add.
Qed.

(** ** The constants *)

Lemma is_prime_spec p :
  is_prime p = true ↔ 1 < p ∧ ∀ d, 1 < d < p → p mod d ≠ 0.
Proof.
  unfold is_prime. rewrite andb_true_iff, Z.ltb_lt, forallb_forall.
  split; intros [Hp Hd]; (split; [done|]).
  - intros d Hr. specialize (Hd d).
    rewrite negb_true_iff, Z.eqb_neq in Hd. apply Hd.
    apply list_elem_of_In, elem_of_seqZ. lia.
  - intros d Hin%list_elem_of_In%elem_of_seqZ.
    rewrite negb_true_iff, Z.eqb_neq. apply Hd. lia.
Qed.

Lemma elem_of_primes_to n p :
  p ∈ primes_to n ↔
  (2 ≤ p ≤ n) ∧ ∀ d, 1 < d < p → p mod d ≠ 0.
Proof.
  unfold primes_to.
  rewrite list_elem_of_In, filter_In, <- list_elem_of_In, elem_of_seqZ.
  rewrite is_prime_spec. split.
  - intros (Hr & Hp & Hd). split; [lia|done].
  - intros (Hr & Hd). split; [lia|]. split; [lia|done].
Qed.

(** A root fraction is checked on the integer part [m] given. *)
Lemma root_fraction_intro k p x m :
  ((0 <=? x) && (x <? 2 ^ 64) && (0 <=? m)
   && ((m * 2 ^ 64 + x) ^ k <=? p * 2 ^ (64 * k))
   && (p * 2 ^ (64 * k) <? (m * 2 ^ 64 + x + 1) ^ k)) = true →
  root_fraction k p x.
Proof.
  rewrite !andb_true_iff, !Z.leb_le, !Z.ltb_lt.
  intros ((((H0 & H1) & Hm) & Hl) & Hu).
  split; [lia|]. exists m. split; [lia|]. split; [exact Hl|exact Hu].
Qed.

Lemma root_fractions_intro k ps xs ms :
  forallb (λ t, let '(p, x, m) := t in
               (0 <=? x) && (x <? 2 ^ 64) && (0 <=? m)
               && ((m * 2 ^ 64 + x) ^ k <=? p * 2 ^ (64 * k))
               && (p * 2 ^ (64 * k) <? (m * 2 ^ 64 + x + 1) ^ k))
    (zip (zip ps xs) ms) = true →
  length ps = length xs → length ps = length ms →
  Forall2 (root_fraction k) ps xs.
Proof.
  revert xs ms. induction ps as [|p ps IH]; intros [|x xs] [|m ms];
    cbn [zip zip_with forallb length]; try done.
  intros [Hh Ht]%andb_true_iff Hl1 Hl2. constructor.
  - by apply (root_fraction_intro k p x m).
  - apply (IH xs ms); (done || lia).
Qed.

(** ** The padding tells messages apart *)

Lemma be_value_length_bits (n : Z) :
  0 ≤ n < 2 ^ 125 → FIPS.be_value (FIPS.be_bytes 16 (8 * n)) = 8 * n.
Proof.
  intros Hn.
  assert (0 ≤ n / 2 ^ 61 < 2 ^ 64) as Hq.
  { split; [apply Z.div_pos; lia|].
    apply Z.div_lt_upper_bound; [lia|].
    change (2 ^ 61 * 2 ^ 64) with (2 ^ 125). lia. }
  pose proof (Z.mod_pos_bound n (2 ^ 61) ltac:(lia)) as Hm.
  rewrite length_bits_bytes by lia. unfold length_bytes.
  rewrite shl64_3 by lia. rewrite length_field_value by lia.
  pose proof (Z.div_mod n (2 ^ 61) ltac:(lia)). lia.
Qed.

Lemma pad_inj M1 M2 :
  Z.of_nat (length M1) < 2 ^ 125 → Z.of_nat (length M2) < 2 ^ 125 →
  FIPS.pad M1 = FIPS.pad M2 → M1 = M2.
Proof.
  intros H1 H2. unfold FIPS.pad. rewrite !app_assoc.
  intros [Hx Hy]%app_inj_2; [|by rewrite !length_be_bytes].
  apply (f_equal FIPS.be_value) in Hy.
  rewrite !be_value_length_bits in Hy by lia.
  rewrite <- !app_assoc in Hx.
  apply app_inj_1 in Hx as [Hx _]; [done|lia].
Qed.

(** ** The claims of the specification *)

(** C8.  [init] sets the eight state words to the initial hash value of
    SHA-512/256 of the standard, which is what the IV generation function
    of the standard derives from the initial value of plain SHA-512 and
    differs from that value in every word; it sets both counters to zero
    and leaves no byte buffered (the bytes of the buffer themselves are
    not touched).  It is defined on every context: there is nothing to
    validate and no way to fail. *)
Theorem init_sets_initial_state (ctx : Sha512_256Ctx) :
  let ctx' := MHD_SHA512_256_init ctx in
  H ctx' = FIPS.IV_512_256 ∧
  FIPS.IV_512_256 = FIPS.IV_generation ∧
  (∀ i, (i < 8)%nat → H ctx' !!! i ≠ FIPS.IV_512 !!! i) ∧
  count ctx' = 0 ∧
  count_bits_hi ctx' = 0 ∧
  buffered ctx' = [] ∧
  buffer ctx' = buffer ctx.
Proof.
  cbv zeta. split; [reflexivity|]. split; [by vm_compute|].
  split; [|by split_and!].
  intros i Hi. do 8 (destruct i as [|i]; [by vm_compute|]). lia.
Qed.

(** C9.  After [finish] every part of the context is zero: the eight state
    words, the 128 bytes of the buffer and both counters, whatever the
    context held before. *)
Theorem finish_erases_context (small unaligned : bool)
  (ctx : Sha512_256Ctx) (digest : list byte) (aligned : bool) :
  let ctx' :=
    snd (fst (MHD_SHA512_256_finish small unaligned ctx digest aligned)) in
  H ctx' = replicate 8 0 ∧
  buffer ctx' = replicate 128 x00 ∧
  count ctx' = 0 ∧
  count_bits_hi ctx' = 0.
Proof. cbv zeta. rewrite finish_eq. by cbn. Qed.

(** C10.  An [update] of length 0 on a reachable context returns the
    context as it was and calls the transform on nothing, in the default
    build (which returns at once) and in the build with
    [MHD_FAVOR_SMALL_CODE] (which goes through the whole function). *)
Theorem update_empty_is_identity (small : bool) (ctx : Sha512_256Ctx) :
  reachable small ctx →
  MHD_SHA512_256_update small ctx [] = (ctx, []).
Proof. intros Hr. apply update_nil. by apply (reachable_ok small). Qed.

Lemma update_empty_is_identity_witness :
  reachable true
    (fst (MHD_SHA512_256_update true (MHD_SHA512_256_init erased)
            [x61; x62; x63])) ∧
  MHD_SHA512_256_update true
    (fst (MHD_SHA512_256_update true (MHD_SHA512_256_init erased)
            [x61; x62; x63])) [] =
  (fst (MHD_SHA512_256_update true (MHD_SHA512_256_init erased)
          [x61; x62; x63]), []).
Proof.
  assert (reachable true
            (fst (MHD_SHA512_256_update true (MHD_SHA512_256_init erased)
                    [x61; x62; x63]))) as Hr.
  { apply reachable_update, reachable_init. reflexivity. }
  split; [exact Hr|].
  apply (update_empty_is_identity true _ Hr).
Defined.

(** C4.  The digest written by [finish] into the caller's 32-byte array is
    exactly 32 bytes: the big-endian bytes of the first four words of the
    final hash value, in order, on either path of the code (directly or
    through the aligned temporary); read back as big-endian numbers they
    are those four words.  The other four words do not appear. *)
Theorem digest_is_first_four_words (small unaligned : bool)
  (ctx : Sha512_256Ctx) (digest : list byte) (aligned : bool) :
  length (buffer ctx) = 128%nat →
  length digest = 32%nat →
  let final := H (fst (finish_pad small ctx)) in
  let out :=
    fst (fst (MHD_SHA512_256_finish small unaligned ctx digest aligned)) in
  out = _MHD_PUT_64BIT_BE (final !!! 0%nat) ++
        _MHD_PUT_64BIT_BE (final !!! 1%nat) ++
        _MHD_PUT_64BIT_BE (final !!! 2%nat) ++
        _MHD_PUT_64BIT_BE (final !!! 3%nat) ∧
  length out = 32%nat ∧
  ∀ i, (i < 4)%nat →
       FIPS.be_value (take 8 (drop (8 * i) out)) = final !!! i.
Proof.
  intros Hb Hd. cbv zeta. rewrite finish_eq. cbn [fst snd].
  rewrite finish_digest_eq by done.
  split; [done|]. split; [done|].
  pose proof (final_blocks_range small (H ctx) (buffered ctx)
                (count_bits_hi ctx) (count ctx)) as Hr.
  rewrite finish_pad_eq by done. cbn [fst H].
  set (final := foldl _ _ _) in *.
  assert (∀ i, 0 ≤ final !!! i < 2 ^ 64) as Hw.
  { intros i. destruct (decide (i < length final)%nat) as [Hi|Hi].
    - apply (Forall_lookup_total_1 _ _ i Hr Hi).
    - rewrite list_lookup_total_alt, lookup_ge_None_2 by lia. cbn. lia. }
  pose proof (length_PUT (final !!! 0%nat)) as L0.
  pose proof (length_PUT (final !!! 1%nat)) as L1.
  pose proof (length_PUT (final !!! 2%nat)) as L2.
  pose proof (length_PUT (final !!! 3%nat)) as L3.
  pose proof (be_value_PUT _ (Hw 0%nat)) as V0.
  pose proof (be_value_PUT _ (Hw 1%nat)) as V1.
  pose proof (be_value_PUT _ (Hw 2%nat)) as V2.
  pose proof (be_value_PUT _ (Hw 3%nat)) as V3.
  set (P0 := _MHD_PUT_64BIT_BE (final !!! 0%nat)) in *.
  set (P1 := _MHD_PUT_64BIT_BE (final !!! 1%nat)) in *.
  set (P2 := _MHD_PUT_64BIT_BE (final !!! 2%nat)) in *.
  set (P3 := _MHD_PUT_64BIT_BE (final !!! 3%nat)) in *.
  clearbody P0 P1 P2 P3.
  intros i Hi.
  destruct i as [|[|[|[|i]]]]; [| | | |lia].
  - by rewrite drop_0, take_app_length'.
  - by rewrite drop_app_length', take_app_length'.
  - change (8 * 2)%nat with (8 + 8)%nat.
    rewrite <- drop_drop, !drop_app_length' by done.
    by rewrite take_app_length'.
  - change (8 * 3)%nat with (8 + (8 + 8))%nat.
    rewrite <- !drop_drop, !drop_app_length' by done.
    by rewrite take_ge by lia.
Qed.

Lemma digest_is_first_four_words_witness :
  length (buffer (MHD_SHA512_256_init erased)) = 128%nat ∧
  length (replicate 32 x00) = 32%nat ∧
  length
    (fst (fst (MHD_SHA512_256_finish false false (MHD_SHA512_256_init erased)
                 (replicate 32 x00) true))) = 32%nat.
Proof.
  split; [reflexivity|]. split; [reflexivity|].
  apply (digest_is_first_four_words false false (MHD_SHA512_256_init erased)
           (replicate 32 x00) true); reflexivity.
Defined.

(** C3.  On a reachable context, [finish] hands to the transform: the
    buffered input bytes followed by the single byte 0x80; then, if and
    only if fewer than 16 bytes of the block remain after that byte, zeros
    up to the end of the block, and the transform runs on this block and a
    fresh block starts with 112 zeros; otherwise zeros up to the last 16
    bytes.  The last 16 bytes of the final block are the overflow counter
    and the byte counter shifted left by 3, each as a big-endian 64-bit
    word, which together read as the 128-bit number
    [count_bits_hi * 2^64 + count * 8]; the transform runs once more, on
    this final block. *)
Theorem finish_padding_protocol (small unaligned : bool)
  (ctx : Sha512_256Ctx) (digest : list byte) (aligned : bool) :
  reachable small ctx →
  let p := buffered ctx in
  let n := length p in
  let length16 :=
    _MHD_PUT_64BIT_BE (count_bits_hi ctx) ++
    _MHD_PUT_64BIT_BE (count ctx * 8) in
  let tr := snd (MHD_SHA512_256_finish small unaligned ctx digest aligned) in
  (n < 128)%nat ∧
  tr = (if decide (128 - (n + 1) < 16)%nat
        then [ p ++ [x80] ++ replicate (127 - n) x00;
               replicate 112 x00 ++ length16 ]
        else [ p ++ [x80] ++ replicate (111 - n) x00 ++ length16 ]) ∧
  Forall (λ block, length block = 128%nat) tr ∧
  FIPS.be_value length16 = count_bits_hi ctx * 2 ^ 64 + count ctx * 8 ∧
  H (fst (finish_pad small ctx)) =
    foldl (sha512_256_transform small) (H ctx) tr.
Proof.
  intros Hr. cbv zeta.
  destruct (reachable_ok small ctx Hr) as (Hb & Hc & Hhi).
  pose proof (buffered_length ctx Hb) as Hp.
  pose proof (Z.mod_pos_bound (count ctx) 128 ltac:(lia)) as Hn.
  assert (length (buffered ctx) < 128)%nat as Hlt by lia.
  rewrite finish_eq, finish_pad_eq by done. cbn [fst snd H].
  split; [done|].
  pose proof (final_blocks_length (buffered ctx) (count_bits_hi ctx)
                (count ctx) Hlt) as Hlen.
  unfold final_blocks, length_bytes in *. rewrite shl64_3 in * by done.
  split_and!.
  - destruct (decide (112 ≤ _)%nat), (decide (_ < 16)%nat); (done || lia).
  - done.
  - apply length_field_value; lia.
  - done.
Qed.

Lemma finish_padding_protocol_witness :
  reachable false (MHD_SHA512_256_init erased) ∧
  snd (MHD_SHA512_256_finish false false (MHD_SHA512_256_init erased)
         (replicate 32 x00) true) =
  [ [x80] ++ replicate 111 x00 ++
    _MHD_PUT_64BIT_BE 0 ++ _MHD_PUT_64BIT_BE 0 ].
Proof.
  assert (reachable false (MHD_SHA512_256_init erased)) as Hr
    by (apply reachable_init; reflexivity).
  split; [exact Hr|].
  exact (proj1 (proj2 (finish_padding_protocol false false
                         (MHD_SHA512_256_init erased)
                         (replicate 32 x00) true Hr))).
Defined.

(** C6.  After [init] and any number of [update] calls, the input supplied
    so far is the blocks already handed to the transform, each of 128
    bytes, followed by the bytes held in the buffer; the number of bytes
    not yet transformed is the number held in the buffer, equals the
    low-order byte counter mod 128, and is less than 128. *)
Theorem buffer_never_holds_full_block (small : bool)
  (ctx0 : Sha512_256Ctx) (chunks : list (list byte)) :
  length (buffer ctx0) = 128%nat →
  let ctx := fst (absorb small ctx0 chunks) in
  let tr := snd (absorb small ctx0 chunks) in
  let pending := total_length chunks - 128 * Z.of_nat (length tr) in
  Forall (λ block, length block = 128%nat) tr ∧
  concat tr ++ buffered ctx = concat chunks ∧
  pending = Z.of_nat (length (buffered ctx)) ∧
  pending = count ctx mod 128 ∧
  0 ≤ pending < 128.
Proof.
  intros Hb. cbv zeta.
  destruct (absorb_absorbed small ctx0 chunks Hb)
    as ((Hb' & Hc & Hhi) & Htr & Hbuf & _ & Hcnt).
  set (M := concat chunks) in *.
  pose proof (buffered_length _ Hb') as Hp.
  pose proof (Z.mod_pos_bound (count (absorb small ctx0 chunks).1) 128
                ltac:(lia)) as Hn.
  rewrite Htr, Hbuf, total_length_concat. fold M.
  assert (Z.of_nat (length M) - 128 * Z.of_nat (length (blocks M)) =
          Z.of_nat (length (rest M))) as Hpend.
  { rewrite length_blocks, length_rest.
    pose proof (Nat.div_mod_eq (length M) 128). lia. }
  rewrite Hpend. rewrite Hbuf in Hp.
  split_and!; [apply blocks_length|apply blocks_concat_rest|done|lia..].
Qed.

Lemma buffer_never_holds_full_block_witness :
  length (buffer erased) = 128%nat ∧
  count (fst (absorb false erased [replicate 100 x61; replicate 100 x62]))
    mod 128 = 72.
Proof.
  split; [reflexivity|].
  pose proof (buffer_never_holds_full_block false erased
                [replicate 100 x61; replicate 100 x62] eq_refl) as Hw.
  cbv zeta in Hw. destruct Hw as (_ & _ & _ & Hw & _).
  rewrite <- Hw. vm_compute. reflexivity.
Defined.

(** What [finish] makes of a context that has absorbed [M]. *)
Lemma finish_absorbed small unaligned M st1 st2 d1 d2 a1 a2 :
  absorbed small M st1 → absorbed small M st2 →
  count_bits_hi (fst st1) = count_bits_hi (fst st2) →
  length d1 = 32%nat → length d2 = 32%nat →
  MHD_SHA512_256_finish small unaligned (fst st1) d1 a1 =
  MHD_SHA512_256_finish small unaligned (fst st2) d2 a2.
Proof.
  intros ((Hb1 & _) & _ & Hp1 & HH1 & Hc1) ((Hb2 & _) & _ & Hp2 & HH2 & Hc2)
    Hhi Hd1 Hd2.
  rewrite !finish_eq, !finish_digest_eq, !finish_pad_eq by done.
  cbn [fst snd H].
  by rewrite Hp1, Hp2, HH1, HH2, Hc1, Hc2, Hhi.
Qed.

(** C7.  Over any sequence of [update] calls that supplies fewer than
    [2^64] bytes in all, or whose calls take at most [2^64 - 2^61] bytes
    each (more than any object of a 64-bit address space) and fewer than
    [2^125] bytes in all (a bit length that fits the 128-bit field), the
    low-order counter holds the total modulo [2^61] and the overflow
    counter the total divided by [2^61]: together they are the exact
    number of bytes absorbed.  At finalization the last 16 bytes of the
    final block are the overflow counter and the byte counter times 8 as
    two big-endian 64-bit words, and read as one 128-bit big-endian
    number they are the exact length of the message in bits. *)
Theorem byte_counters_lossless (small : bool)
  (ctx0 : Sha512_256Ctx) (chunks : list (list byte)) :
  length (buffer ctx0) = 128%nat →
  total_length chunks < 2 ^ 64 ∨
    Forall (λ data, Z.of_nat (length data) ≤ 2 ^ 64 - 2 ^ 61) chunks →
  total_length chunks < 2 ^ 125 →
  let ctx := fst (absorb small ctx0 chunks) in
  let final := default [] (last (snd (finish_pad small ctx))) in
  count ctx = total_length chunks mod 2 ^ 61 ∧
  count_bits_hi ctx = total_length chunks / 2 ^ 61 ∧
  count_bits_hi ctx * 2 ^ 61 + count ctx = total_length chunks ∧
  0 ≤ count ctx < 2 ^ 61 ∧
  0 ≤ count_bits_hi ctx < 2 ^ 64 ∧
  drop 112 final =
    _MHD_PUT_64BIT_BE (count_bits_hi ctx) ++
    _MHD_PUT_64BIT_BE (count ctx * 8) ∧
  length_field final = 8 * total_length chunks.
Proof.
  intros Hb Hf Ht. cbv zeta.
  destruct (absorb_absorbed small ctx0 chunks Hb)
    as ((Hb' & Hc & Hhi) & _ & _ & _ & Hcnt).
  assert (0 ≤ total_length chunks) as H0
    by (rewrite total_length_concat; lia).
  assert (no_wrap 0 chunks) as Hnw.
  { destruct Hf; [apply no_wrap_total; lia|by apply no_wrap_chunks]. }
  pose proof (absorb_hi small ctx0 chunks Hb Hnw) as Hhi'.
  rewrite <- total_length_concat in Hcnt.
  assert (0 ≤ total_length chunks / 2 ^ 61 < 2 ^ 64) as Hq.
  { split; [apply Z.div_pos; lia|].
    apply Z.div_lt_upper_bound; [lia|].
    change (2 ^ 61 * 2 ^ 64) with (2 ^ 125). lia. }
  rewrite Z.mod_small in Hhi' by done.
  set (ctx := fst (absorb small ctx0 chunks)) in *.
  pose proof (Z.div_mod (total_length chunks) (2 ^ 61) ltac:(lia)) as Hdm.
  assert (drop 112 (default [] (last (snd (finish_pad small ctx)))) =
          _MHD_PUT_64BIT_BE (count_bits_hi ctx) ++
          _MHD_PUT_64BIT_BE (count ctx * 8)) as Hlast.
  { pose proof (buffered_length ctx Hb') as Hp.
    pose proof (Z.mod_pos_bound (count ctx) 128 ltac:(lia)) as Hn.
    rewrite finish_pad_eq by done. cbn [snd].
    unfold final_blocks, length_bytes. rewrite shl64_3 by done.
    destruct (decide _); cbn [last default]; unfold id.
    - by rewrite drop_app_length' by (by rewrite length_replicate).
    - rewrite !app_assoc, <- (app_assoc _ (_MHD_PUT_64BIT_BE _)).
      rewrite drop_app_length'; [done|].
      rewrite !length_app, length_replicate. cbn [length]. lia. }
  split_and!; try lia; try done.
  unfold length_field. rewrite Hlast, length_field_value by lia. lia.
Qed.

Lemma byte_counters_lossless_witness :
  length (buffer erased) = 128%nat ∧
  (total_length [replicate 100 x61; replicate 100 x62] < 2 ^ 64 ∨
   Forall (λ data, Z.of_nat (length data) ≤ 2 ^ 64 - 2 ^ 61)
     [replicate 100 x61; replicate 100 x62]) ∧
  total_length [replicate 100 x61; replicate 100 x62] < 2 ^ 125 ∧
  length_field
    (default []
       (last (snd (finish_pad true
                     (fst (absorb true erased
                             [replicate 100 x61; replicate 100 x62]))))))
  = 1600.
Proof.
  assert (total_length [replicate 100 x61; replicate 100 x62] < 2 ^ 64)
    as Hf by (vm_compute; reflexivity).
  assert (total_length [replicate 100 x61; replicate 100 x62] < 2 ^ 125)
    as Ht by (vm_compute; reflexivity).
  split; [reflexivity|]. split; [left; exact Hf|]. split; [exact Ht|].
  pose proof (byte_counters_lossless true erased
                [replicate 100 x61; replicate 100 x62] eq_refl
                (or_introl Hf) Ht) as Hw.
  cbv zeta in Hw. destruct Hw as (_ & _ & _ & _ & _ & _ & Hw).
  rewrite Hw. vm_compute. reflexivity.
Defined.

(** C5.  For every byte sequence that one [update] call can take (its
    length is a [size_t]) and every way of cutting it into consecutive
    chunks, [init], one [update] per chunk and [finish] write the same 32
    bytes, leave the same context and make the same final calls of the
    transform as [init], one [update] with the whole sequence and
    [finish]; what the context and the digest array held before does not
    matter. *)
Theorem chunking_invariance (small unaligned : bool)
  (ctx1 ctx2 : Sha512_256Ctx) (chunks : list (list byte))
  (digest1 digest2 : list byte) (aligned1 aligned2 : bool) :
  length (buffer ctx1) = 128%nat → length (buffer ctx2) = 128%nat →
  length digest1 = 32%nat → length digest2 = 32%nat →
  Z.of_nat (length (concat chunks)) < 2 ^ 64 →
  MHD_SHA512_256_finish small unaligned
    (fst (absorb small ctx1 chunks)) digest1 aligned1 =
  MHD_SHA512_256_finish small unaligned
    (fst (MHD_SHA512_256_update small (MHD_SHA512_256_init ctx2)
            (concat chunks))) digest2 aligned2.
Proof.
  intros Hb1 Hb2 Hd1 Hd2 Hlen.
  set (M := concat chunks) in *.
  assert (fst (MHD_SHA512_256_update small (MHD_SHA512_256_init ctx2) M) =
          fst (absorb small ctx2 [M])) as ->.
  { unfold absorb. cbn [foldl fst snd].
    by destruct (MHD_SHA512_256_update small (MHD_SHA512_256_init ctx2) M). }
  assert (concat [M] = M) as HM by (cbn; by rewrite app_nil_r).
  pose proof (absorb_absorbed small ctx1 chunks Hb1) as Ha1.
  pose proof (absorb_absorbed small ctx2 [M] Hb2) as Ha2.
  rewrite HM in Ha2. fold M in Ha1.
  assert (total_length [M] = total_length chunks) as Ht
    by (by rewrite !total_length_concat, HM).
  assert (total_length chunks < 2 ^ 64) as Hlt
    by (rewrite total_length_concat; fold M; lia).
  apply (finish_absorbed small unaligned M); try done.
  rewrite (absorb_hi small ctx1 chunks Hb1), (absorb_hi small ctx2 [M] Hb2).
  - by rewrite Ht.
  - apply no_wrap_total; lia.
  - apply no_wrap_total; lia.
Qed.

Lemma chunking_invariance_witness :
  length (buffer erased) = 128%nat ∧
  length (replicate 32 x00) = 32%nat ∧
  Z.of_nat (length (concat [[x61]; [x62]; [x63]])) < 2 ^ 64 ∧
  MHD_SHA512_256_finish false false
    (fst (absorb false erased [[x61]; [x62]; [x63]]))
    (replicate 32 x00) true =
  MHD_SHA512_256_finish false false
    (fst (MHD_SHA512_256_update false (MHD_SHA512_256_init erased)
            [x61; x62; x63])) (replicate 32 x00) true.
Proof.
  split; [reflexivity|]. split; [reflexivity|].
  split; [vm_compute; reflexivity|].
  apply (chunking_invariance false false erased erased
           [[x61]; [x62]; [x63]] (replicate 32 x00) (replicate 32 x00)
           true true); try reflexivity.
Defined.

(** C2.  For every state and every 128-byte block, both builds of
    [sha512_256_transform] return what the compression function of the
    standard returns: the block read as 16 big-endian words, the schedule
    extended to 80 words by
    [W[t] = W[t-16] + sigma1 (W[t-2]) + W[t-7] + sigma0 (W[t-15])] modulo
    [2^64], 80 rounds on the eight working variables, and the working
    variables added to the state modulo [2^64].  The words that the code
    computes on its 16-slot cyclic buffer are, step by step, the 80 words
    of that schedule. *)
Theorem transform_is_FIPS_compression (small : bool)
  (h : list Z) (block : list byte) :
  length block = 128%nat →
  sha512_256_transform small h block = FIPS.compress h block ∧
  rolling_schedule block = FIPS.schedule block.
Proof.
  intros Hb. split.
  - by apply transform_FIPS.
  - by apply rolling_schedule_FIPS.
Qed.

Lemma transform_is_FIPS_compression_witness :
  length (x80 :: replicate 127 x00) = 128%nat ∧
  sha512_256_transform false FIPS.IV_512_256 (x80 :: replicate 127 x00) =
  FIPS.compress FIPS.IV_512_256 (x80 :: replicate 127 x00).
Proof.
  split; [reflexivity|].
  apply (transform_is_FIPS_compression false FIPS.IV_512_256
           (x80 :: replicate 127 x00)).
  reflexivity.
Defined.

(** C1, as the code has it.  For a context created by [init], [finish]
    after no [update] at all, or after one [update] without data, writes
    the SHA-512/256 digest of the empty message as the standard defines
    it, whose 64 hexadecimal digits are
    c672b8d1ef56ed28ab87c3622c5114069bdd3ad7b8f9737498d0c01ecef0967a:
    the text in the specification stops one digit short. *)
Theorem empty_message_digest (small unaligned : bool)
  (ctx0 : Sha512_256Ctx) (digest : list byte) (aligned : bool) :
  length (buffer ctx0) = 128%nat →
  length digest = 32%nat →
  let ctx := MHD_SHA512_256_init ctx0 in
  let out :=
    fst (fst (MHD_SHA512_256_finish small unaligned ctx digest aligned)) in
  let out' :=
    fst (fst (MHD_SHA512_256_finish small unaligned
                (fst (MHD_SHA512_256_update small ctx [])) digest aligned)) in
  out = FIPS_sha512_256 [] ∧
  hex out
  = "c672b8d1ef56ed28ab87c3622c5114069bdd3ad7b8f9737498d0c01ecef0967a"%string
  ∧ out' = out.
Proof.
  intros Hb Hd. cbv zeta.
  rewrite update_nil by (by apply init_ok). cbn [fst].
  rewrite finish_eq. cbn [fst].
  rewrite finish_digest_eq, finish_pad_eq by done. cbn [fst H].
  assert (buffered (MHD_SHA512_256_init ctx0) = []) as -> by reflexivity.
  cbn [MHD_SHA512_256_init set_H set_count set_count_bits_hi
       H count count_bits_hi].
  destruct small; split_and!; vm_compute; reflexivity.
Qed.

Lemma empty_message_digest_witness :
  length (buffer erased) = 128%nat ∧
  length (replicate 32 x00) = 32%nat ∧
  hex (fst (fst (MHD_SHA512_256_finish false false
                   (MHD_SHA512_256_init erased) (replicate 32 x00) true)))
  = "c672b8d1ef56ed28ab87c3622c5114069bdd3ad7b8f9737498d0c01ecef0967a"%string.
Proof.
  split; [reflexivity|]. split; [reflexivity|].
  apply (proj1 (proj2 (empty_message_digest false false erased
                         (replicate 32 x00) true eq_refl eq_refl))).
Defined.

(** C1, as the specification words it, fails: the digest of the empty
    message is not the 63-digit text of the specification. *)
Lemma empty_message_digest_not_spec_text :
  hex (fst (fst (MHD_SHA512_256_finish false false
                   (MHD_SHA512_256_init erased) (replicate 32 x00) true)))
  ≠ "c672b8d1ef56ed28ab87c3622c5114069bdd3ad7b8f9737498d0c01ecef0967"%string.
Proof. vm_compute. discriminate. Qed.

(** ** Further properties of the code *)

(** X3.  From [init] to [finish] the blocks handed to the transform,
    one after the other, are the message followed by the padding of
    the standard: nothing else is hashed, every block has 128 bytes, and
    a message of [n] bytes costs [(n + 144) / 128] calls of the
    transform.  This holds for fewer than [2^64] bytes in all, and for
    calls of at most [2^64 - 2^61] bytes each with fewer than [2^125]
    bytes in all. *)
Theorem trace_is_padded_message (small unaligned : bool)
  (ctx0 : Sha512_256Ctx) (chunks : list (list byte))
  (digest : list byte) (aligned : bool) :
  length (buffer ctx0) = 128%nat →
  total_length chunks < 2 ^ 64 ∨
    Forall (λ data, Z.of_nat (length data) ≤ 2 ^ 64 - 2 ^ 61) chunks →
  total_length chunks < 2 ^ 125 →
  let st := absorb small ctx0 chunks in
  let tr :=
    snd st ++
    snd (MHD_SHA512_256_finish small unaligned (fst st) digest aligned) in
  concat tr = FIPS.pad (concat chunks) ∧
  Forall (λ block, length block = 128%nat) tr ∧
  Z.of_nat (length tr) = (total_length chunks + 144) / 128.
Proof.
  intros Hb Hnw Ht. cbv zeta.
  rewrite (whole_trace small unaligned ctx0 chunks digest aligned Hb Hnw Ht).
  set (P := FIPS.pad (concat chunks)).
  split_and!.
  - pose proof (blocks_concat_rest P) as HP.
    unfold P in HP at 2. rewrite rest_pad, app_nil_r in HP. exact HP.
  - apply blocks_length.
  - rewrite length_blocks, Nat2Z.inj_div. unfold P.
    rewrite length_pad, total_length_concat.
    rewrite Z.mul_comm, Z.div_mul by lia. reflexivity.
Qed.

Lemma trace_is_padded_message_witness :
  length (buffer erased) = 128%nat ∧
  (total_length [replicate 100 x61; replicate 100 x62] < 2 ^ 64 ∨
   Forall (λ data, Z.of_nat (length data) ≤ 2 ^ 64 - 2 ^ 61)
     [replicate 100 x61; replicate 100 x62]) ∧
  total_length [replicate 100 x61; replicate 100 x62] < 2 ^ 125 ∧
  Z.of_nat
    (length
       (snd (absorb false erased [replicate 100 x61; replicate 100 x62]) ++
        snd (MHD_SHA512_256_finish false false
               (fst (absorb false erased
                       [replicate 100 x61; replicate 100 x62]))
               (replicate 32 x00) true))) = 2.
Proof.
  assert (total_length [replicate 100 x61; replicate 100 x62] < 2 ^ 64)
    as Hf by (vm_compute; reflexivity).
  assert (total_length [replicate 100 x61; replicate 100 x62] < 2 ^ 125)
    as Ht by (vm_compute; reflexivity).
  split; [reflexivity|]. split; [left; exact Hf|]. split; [exact Ht|].
  pose proof (trace_is_padded_message false false erased
                [replicate 100 x61; replicate 100 x62]
                (replicate 32 x00) true eq_refl (or_introl Hf) Ht) as Hw.
  cbv zeta in Hw. destruct Hw as (_ & _ & Hw).
  rewrite Hw. vm_compute. reflexivity.
Defined.

(** X4.  Two messages are never hashed as the same blocks: if from
    [init] to [finish] the transform is handed the same sequence of
    blocks for two inputs (of fewer than [2^64] bytes each), the two
    inputs are the same bytes. *)
Theorem padded_trace_determines_message (small unaligned : bool)
  (ctx1 ctx2 : Sha512_256Ctx) (chunks1 chunks2 : list (list byte))
  (digest1 digest2 : list byte) (aligned1 aligned2 : bool) :
  length (buffer ctx1) = 128%nat → length (buffer ctx2) = 128%nat →
  total_length chunks1 < 2 ^ 64 → total_length chunks2 < 2 ^ 64 →
  snd (absorb small ctx1 chunks1) ++
    snd (MHD_SHA512_256_finish small unaligned
           (fst (absorb small ctx1 chunks1)) digest1 aligned1) =
  snd (absorb small ctx2 chunks2) ++
    snd (MHD_SHA512_256_finish small unaligned
           (fst (absorb small ctx2 chunks2)) digest2 aligned2) →
  concat chunks1 = concat chunks2.
Proof.
  intros Hb1 Hb2 Ht1 Ht2.
  rewrite !whole_trace by (done || (by left) || lia).
  intros Heq. apply (f_equal (@concat byte)) in Heq.
  pose proof (blocks_concat_rest (FIPS.pad (concat chunks1))) as HP1.
  pose proof (blocks_concat_rest (FIPS.pad (concat chunks2))) as HP2.
  rewrite rest_pad, app_nil_r in HP1, HP2.
  rewrite HP1, HP2 in Heq.
  rewrite total_length_concat in Ht1, Ht2.
  apply pad_inj; (done || lia).
Qed.

Lemma padded_trace_determines_message_witness :
  length (buffer erased) = 128%nat ∧
  total_length [[x61]; [x62; x63]] < 2 ^ 64 ∧
  total_length [[x61; x62]; [x63]] < 2 ^ 64 ∧
  concat [[x61]; [x62; x63]] = concat [[x61; x62]; [x63]].
Proof.
  assert (total_length [[x61]; [x62; x63]] < 2 ^ 64) as Ht1
    by (vm_compute; reflexivity).
  assert (total_length [[x61; x62]; [x63]] < 2 ^ 64) as Ht2
    by (vm_compute; reflexivity).
  split; [reflexivity|]. split; [exact Ht1|]. split; [exact Ht2|].
  apply (padded_trace_determines_message false false erased erased
           [[x61]; [x62; x63]] [[x61; x62]; [x63]]
           (replicate 32 x00) (replicate 32 x00) true true
           eq_refl eq_refl Ht1 Ht2).
  vm_compute. reflexivity.
Defined.

(** X5.  After [init] and any [update] calls, whatever the number of
    bytes, the blocks handed to the transform are the complete 128-byte
    blocks of the input so far, and the eight state words are what the
    compression function of the standard makes of these blocks, started
    from the initial hash value of SHA-512/256: the intermediate hash
    value of the standard. *)
Theorem running_state_is_intermediate_hash (small : bool)
  (ctx0 : Sha512_256Ctx) (chunks : list (list byte)) :
  length (buffer ctx0) = 128%nat →
  let st := absorb small ctx0 chunks in
  snd st = blocks (concat chunks) ∧
  buffered (fst st) = rest (concat chunks) ∧
  H (fst st) =
    foldl FIPS.compress FIPS.IV_512_256 (blocks (concat chunks)).
Proof.
  intros Hb. cbv zeta.
  destruct (absorb_absorbed small ctx0 chunks Hb)
    as (_ & Htr & Hbuf & HH & _).
  split; [exact Htr|]. split; [exact Hbuf|].
  rewrite HH. apply foldl_transform_FIPS, blocks_length.
Qed.

Lemma running_state_is_intermediate_hash_witness :
  length (buffer erased) = 128%nat ∧
  snd (absorb false erased [replicate 100 x61; replicate 100 x62]) =
  blocks (concat [replicate 100 x61; replicate 100 x62]).
Proof.
  split; [reflexivity|].
  exact (proj1 (running_state_is_intermediate_hash false erased
                  [replicate 100 x61; replicate 100 x62] eq_refl)).
Defined.

(** X6.  [update] composes: on a context as [init] and [update] leave
    it, two calls in a row hand to the transform the blocks that one
    call with the two pieces joined hands over, and leave the same hash
    value, the same input bytes in the buffer and the same counters,
    provided the bytes of the two calls do not take the 64-bit byte
    counter past [2^64]. *)
Theorem update_composes (small : bool) (ctx : Sha512_256Ctx)
  (data1 data2 : list byte) :
  ctx_ok ctx →
  count ctx + Z.of_nat (length data1) + Z.of_nat (length data2) < 2 ^ 64 →
  let r1 := MHD_SHA512_256_update small ctx data1 in
  let r2 := MHD_SHA512_256_update small (fst r1) data2 in
  let r := MHD_SHA512_256_update small ctx (data1 ++ data2) in
  snd r1 ++ snd r2 = snd r ∧
  state_of (fst r2) = state_of (fst r).
Proof.
  intros Hok Hlen. cbv zeta.
  pose proof (update_ok small ctx data1 Hok) as Hok1.
  destruct (update_spec small ctx data1 Hok)
    as (Htr1 & Hbuf1 & HH1 & Hc1 & Hhi1 & _).
  destruct (update_spec small _ data2 Hok1)
    as (Htr2 & Hbuf2 & HH2 & Hc2 & Hhi2 & _).
  destruct (update_spec small ctx (data1 ++ data2) Hok)
    as (Htr & Hbuf & HH & Hc & Hhi & _).
  destruct Hok as (_ & Hcnt & _).
  assert (snd (MHD_SHA512_256_update small ctx data1) ++
          snd (MHD_SHA512_256_update small
                 (fst (MHD_SHA512_256_update small ctx data1)) data2) =
          snd (MHD_SHA512_256_update small ctx (data1 ++ data2))) as Happ.
  { rewrite Htr2, Hbuf1, Htr1, Htr, app_assoc.
    symmetry. apply (blocks_app (buffered ctx ++ data1) data2). }
  split; [exact Happ|].
  unfold state_of. f_equal; [f_equal; [f_equal|]|].
  - by rewrite HH2, HH1, HH, <- Happ, foldl_app.
  - rewrite Hbuf2, Hbuf1, Hbuf, app_assoc.
    symmetry. apply (rest_app (buffered ctx ++ data1) data2).
  - rewrite Hc2, Hc1, Hc, length_app, Nat2Z.inj_add.
    apply count_after_twice.
  - rewrite Hhi2, Hhi1, Hc1, Hhi, length_app, Nat2Z.inj_add.
    apply count_bits_hi_after_twice; lia.
Qed.

Lemma update_composes_witness :
  ctx_ok (MHD_SHA512_256_init erased) ∧
  count (MHD_SHA512_256_init erased) + Z.of_nat (length (replicate 100 x61))
    + Z.of_nat (length (replicate 100 x62)) < 2 ^ 64 ∧
  snd (MHD_SHA512_256_update false (MHD_SHA512_256_init erased)
         (replicate 100 x61)) ++
  snd (MHD_SHA512_256_update false
         (fst (MHD_SHA512_256_update false (MHD_SHA512_256_init erased)
                 (replicate 100 x61))) (replicate 100 x62)) =
  snd (MHD_SHA512_256_update false (MHD_SHA512_256_init erased)
         (replicate 100 x61 ++ replicate 100 x62)).
Proof.
  assert (ctx_ok (MHD_SHA512_256_init erased)) as Hok
    by (by apply init_ok).
  assert (count (MHD_SHA512_256_init erased)
          + Z.of_nat (length (replicate 100 x61))
          + Z.of_nat (length (replicate 100 x62)) < 2 ^ 64) as Hlen
    by (vm_compute; reflexivity).
  split; [exact Hok|]. split; [exact Hlen|].
  exact (proj1 (update_composes false (MHD_SHA512_256_init erased)
                  (replicate 100 x61) (replicate 100 x62) Hok Hlen)).
Defined.

(** X7.  The entry points read of a context only its hash value, the
    input bytes held in its buffer and its two counters: the bytes of
    the buffer behind the input bytes, left over from earlier blocks (or
    from before [init], which does not clear the buffer), are never
    read.  Two contexts that agree on the former get the same digest,
    the same blocks handed to the transform, and agree again after an
    [update]. *)
Theorem leftover_buffer_bytes_are_never_read (small unaligned : bool)
  (ctx1 ctx2 : Sha512_256Ctx) (data digest : list byte) (aligned : bool) :
  ctx_ok ctx1 → ctx_ok ctx2 →
  state_of ctx1 = state_of ctx2 →
  length digest = 32%nat →
  MHD_SHA512_256_finish small unaligned ctx1 digest aligned =
    MHD_SHA512_256_finish small unaligned ctx2 digest aligned ∧
  snd (MHD_SHA512_256_update small ctx1 data) =
    snd (MHD_SHA512_256_update small ctx2 data) ∧
  state_of (fst (MHD_SHA512_256_update small ctx1 data)) =
    state_of (fst (MHD_SHA512_256_update small ctx2 data)).
Proof.
  intros Hok1 Hok2 (HH & Hp & Hc & Hhi)%state_of_inv Hd.
  destruct (update_spec small ctx1 data Hok1)
    as (Htr1 & Hbuf1 & HH1 & Hc1 & Hhi1 & _).
  destruct (update_spec small ctx2 data Hok2)
    as (Htr2 & Hbuf2 & HH2 & Hc2 & Hhi2 & _).
  destruct Hok1 as (Hb1 & _), Hok2 as (Hb2 & _).
  split_and!.
  - rewrite !finish_eq, !finish_digest_eq, !finish_pad_eq by done.
    cbn [fst snd H]. by rewrite HH, Hp, Hc, Hhi.
  - by rewrite Htr1, Htr2, Hp.
  - unfold state_of.
    by rewrite Hbuf1, Hbuf2, HH1, HH2, Hc1, Hc2, Hhi1, Hhi2,
         Htr1, Htr2, HH, Hp, Hc, Hhi.
Qed.

Lemma leftover_buffer_bytes_are_never_read_witness :
  ctx_ok (MHD_SHA512_256_init erased) ∧
  ctx_ok (MHD_SHA512_256_init
            (mkCtx [] (replicate 128 xff) 7 7)) ∧
  MHD_SHA512_256_finish false false (MHD_SHA512_256_init erased)
    (replicate 32 x00) true =
  MHD_SHA512_256_finish false false
    (MHD_SHA512_256_init (mkCtx [] (replicate 128 xff) 7 7))
    (replicate 32 x00) true.
Proof.
  assert (ctx_ok (MHD_SHA512_256_init erased)) as Hok1
    by (by apply init_ok).
  assert (ctx_ok (MHD_SHA512_256_init (mkCtx [] (replicate 128 xff) 7 7)))
    as Hok2 by (by apply init_ok).
  split; [exact Hok1|]. split; [exact Hok2|].
  exact (proj1 (leftover_buffer_bytes_are_never_read false false
                  (MHD_SHA512_256_init erased)
                  (MHD_SHA512_256_init (mkCtx [] (replicate 128 xff) 7 7))
                  [] (replicate 32 x00) true Hok1 Hok2 eq_refl eq_refl)).
Defined.

(** X8.  The build option [MHD_FAVOR_SMALL_CODE] changes nothing that
    can be observed: on a context as [init] and [update] leave it,
    [update] returns the same context and hands the same blocks to the
    transform in both builds, and [finish] writes the same digest, hands
    over the same blocks and leaves the same context, whichever way the
    digest is stored. *)
Theorem build_options_are_unobservable (ctx : Sha512_256Ctx)
  (data digest : list byte) (unaligned unaligned' aligned aligned' : bool) :
  ctx_ok ctx →
  length digest = 32%nat →
  MHD_SHA512_256_update true ctx data =
    MHD_SHA512_256_update false ctx data ∧
  MHD_SHA512_256_finish true unaligned ctx digest aligned =
    MHD_SHA512_256_finish false unaligned' ctx digest aligned'.
Proof.
  intros Hok Hd. split.
  - destruct data as [|x data].
    + by rewrite !update_nil.
    + rewrite !update_halves. cbn [length negb andb].
      destruct (0 =? Z.of_nat (S (length data))) eqn:E;
        [apply Z.eqb_eq in E; lia|].
      cbn [andb]. apply update_data_build.
  - destruct Hok as (Hb & _).
    rewrite !finish_eq, !finish_digest_eq, !finish_pad_eq by done.
    cbn [fst snd H]. by rewrite foldl_transform_build.
Qed.

Lemma build_options_are_unobservable_witness :
  ctx_ok (MHD_SHA512_256_init erased) ∧
  length (replicate 32 x00) = 32%nat ∧
  MHD_SHA512_256_update true (MHD_SHA512_256_init erased) [x61; x62; x63] =
  MHD_SHA512_256_update false (MHD_SHA512_256_init erased) [x61; x62; x63].
Proof.
  assert (ctx_ok (MHD_SHA512_256_init erased)) as Hok
    by (by apply init_ok).
  split; [exact Hok|]. split; [reflexivity|].
  exact (proj1 (build_options_are_unobservable (MHD_SHA512_256_init erased)
                  [x61; x62; x63] (replicate 32 x00) false false true true
                  Hok eq_refl)).
Defined.

(** X9.  The block may lie at any address: when the build does not
    allow unaligned loads and the block is not aligned, the transform
    copies it into [W] and reads it from there, in the small build with
    big-endian loads from [W] itself, in the default build with plain
    reads of [W] on a big-endian host and with loads from [W] on a
    little-endian one.  In every one of these cases the result is that
    of the transform on an aligned block, the compression function of
    the standard. *)
Theorem transform_any_alignment (small allow_unaligned big_endian : bool)
  (h : list Z) (block : list byte) (aligned : bool) :
  length block = 128%nat →
  sha512_256_transform_at small allow_unaligned big_endian h block aligned =
    sha512_256_transform small h block ∧
  sha512_256_transform_at small allow_unaligned big_endian h block aligned =
    FIPS.compress h block.
Proof.
  intros Hb. split.
  - rewrite transform_at_FIPS by done. symmetry. by apply transform_FIPS.
  - by apply transform_at_FIPS.
Qed.

Lemma transform_any_alignment_witness :
  length (x80 :: replicate 127 x00) = 128%nat ∧
  sha512_256_transform_at false false false FIPS.IV_512_256
    (x80 :: replicate 127 x00) false =
  FIPS.compress FIPS.IV_512_256 (x80 :: replicate 127 x00).
Proof.
  split; [reflexivity|].
  apply (transform_any_alignment false false false FIPS.IV_512_256
           (x80 :: replicate 127 x00) false).
  reflexivity.
Defined.

(** X10.  An [update] with too few bytes to complete a block only copies
    them: on a context as [init] and [update] leave it, holding [n]
    bytes, data of fewer than [128 - n] bytes are stored behind the [n]
    bytes, the rest of the buffer and the hash value stay as they are,
    the transform is not called, and the counters advance by the number
    of bytes. *)
Theorem update_short_input_is_only_buffered (small : bool)
  (ctx : Sha512_256Ctx) (data : list byte) :
  ctx_ok ctx →
  count ctx mod 128 + Z.of_nat (length data) < 128 →
  let n := Z.to_nat (count ctx mod 128) in
  let total := count ctx + Z.of_nat (length data) in
  MHD_SHA512_256_update small ctx data =
  (mkCtx (H ctx)
     (take n (buffer ctx) ++ data ++ drop (n + length data) (buffer ctx))
     (total mod 2 ^ 61)
     ((count_bits_hi ctx + total / 2 ^ 61) mod 2 ^ 64),
   []).
Proof.
  intros (Hb & Hc & Hhi) Hlen. cbv zeta.
  pose proof (Z.mod_pos_bound (count ctx) 128 ltac:(lia)) as Hn.
  destruct data as [|x data].
  { rewrite update_nil by done. cbn [length app].
    rewrite Nat.add_0_r, take_drop, Z.add_0_r.
    rewrite (Z.mod_small (count ctx)), Z.div_small, Z.add_0_r by lia.
    rewrite Z.mod_small by lia. by destruct ctx. }
  rewrite update_halves.
  destruct (0 =? Z.of_nat (length (x :: data))) eqn:E;
    [apply Z.eqb_eq in E; cbn in E; lia|].
  rewrite andb_false_r, land127, update_counters_spec by lia.
  rewrite update_data_short by (done || lia).
  cbn [H buffer count count_bits_hi].
  unfold count_after, count_bits_hi_after.
  by rewrite (Z.mod_small (count ctx + _) (2 ^ 64)) by lia.
Qed.

Lemma update_short_input_is_only_buffered_witness :
  ctx_ok (MHD_SHA512_256_init erased) ∧
  count (MHD_SHA512_256_init erased) mod 128
    + Z.of_nat (length [x61; x62; x63]) < 128 ∧
  snd (MHD_SHA512_256_update false (MHD_SHA512_256_init erased)
         [x61; x62; x63]) = [].
Proof.
  assert (ctx_ok (MHD_SHA512_256_init erased)) as Hok
    by (by apply init_ok).
  assert (count (MHD_SHA512_256_init erased) mod 128
          + Z.of_nat (length [x61; x62; x63]) < 128) as Hlen
    by (vm_compute; reflexivity).
  split; [exact Hok|]. split; [exact Hlen|].
  exact (f_equal snd (update_short_input_is_only_buffered false
                        (MHD_SHA512_256_init erased) [x61; x62; x63]
                        Hok Hlen)).
Defined.

(** X11.  With no byte held in the buffer, [update] hands the complete
    blocks of its data to the transform from where they lie, without
    copying them: only the bytes behind the last complete block are
    copied, to the start of the buffer.  Data of a whole number of
    blocks leave the buffer as it was. *)
Theorem update_full_blocks_bypass_buffer (small : bool)
  (ctx : Sha512_256Ctx) (data : list byte) :
  ctx_ok ctx →
  count ctx mod 128 = 0 →
  let r := MHD_SHA512_256_update small ctx data in
  snd r = blocks data ∧
  H (fst r) = foldl (sha512_256_transform small) (H ctx) (blocks data) ∧
  buffer (fst r) = rest data ++ drop (length (rest data)) (buffer ctx) ∧
  ((length data mod 128 = 0)%nat → buffer (fst r) = buffer ctx).
Proof.
  intros (Hb & Hc & Hhi) Hn. cbv zeta.
  destruct data as [|x data].
  { rewrite update_nil by done. cbn [fst snd].
    rewrite blocks_short, rest_short by (cbn; lia).
    cbn [foldl app length]. by rewrite drop_0. }
  rewrite update_halves.
  destruct (0 =? Z.of_nat (length (x :: data))) eqn:E;
    [apply Z.eqb_eq in E; cbn in E; lia|].
  rewrite andb_false_r, land127, Hn, update_counters_spec by lia.
  rewrite update_data_aligned. cbn [fst snd H buffer].
  split; [done|]. split; [done|]. split; [done|].
  intros Hm. pose proof (length_rest (x :: data)) as Hl.
  rewrite Hm in Hl. destruct (rest (x :: data)); [|done].
  by rewrite drop_0.
Qed.

Lemma update_full_blocks_bypass_buffer_witness :
  ctx_ok (MHD_SHA512_256_init erased) ∧
  count (MHD_SHA512_256_init erased) mod 128 = 0 ∧
  snd (MHD_SHA512_256_update false (MHD_SHA512_256_init erased)
         (replicate 128 x61)) = blocks (replicate 128 x61).
Proof.
  assert (ctx_ok (MHD_SHA512_256_init erased)) as Hok
    by (by apply init_ok).
  split; [exact Hok|]. split; [reflexivity|].
  exact (proj1 (update_full_blocks_bypass_buffer false
                  (MHD_SHA512_256_init erased) (replicate 128 x61)
                  Hok eq_refl)).
Defined.

(** X12.  [finish] writes the first 32 bytes of the array it is given
    and nothing behind them: whatever the array holds from byte 32 on
    is still there afterwards, on either path of the code. *)
Theorem finish_writes_only_32_bytes (small unaligned : bool)
  (ctx : Sha512_256Ctx) (digest : list byte) (aligned : bool) :
  (32 ≤ length digest)%nat →
  let final := H (fst (finish_pad small ctx)) in
  let out :=
    fst (fst (MHD_SHA512_256_finish small unaligned ctx digest aligned)) in
  take 32 out =
    _MHD_PUT_64BIT_BE (final !!! 0%nat) ++
    _MHD_PUT_64BIT_BE (final !!! 1%nat) ++
    _MHD_PUT_64BIT_BE (final !!! 2%nat) ++
    _MHD_PUT_64BIT_BE (final !!! 3%nat) ∧
  drop 32 out = drop 32 digest ∧
  length out = length digest.
Proof.
  intros Hd. cbv zeta. rewrite finish_eq. cbn [fst].
  set (ctx' := fst (finish_pad small ctx)).
  set (out := _ ++ _ ++ _ ++ _).
  assert (length out = 32%nat) as Hout by reflexivity.
  assert (finish_digest small unaligned ctx' digest aligned =
          out ++ drop 32 digest) as ->.
  { rewrite <- (take_drop 32 digest) at 1.
    rewrite finish_digest_app by (rewrite length_take; lia).
    by rewrite finish_digest_eq by (rewrite length_take; lia). }
  split_and!.
  - by rewrite take_app_length'.
  - by rewrite drop_app_length'.
  - rewrite length_app, length_drop. lia.
Qed.

Lemma finish_writes_only_32_bytes_witness :
  (32 ≤ length (replicate 40 xff))%nat ∧
  drop 32
    (fst (fst (MHD_SHA512_256_finish false false
                 (MHD_SHA512_256_init erased) (replicate 40 xff) false))) =
  drop 32 (replicate 40 xff).
Proof.
  assert (32 ≤ length (replicate 40 xff))%nat as Hd
    by (vm_compute; lia).
  split; [exact Hd|].
  exact (proj1 (proj2 (finish_writes_only_32_bytes false false
                         (MHD_SHA512_256_init erased) (replicate 40 xff)
                         false Hd))).
Defined.

(** X13.  The macros [Ch] and [Maj], which the code defines "with
    widely-used optimisation", are the functions the standard defines
    (the unoptimised versions the code keeps in a comment), on every
    word; and reading the cyclic buffer at [(t - 16) & 15] is reading it
    at [t & 15], the slot that step [t] then assigns. *)
Theorem optimised_macros_are_the_standard_ones :
  (∀ x y z, Ch x y z = Z.lxor (Z.land x y) (Z.land (Z.lnot x) z)) ∧
  (∀ x y z,
     Maj x y z = Z.lxor (Z.lxor (Z.land x y) (Z.land x z)) (Z.land y z)) ∧
  (∀ w t, Wat w (t - 16) = Wat w t).
Proof.
  split_and!.
  - apply Ch_FIPS.
  - apply Maj_FIPS.
  - apply Wat_minus_16.
Qed.

(** X14.  The table [K] of the code holds the 80 constants of the
    standard: its entries are, in order, the first 64 bits of the
    fractional parts of the cube roots of the primes up to 409, which
    are the first 80 primes. *)
Theorem K_are_the_cube_roots_of_the_primes :
  length (primes_to 409) = 80%nat ∧
  (∀ p, p ∈ primes_to 409 ↔
        2 ≤ p ≤ 409 ∧ ∀ d, 1 < d < p → p mod d ≠ 0) ∧
  Forall2 (root_fraction 3) (primes_to 409) K.
Proof.
  split; [by vm_compute|]. split; [apply elem_of_primes_to|].
  apply (root_fractions_intro 3 (primes_to 409) K
           ((λ p, if p <? 8 then 1 else if p <? 27 then 2
                  else if p <? 64 then 3 else if p <? 125 then 4
                  else if p <? 216 then 5 else if p <? 343 then 6 else 7)
              <$> primes_to 409)).
  - by vm_compute.
  - by vm_compute.
  - by vm_compute.
Qed.

(** X15.  The eight words [init] stores come from first principles: the
    initial hash value of SHA-512 is the first 64 bits of the fractional
    parts of the square roots of the first eight primes, and the IV
    generation function of the standard, run from there, yields the
    words of [init]. *)
Theorem init_words_from_first_principles (ctx : Sha512_256Ctx) :
  primes_to 19 = [2; 3; 5; 7; 11; 13; 17; 19] ∧
  Forall2 (root_fraction 2) (primes_to 19) FIPS.IV_512 ∧
  H (MHD_SHA512_256_init ctx) =
    FIPS.compress (Z.lxor 0xa5a5a5a5a5a5a5a5 <$> FIPS.IV_512)
      (FIPS.pad [x53; x48; x41; x2d; x35; x31; x32; x2f; x32; x35; x36]).
Proof.
  split; [by vm_compute|]. split.
  - apply (root_fractions_intro 2 (primes_to 19) FIPS.IV_512
             ((λ p, Z.sqrt p) <$> primes_to 19)); by vm_compute.
  - cbn [MHD_SHA512_256_init set_H set_count set_count_bits_hi H].
    by vm_compute.
Qed.

